(** * Nexus GraphRAG engine: the indexing and retrieval core

    A shallow embedding of [services/llmTools.ts] (tokenizer, chunker, entity
    extraction, cosine similarity, indexing, graph construction, retrieval,
    chat completion and titles), of the document handlers of [App]
    ([handleAddDocument], [handleRemoveDocument], [handleUpdateDocument],
    [handleViewDocument], [loadData]) with the two stores of [dbService]
    they write, of [services/fileProcessor.ts], and of the two view helpers
    that work on retrieval contexts ([getUniqueContexts] and the roadmap of
    [GraphView]).

    Conventions.
    - A JavaScript string is its sequence of UTF-16 code units ([jsstring]).
    - A JavaScript number that holds a score or a vector component is a
      binary64 float ([float], the primitive type, with the IEEE operations
      the engine uses: [+], [-], [*], [/], [sqrt] and the comparisons).
      Word counts, indices and the three [ragConfig] fields are integers ([Z]);
      the settings form produces them with [parseInt].
    - [String.prototype.toLowerCase] and the HTTP exchange behind
      [fetchEmbedding] belong to the host; they are variables of the section
      [Engine]. *)

From Stdlib Require Import ZArith List Bool Lia String Ascii Floats.
From Stdlib Require Import Sorted Permutation.
From Stdlib Require DecimalString DecimalNat Finite.
Import ListNotations.
Local Open Scope Z_scope.

(** ** Strings as UTF-16 code units *)

Definition jsstring := list Z.

(** Code points of a UTF-8 byte sequence (the encoding of this file's string
    literals). *)
Fixpoint utf8_points (bs : list Z) : list Z :=
  match bs with
  | [] => []
  | b0 :: r0 =>
    if b0 <? 128 then b0 :: utf8_points r0
    else
      match r0 with
      | [] => []
      | b1 :: r1 =>
        if b0 <? 224 then ((b0 mod 32) * 64 + b1 mod 64) :: utf8_points r1
        else
          match r1 with
          | [] => []
          | b2 :: r2 =>
            if b0 <? 240
            then ((b0 mod 16) * 4096 + (b1 mod 64) * 64 + b2 mod 64) :: utf8_points r2
            else
              match r2 with
              | [] => []
              | b3 :: r3 =>
                ((b0 mod 8) * 262144 + (b1 mod 64) * 4096 + (b2 mod 64) * 64 + b3 mod 64)
                  :: utf8_points r3
              end
          end
      end
  end.

Definition utf16_units (c : Z) : list Z :=
  if c <? 65536 then [c]
  else [55296 + (c - 65536) / 1024; 56320 + (c - 65536) mod 1024].

(** The JavaScript string denoted by a literal of this file. *)
Definition utf16 (s : string) : jsstring :=
  flat_map utf16_units
    (utf8_points (map (fun a => Z.of_N (N_of_ascii a)) (list_ascii_of_string s))).

Fixpoint jseqb (a b : jsstring) : bool :=
  match a, b with
  | [], [] => true
  | x :: a', y :: b' => (x =? y) && jseqb a' b'
  | _, _ => false
  end.

(** [s.length] *)
Definition jslength (s : jsstring) : Z := Z.of_nat (List.length s).

(** The characters matched by the regular-expression class [\s], which are
    also the ones [trim] and [Number] strip. *)
Definition isWhiteSpace (c : Z) : bool :=
  existsb (Z.eqb c)
    [9; 10; 11; 12; 13; 32; 160; 5760; 8232; 8233; 8239; 8287; 12288; 65279]
  || ((8192 <=? c) && (c <=? 8202)).

Definition SPACE : Z := 32.

(** [s.replace(/[class]/g, " ")] for a single-character class *)
Definition replaceEach (class : Z -> bool) (s : jsstring) : jsstring :=
  map (fun c => if class c then SPACE else c) s.

(** [s.replace(/\s+/g, " ")]; [inRun] tells that the previous character
    belonged to the run being replaced. *)
Fixpoint collapseWhiteSpace (inRun : bool) (s : jsstring) : jsstring :=
  match s with
  | [] => []
  | c :: r =>
    if isWhiteSpace c
    then (if inRun then collapseWhiteSpace true r
          else SPACE :: collapseWhiteSpace true r)
    else c :: collapseWhiteSpace false r
  end.

(** [s.split(sep)] for a one-character separator; [cur] is the piece being
    read. *)
Fixpoint splitOn (sep : Z) (cur : jsstring) (s : jsstring) : list jsstring :=
  match s with
  | [] => [cur]
  | c :: r => if c =? sep then cur :: splitOn sep [] r
              else splitOn sep (cur ++ [c]) r
  end.

(** [s.split(/\s+/)] *)
Fixpoint splitWhiteSpace (inRun : bool) (cur : jsstring) (s : jsstring)
  : list jsstring :=
  match s with
  | [] => [cur]
  | c :: r =>
    if isWhiteSpace c
    then (if inRun then splitWhiteSpace true cur r
          else cur :: splitWhiteSpace true [] r)
    else splitWhiteSpace false (cur ++ [c]) r
  end.

(** [words.join(sep)] *)
Fixpoint join (sep : jsstring) (words : list jsstring) : jsstring :=
  match words with
  | [] => []
  | [w] => w
  | w :: rest => w ++ sep ++ join sep rest
  end.

Fixpoint dropWhile {A} (p : A -> bool) (l : list A) : list A :=
  match l with
  | [] => []
  | x :: r => if p x then dropWhile p r else l
  end.

Fixpoint span {A} (p : A -> bool) (l : list A) : list A * list A :=
  match l with
  | [] => ([], [])
  | x :: r => if p x then let (a, b) := span p r in (x :: a, b) else ([], l)
  end.

(** [s.trim()] *)
Definition trim (s : jsstring) : jsstring :=
  List.rev (dropWhile isWhiteSpace (List.rev (dropWhile isWhiteSpace s))).

(** [Array.prototype.slice(start, end)] with its treatment of negative and
    out-of-range bounds. *)
Definition slice {A} (l : list A) (s e : Z) : list A :=
  let len := Z.of_nat (List.length l) in
  let k := if s <? 0 then Z.max (len + s) 0 else Z.min s len in
  let f := if e <? 0 then Z.max (len + e) 0 else Z.min e len in
  firstn (Z.to_nat (f - k)) (skipn (Z.to_nat k) l).

(** The decimal numeral of an index, as a template string prints it. *)
Definition decimal (n : nat) : jsstring :=
  utf16 (DecimalString.NilZero.string_of_uint (Nat.to_uint n)).

(** ** [Number(t)], as far as [!Number(t)] observes it

    [Number] applied to a string parses a StringNumericLiteral; the tokenizer
    only looks at whether the result is falsy (NaN or a zero). *)

Inductive NumberClass := NumNaN | NumZero | NumNonZero.

Definition isDigit (c : Z) : bool := (48 <=? c) && (c <=? 57).
Definition isHexDigit (c : Z) : bool :=
  isDigit c || ((97 <=? c) && (c <=? 102)) || ((65 <=? c) && (c <=? 70)).
Definition isOctalDigit (c : Z) : bool := (48 <=? c) && (c <=? 55).
Definition isBinaryDigit (c : Z) : bool := (48 <=? c) && (c <=? 49).

Definition digitsValue (ds : jsstring) : Z :=
  fold_left (fun acc d => acc * 10 + (d - 48)) ds 0.

(** [0x], [0o] and [0b] integer literals (no sign allowed). *)
Definition nonDecimalLiteral (s : jsstring) : option NumberClass :=
  match s with
  | 48 :: p :: ds =>
    let digit :=
      if (p =? 120) || (p =? 88) then Some isHexDigit
      else if (p =? 111) || (p =? 79) then Some isOctalDigit
      else if (p =? 98) || (p =? 66) then Some isBinaryDigit
      else None in
    match digit with
    | None => None
    | Some valid =>
      Some (match ds with
            | [] => NumNaN
            | _ => if forallb valid ds
                   then (if forallb (Z.eqb 48) ds then NumZero else NumNonZero)
                   else NumNaN
            end)
    end
  | _ => None
  end.

(** The class of the double nearest to [m * 10^k] (ties to even): it is a
    zero when [m] is, or when the value is at most half the least
    subnormal, [2^-1075]. *)
Definition roundedClass (m k : Z) : NumberClass :=
  if m =? 0 then NumZero
  else if 0 <=? k then NumNonZero
  else if m * 2 ^ 1075 <=? 10 ^ (- k) then NumZero
  else NumNonZero.

Definition unsignedDecimalLiteral (s : jsstring) : NumberClass :=
  if jseqb s (utf16 "Infinity") then NumNonZero
  else
    let (ip, r1) := span isDigit s in
    let (fp, r2) := match r1 with
                    | 46 :: r => span isDigit r
                    | _ => ([], r1)
                    end in
    match ip ++ fp with
    | [] => NumNaN
    | mant =>
      match r2 with
      | [] => roundedClass (digitsValue mant) (- jslength fp)
      | e :: r3 =>
        if (e =? 101) || (e =? 69) then
          let (neg, ds) := match r3 with
                           | 43 :: d => (false, d)
                           | 45 :: d => (true, d)
                           | _ => (false, r3)
                           end in
          match ds with
          | [] => NumNaN
          | _ =>
            if forallb isDigit ds
            then roundedClass (digitsValue mant)
                   ((if neg then - digitsValue ds else digitsValue ds)
                    - jslength fp)
            else NumNaN
          end
        else NumNaN
      end
    end.

Definition NumberClassOf (s : jsstring) : NumberClass :=
  let t := trim s in
  match t with
  | [] => NumZero
  | c :: r =>
    match nonDecimalLiteral t with
    | Some k => k
    | None => if (c =? 43) || (c =? 45) then unsignedDecimalLiteral r
              else unsignedDecimalLiteral t
    end
  end.

(** [!Number(t)] *)
Definition notNumber (t : jsstring) : bool :=
  match NumberClassOf t with
  | NumNonZero => false
  | _ => true
  end.

(** ** Tokenizer tables *)

Definition PERSIAN_STOP_WORDS : list jsstring := map utf16 [
  "از"; "به"; "با"; "در"; "بر"; "برای"; "که"; "و"; "یا"; "اگر"; "ولی"; "اما"; "تا"; "را"; "این"; "آن"; "یک"; "ها"; "های";
  "درباره"; "مورد"; "باید"; "شاید"; "هم"; "نیز"; "پس"; "چون"; "چه"; "چرا"; "بین"; "تحت"; "روی"; "طی"; "همین"; "همان"; "دیگر";
  "هر"; "هیچ"; "همه"; "جایی"; "چیزی"; "کسی"; "بخش"; "قسمت"; "عنوان"; "مثال"; "مانند"; "مثل"; "توسط"; "طریق";
  "است"; "هست"; "بود"; "شد"; "نیست"; "می"; "نمی"; "من"; "تو"; "او"; "ما"; "شما"; "آنها"; "استفاده"; "صورت"; "انجام";
  "دارد"; "دارند"; "داشت"; "خواهند"; "کرد"; "کنند"; "کنید"; "بکنید"; "میکنند"; "میکند"; "نماید"; "گردد"
]%string.

(** [set.has(t)] *)
Definition has (set : list jsstring) (t : jsstring) : bool :=
  existsb (jseqb t) set.

(** The character class of the first [replace] of [tokenize]: the listed
    punctuation marks and the double quote (code unit 34). *)
Definition isPunctuation (c : Z) : bool :=
  existsb (Z.eqb c) (34 :: utf16 ".,/#!$%^&*;:{}=-_`~()?'<>[]\|").

(** The character class of the second [replace]: U+200B to U+200D and
    U+FEFF. *)
Definition isZeroWidth (c : Z) : bool :=
  ((8203 <=? c) && (c <=? 8205)) || (c =? 65279).

(** A lower-casing that agrees with [toLowerCase] on Basic Latin text, used
    to run the engine on examples. *)
Definition asciiLowerCase (s : jsstring) : jsstring :=
  map (fun c => if (65 <=? c) && (c <=? 90) then c + 32 else c) s.

(** ** Chunker *)

(** The scan of [chunkText]: [i] is the loop variable, [chunks] the array
    being filled. The loop may not terminate (when [size <= overlap]), so it
    runs on [fuel], one unit per iteration; [None] is fuel exhausted. *)
Fixpoint chunkLoop (fuel : nat) (words : list jsstring) (size overlap : Z)
         (i : Z) (chunks : list jsstring) : option (list jsstring) :=
  match fuel with
  | O => None
  | S fuel' =>
    if i <? Z.of_nat (List.length words) then
      let chunk := join [SPACE] (slice words i (i + size)) in
      let chunks' := if 5 <? jslength chunk then chunks ++ [chunk] else chunks in
      if Z.of_nat (List.length words) <=? i + size then Some chunks'
      else chunkLoop fuel' words size overlap (i + (size - overlap)) chunks'
    else Some chunks
  end.

Definition chunkTextFuel (fuel : nat) (text : jsstring) (size overlap : Z)
  : option (list jsstring) :=
  chunkLoop fuel (splitWhiteSpace false [] text) size overlap 0 [].

(** [chunkText]: the scan with one unit of fuel per word and one to spare,
    which is enough whenever the loop terminates at all
    ([chunkText_fuel_exact]); [None] stands for a scan that never ends. *)
Definition chunkText (text : jsstring) (size overlap : Z)
  : option (list jsstring) :=
  chunkTextFuel (S (List.length (splitWhiteSpace false [] text))) text size overlap.

(** ** [Array.prototype.sort]

    [sort(compare)] is a stable sort. [after a b] stands for
    [compare(a, b) > 0], which places [a] behind [b]. For a comparator that
    is consistent on the array, as the engine's are on what it sorts
    ([score_after_true], [score_after_false]), the language fixes the
    result: the stable sorted arrangement, which insertion from the right
    computes. *)

Fixpoint insertBy {A} (after : A -> A -> bool) (x : A) (l : list A) : list A :=
  match l with
  | [] => [x]
  | y :: l' => if after x y then y :: insertBy after x l' else x :: l
  end.

Fixpoint sortBy {A} (after : A -> A -> bool) (l : list A) : list A :=
  match l with
  | [] => []
  | x :: l' => insertBy after x (sortBy after l')
  end.

(** ** Data model ([types.ts]) *)

Inductive LLMProvider := LLM_openai | LLM_openrouter | LLM_ollama.
Inductive EmbeddingProvider := Emb_openai | Emb_local | Emb_openrouter.

Record RagConfig := {
  chunkSize : Z;
  chunkOverlap : Z;
  topK : Z
}.

Record AppSettings := {
  provider : LLMProvider;
  openaiKey : jsstring;
  openrouterKey : jsstring;
  ollamaUrl : jsstring;
  modelName : jsstring;
  systemPrompt : jsstring;
  strictMode : bool;
  embeddingProvider : EmbeddingProvider;
  embeddingModel : jsstring;
  ragConfig : RagConfig
}.

Inductive DocStatus := indexing | ready | error.

Record Document := {
  doc_id : jsstring;
  title : jsstring;
  content : jsstring;
  createdAt : Z;
  status : option DocStatus
}.

Definition Vector := list float.

(** [vector] is optional: [None] is an absent ([undefined]) vector. *)
Record TextChunk := {
  chunk_id : jsstring;
  docId : jsstring;
  text : jsstring;
  vector : option Vector
}.

Inductive NodeType := doc | chunk | entity | query.

Record NodeData := {
  data_text : jsstring;
  data_fullText : jsstring
}.

Record GraphNode := {
  node_id : jsstring;
  node_type : NodeType;
  label : jsstring;
  data : option NodeData;
  val : option Z
}.

Inductive LinkType := contains | mentions | related | similar_to.

Record GraphLink := {
  source : jsstring;
  target : jsstring;
  link_type : LinkType;
  weight : option float
}.

Record KnowledgeGraph := {
  nodes : list GraphNode;
  links : list GraphLink
}.

Record RetrievalContext := {
  chunkId : jsstring;
  ctx_docId : jsstring;
  docTitle : jsstring;
  ctx_content : jsstring;
  score : float;
  relatedEntities : list jsstring
}.

(** ** Similarity *)

(** The loop of [cosineSimilarity]; it runs under the guard that the two
    arrays have the same length, over the two in step. *)
Fixpoint cosineLoop (vecA vecB : Vector) (dotProduct magA magB : float)
  : float * float * float :=
  match vecA, vecB with
  | a :: vecA', b :: vecB' =>
    cosineLoop vecA' vecB' (dotProduct + a * b) (magA + a * a) (magB + b * b)
  | _, _ => (dotProduct, magA, magB)
  end.

(** The value the promise of [cosineSimilarity] resolves to. *)
Definition cosineSimilarity (vecA vecB : option Vector) : float :=
  match vecA, vecB with
  | Some a, Some b =>
    if negb (List.length a =? List.length b)%nat then 0
    else
      let '(dotProduct, magA, magB) := cosineLoop a b 0 0 0 in
      let magA := sqrt magA in
      let magB := sqrt magB in
      if (magA =? 0) || (magB =? 0) then 0
      else dotProduct / (magA * magB)
  | _, _ => 0
  end%float.

(** The magnitude the scorer computes for one vector. *)
Definition sumSquares (v : Vector) : float :=
  fold_left (fun acc x => acc + x * x)%float v 0%float.

Definition magnitude (v : Vector) : float := sqrt (sumSquares v).

(** ** Effects: thrown errors, divergence and the log of embedding calls *)

(** An error is the message of the thrown [Error]. *)
Definition Error := jsstring.

Inductive outcome (A : Type) :=
| Returned (a : A)
| Thrown (e : Error)
| Diverged.
Arguments Returned {A} a.
Arguments Thrown {A} e.
Arguments Diverged {A}.

(** One call of [fetchEmbedding]: the text embedded and how the call ended. *)
Record Call := {
  call_text : jsstring;
  call_outcome : outcome (option Vector)
}.

Definition Log := list Call.

(** A computation reads the log of the calls made so far and extends it. *)
Definition M (A : Type) := Log -> outcome A * Log.

Definition ret {A} (a : A) : M A := fun log => (Returned a, log).

Definition bind {A B} (m : M A) (k : A -> M B) : M B :=
  fun log =>
    match m log with
    | (Returned a, log') => k a log'
    | (Thrown e, log') => (Thrown e, log')
    | (Diverged, log') => (Diverged, log')
    end.

Notation "x <- m ;; k" := (bind m (fun x => k))
  (at level 61, m at next level, right associativity).

(** A scan that never ends never gives control back. *)
Definition terminating {A} (o : option A) : M A :=
  fun log =>
    match o with
    | Some a => (Returned a, log)
    | None => (Diverged, log)
    end.

Definition failed (c : Call) : Prop := exists e, call_outcome c = Thrown e.

Definition isEmpty (s : jsstring) : bool :=
  match s with [] => true | _ => false end.

(** [a || b] on strings *)
Definition orElse (a : option jsstring) (b : jsstring) : jsstring :=
  match a with
  | Some (c :: r) => c :: r
  | _ => b
  end.

(** ** The application state touched by [handleAddDocument] *)

Inductive Tab := CHAT | KNOWLEDGE | GRAPH | SETTINGS.

(** [db_documents] and [db_chunks] are the two IndexedDB stores written by
    [dbService]. *)
Record AppState := {
  activeTab : Tab;
  settings : AppSettings;
  documents : list Document;
  chunks : list TextChunk;
  graphData : KnowledgeGraph;
  isLoading : bool;
  app_error : option jsstring;
  db_documents : list Document;
  db_chunks : list TextChunk
}.

(** The argument of [handleAddDocument]; [input_file] carries what
    [processFile] does on the uploaded file: it throws, or yields a title
    and a content. *)
Record AddInput := {
  input_title : option jsstring;
  input_content : option jsstring;
  input_file : option (Error + jsstring * jsstring)
}.

(** [store.put(x)] of an object store keyed by [key]. *)
Fixpoint put {A} (key : A -> jsstring) (x : A) (store : list A) : list A :=
  match store with
  | [] => [x]
  | y :: r => if jseqb (key y) (key x) then x :: r else y :: put key x r
  end.

(** ** Examples of inputs *)

Definition sampleSettings (k : Z) : AppSettings := {|
  provider := LLM_ollama;
  openaiKey := [];
  openrouterKey := [];
  ollamaUrl := utf16 "http://localhost:11434";
  modelName := [];
  systemPrompt := utf16 "You are Nexus, a sophisticated AI assistant.";
  strictMode := false;
  embeddingProvider := Emb_local;
  embeddingModel := utf16 "nomic-embed-text";
  ragConfig := {| chunkSize := 4; chunkOverlap := 1; topK := k |}
|}.

Definition sampleChunk (id owner body : string) (v : option Vector) : TextChunk :=
  {| chunk_id := utf16 id; docId := utf16 owner; text := utf16 body; vector := v |}.

Definition sampleDoc (id body : string) : Document :=
  {| doc_id := utf16 id; title := utf16 id; content := utf16 body;
     createdAt := 0; status := Some ready |}.

(** An endpoint that answers every request with the same vector. *)
Definition constantEndpoint (v : Vector)
  : nat -> jsstring -> AppSettings -> outcome (option Vector) :=
  fun _ _ _ => Returned (Some v).

(** An endpoint that answers the first [n] requests and fails afterwards. *)
Definition failingAfter (n : nat) (v : Vector)
  : nat -> jsstring -> AppSettings -> outcome (option Vector) :=
  fun k _ _ => if (k <? n)%nat then Returned (Some v)
               else Thrown (utf16 "Failed to fetch").

Definition unitX : Vector := [1; 0]%float.

Definition tiedChunks : list TextChunk :=
  [sampleChunk "d1_chk_0" "d1" "alpha beta" (Some unitX);
   sampleChunk "d1_chk_1" "d1" "gamma delta" (Some unitX)].

Definition rankedChunks : list TextChunk :=
  [sampleChunk "d1_chk_0" "d1" "alpha beta" (Some [3; 4]%float);
   sampleChunk "d1_chk_1" "d1" "gamma delta" (Some [0; 1]%float);
   sampleChunk "d1_chk_2" "d1" "epsilon" (Some [1; 0]%float);
   sampleChunk "d1_chk_3" "d1" "omega" None;
   sampleChunk "d1_chk_4" "d1" "zeta eta" (Some [4; 3]%float)].

Definition emptyState : AppState := {|
  activeTab := CHAT;
  settings := sampleSettings 5;
  documents := [];
  chunks := [];
  graphData := {| nodes := []; links := [] |};
  isLoading := false;
  app_error := None;
  db_documents := [];
  db_chunks := []
|}.

Definition smallCorpusDocs : list Document := [sampleDoc "d" "foo foo bar foo"].

Definition smallCorpusChunks : list TextChunk :=
  [sampleChunk "d_chk_0" "d" "foo foo bar" None;
   sampleChunk "d_chk_1" "d" "foo" None].

(** ** Notions used to state the properties *)

(** Number of occurrences of a token. *)
Fixpoint occurrences (t : jsstring) (tokens : list jsstring) : Z :=
  match tokens with
  | [] => 0
  | u :: r => (if jseqb u t then 1 else 0) + occurrences t r
  end.

(** Position of the first occurrence of a token (the length of the list
    when there is none). *)
Fixpoint firstIndex (t : jsstring) (tokens : list jsstring) : nat :=
  match tokens with
  | [] => O
  | u :: r => if jseqb u t then O else S (firstIndex t r)
  end.

(** Finite positive floats and [+infinity]. *)
Definition SFpositive (x : spec_float) : Prop :=
  match x with
  | S754_infinity false | S754_finite false _ _ => True
  | _ => False
  end.

(** A call that ended normally. *)
Definition returned (c : Call) : Prop := exists v, call_outcome c = Returned v.

(** A sequence of scores in descending order: no score is below a later
    one. *)
Definition descending (scores : list float) : Prop :=
  StronglySorted (fun a b => (b <=? a)%float = true) scores.

(** A sequence of scores in strictly descending order: each score is above
    the next one. *)
Definition strictlyDescending (scores : list float) : Prop :=
  Sorted (fun a b => (b <? a)%float = true) scores.

Definition nodeIds (g : KnowledgeGraph) : list jsstring :=
  map node_id (nodes g).

(** No two nodes share an id and every link joins two nodes of the graph. *)
Definition wellFormedGraph (g : KnowledgeGraph) : Prop :=
  NoDup (nodeIds g) /\
  forall l, In l (links g) -> In (source l) (nodeIds g) /\ In (target l) (nodeIds g).

Section Engine.

(** [String.prototype.toLowerCase] *)
Variable toLowerCase : jsstring -> jsstring.

(** The HTTP exchange of the [n]-th embedding call of a run and the reading
    of its reply: the [embedding] field found in the body ([None] when the
    field is missing), or the error thrown on the way. *)
Variable embeddingEndpoint :
  nat -> jsstring -> AppSettings -> outcome (option Vector).

(** *** Tokenizer *)

Definition tokenize (text : jsstring) : list jsstring :=
  match text with
  | [] => []
  | _ =>
    filter (fun t => negb (has PERSIAN_STOP_WORDS t))
      (filter (fun t => notNumber t)
        (filter (fun t => 2 <? jslength t)
          (splitOn SPACE []
            (collapseWhiteSpace false
              (replaceEach isZeroWidth
                (replaceEach isPunctuation (toLowerCase text)))))))
  end.

(** *** Entity extraction *)

(** The [Map] of frequencies keeps its entries in insertion order. *)
Definition freqGet (freq : list (jsstring * Z)) (t : jsstring) : option Z :=
  match find (fun e => jseqb (fst e) t) freq with
  | Some e => Some (snd e)
  | None => None
  end.

Fixpoint freqSet (freq : list (jsstring * Z)) (t : jsstring) (v : Z)
  : list (jsstring * Z) :=
  match freq with
  | [] => [(t, v)]
  | (k, w) :: r => if jseqb k t then (k, v) :: r else (k, w) :: freqSet r t v
  end.

(** [freq.set(t, (freq.get(t) || 0) + 1)] *)
Definition countToken (freq : list (jsstring * Z)) (t : jsstring)
  : list (jsstring * Z) :=
  freqSet freq t
    (match freqGet freq t with
     | Some f => if f =? 0 then 0 else f
     | None => 0
     end + 1).

Definition byFrequency (a b : jsstring * Z) : bool := 0 <? snd b - snd a.

Definition extractEntities (text : jsstring) : list jsstring :=
  let tokens := tokenize text in
  let freq := fold_left countToken tokens [] in
  map fst
    (slice (sortBy byFrequency (filter (fun e => 0 <? snd e) freq)) 0 5).

(** *** Embedding service *)

Definition fetchEmbeddingOutcome (n : nat) (text : jsstring)
           (settings : AppSettings) : outcome (option Vector) :=
  match embeddingProvider settings with
  | Emb_openai =>
    if isEmpty (openaiKey settings)
    then Thrown (utf16 "کلید API OpenAI وارد نشده است.")
    else embeddingEndpoint n text settings
  | Emb_openrouter =>
    if isEmpty (openrouterKey settings)
    then Thrown (utf16 "کلید API OpenRouter وارد نشده است.")
    else
      match embeddingEndpoint n text settings with
      | Returned None => Thrown (utf16 "فرمت پاسخ OpenRouter نامعتبر است.")
      | o => o
      end
  | Emb_local => embeddingEndpoint n text settings
  end.

Definition fetchEmbedding (text : jsstring) (settings : AppSettings)
  : M (option Vector) :=
  fun log =>
    let o := fetchEmbeddingOutcome (List.length log) text settings in
    (o, log ++ [{| call_text := text; call_outcome := o |}]).

(** *** Indexing *)

(** The loop of [processDocument] over [textChunks], from index [idx]. *)
Fixpoint embedChunks (d : Document) (settings : AppSettings)
         (textChunks : list jsstring) (idx : nat) (acc : list TextChunk)
  : M (list TextChunk) :=
  match textChunks with
  | [] => ret acc
  | t :: rest =>
    v <- fetchEmbedding t settings ;;
    embedChunks d settings rest (S idx)
      (acc ++ [{| chunk_id := doc_id d ++ utf16 "_chk_" ++ decimal idx;
                  docId := doc_id d;
                  text := t;
                  vector := v |}])
  end.

Definition processDocument (d : Document) (settings : AppSettings)
  : M (list TextChunk) :=
  _ <- fetchEmbedding (utf16 "test") settings ;;
  textChunks <- terminating
                  (chunkText (content d) (chunkSize (ragConfig settings))
                             (chunkOverlap (ragConfig settings))) ;;
  embedChunks d settings textChunks 0 [].

(** *** Graph *)

Definition docNode (d : Document) : GraphNode :=
  {| node_id := doc_id d; node_type := doc; label := title d;
     data := None; val := Some 20 |}.

Definition chunkNode (c : TextChunk) : GraphNode :=
  {| node_id := chunk_id c; node_type := chunk; label := utf16 "Part";
     data := Some {| data_text := firstn 50 (text c) ++ utf16 "...";
                     data_fullText := text c |};
     val := Some 10 |}.

Definition addEntity (c : TextChunk)
           (g : list GraphNode * list GraphLink) (ent : jsstring)
  : list GraphNode * list GraphLink :=
  let entId := utf16 "ent_" ++ ent in
  let nodes' :=
    match find (fun n => jseqb (node_id n) entId) (fst g) with
    | None => fst g ++ [{| node_id := entId; node_type := entity;
                           label := ent; data := None; val := Some 5 |}]
    | Some _ => fst g
    end in
  (nodes',
   snd g ++ [{| source := chunk_id c; target := entId;
                link_type := mentions; weight := None |}]).

Definition addChunk (g : list GraphNode * list GraphLink) (c : TextChunk)
  : list GraphNode * list GraphLink :=
  fold_left (addEntity c) (extractEntities (text c))
    (fst g ++ [chunkNode c],
     snd g ++ [{| source := docId c; target := chunk_id c;
                  link_type := contains; weight := None |}]).

Definition rebuildGraphFromChunks (docs : list Document)
           (cs : list TextChunk) : KnowledgeGraph :=
  let nodes0 := fold_left (fun ns d => ns ++ [docNode d]) docs [] in
  let g := fold_left addChunk cs (nodes0, []) in
  {| nodes := fst g; links := snd g |}.

(** *** Retrieval *)

Definition scoreChunk (queryVec : option Vector) (c : TextChunk)
  : TextChunk * float :=
  (c, match vector c, queryVec with
      | Some _, Some _ => cosineSimilarity queryVec (vector c)
      | _, _ => 0%float
      end).

Definition byScore (a b : TextChunk * float) : bool :=
  (0 <? snd b - snd a)%float.

Definition toContext (docs : list Document) (item : TextChunk * float)
  : RetrievalContext :=
  {| chunkId := chunk_id (fst item);
     ctx_docId := docId (fst item);
     docTitle := match find (fun d => jseqb (doc_id d) (docId (fst item))) docs with
                 | Some d => title d
                 | None => utf16 "سند ناشناس"
                 end;
     ctx_content := text (fst item);
     score := snd item;
     relatedEntities := extractEntities (text (fst item)) |}.

Definition retrieveContext (q : jsstring) (cs : list TextChunk)
           (settings : AppSettings) (docs : list Document)
  : M (list RetrievalContext) :=
  if isEmpty q || (List.length cs =? 0)%nat then ret []
  else
    queryVec <- fetchEmbedding q settings ;;
    let scoredChunks := map (scoreChunk queryVec) cs in
    let topChunks :=
      slice (sortBy byScore
               (filter (fun s => (0.25 <? snd s)%float) scoredChunks))
            0 (topK (ragConfig settings)) in
    ret (map (toContext docs) topChunks).

(** *** [handleAddDocument]

    [uuid] is the value of [crypto.randomUUID()] and [now] of [Date.now()].
    The state setters are applied in program order; the two [dbService]
    writes are taken to succeed. *)

Definition withStatus (d : Document) (s : DocStatus) : Document :=
  {| doc_id := doc_id d; title := title d; content := content d;
     createdAt := createdAt d; status := Some s |}.

Definition replaceDoc (d : Document) (docs : list Document) : list Document :=
  map (fun x => if jseqb (doc_id x) (doc_id d) then d else x) docs.

(** What [handleAddDocument] does before indexing: it reads the file, if
    any, and rejects a blank content. [inl] is the message passed to
    [setError] on the early returns. *)
Definition readInput (input : AddInput) : Error + jsstring * jsstring :=
  match input_file input with
  | Some (inl e) => inl e
  | file =>
    let docTitle := match file with
                    | Some (inr p) => fst p
                    | _ => orElse (input_title input) (utf16 "Untitled")
                    end in
    let docContent := match file with
                      | Some (inr p) => snd p
                      | _ => orElse (input_content input) []
                      end in
    if isEmpty (trim docContent) then inl (utf16 "محتوای سند خالی است.")
    else inr (docTitle, docContent)
  end.

Definition newDocument (p : jsstring * jsstring) (uuid : jsstring) (now : Z)
  : Document :=
  {| doc_id := uuid; title := fst p; content := snd p; createdAt := now;
     status := Some indexing |}.

Definition handleAddDocument (st : AppState) (input : AddInput)
           (uuid : jsstring) (now : Z) : M AppState :=
  match readInput input with
  | inl msg =>
    ret {| activeTab := activeTab st; settings := settings st;
           documents := documents st; chunks := chunks st;
           graphData := graphData st; isLoading := false;
           app_error := Some msg;
           db_documents := db_documents st; db_chunks := db_chunks st |}
  | inr p =>
    let newDoc := newDocument p uuid now in
    fun log =>
      match processDocument newDoc (settings st) log with
      | (Returned newChunks, log') =>
        let readyDoc := withStatus newDoc ready in
        let allChunks := chunks st ++ newChunks in
        (Returned
           {| activeTab := KNOWLEDGE; settings := settings st;
              documents := replaceDoc readyDoc (documents st ++ [newDoc]);
              chunks := allChunks;
              graphData :=
                rebuildGraphFromChunks (documents st ++ [readyDoc]) allChunks;
              isLoading := false;
              app_error := None;
              db_documents := put doc_id readyDoc (db_documents st);
              db_chunks := fold_left (fun s c => put chunk_id c s)
                                     newChunks (db_chunks st) |},
         log')
      | (Thrown e, log') =>
        let errorDoc := withStatus newDoc error in
        (Returned
           {| activeTab := KNOWLEDGE; settings := settings st;
              documents := replaceDoc errorDoc (documents st ++ [newDoc]);
              chunks := chunks st;
              graphData := graphData st;
              isLoading := false;
              app_error :=
                Some (orElse (Some e) (utf16 "خطا در ایندکس کردن سند"));
              db_documents := db_documents st;
              db_chunks := db_chunks st |},
         log')
      | (Diverged, log') => (Diverged, log')
      end
  end.

(** *** Notions for the chunker *)

(** The [k]-th window of the scan: [size] words from word [k * step]. *)
Definition window (words : list jsstring) (size step : Z) (k : nat) : jsstring :=
  join [SPACE] (slice words (Z.of_nat k * step) (Z.of_nat k * step + size)).

(** The id [processDocument] gives to the chunk of index [idx]. *)
Definition chunkIdOf (d : Document) (idx : nat) : jsstring :=
  doc_id d ++ utf16 "_chk_" ++ decimal idx.

(** The chunk records [processDocument] builds from the texts of the
    chunks and the vectors returned for them, from index [idx] on. *)
Fixpoint chunkRecords (d : Document) (idx : nat) (texts : list jsstring)
         (vs : list (option Vector)) : list TextChunk :=
  match texts, vs with
  | t :: texts', v :: vs' =>
    {| chunk_id := chunkIdOf d idx; docId := doc_id d; text := t; vector := v |}
      :: chunkRecords d (S idx) texts' vs'
  | _, _ => []
  end.

(** The log entries of calls that returned. *)
Definition returnedCalls (texts : list jsstring) (vs : list (option Vector))
  : list Call :=
  map (fun p => {| call_text := fst p; call_outcome := Returned (snd p) |})
      (combine texts vs).

(** *** Notions for the graph *)

Definition isEntity (n : GraphNode) : bool :=
  match node_type n with
  | entity => true
  | _ => false
  end.

(** The ids of the entity nodes of a graph. *)
Definition entityIds (ns : list GraphNode) : list jsstring :=
  map node_id (filter isEntity ns).

Definition containsLink (c : TextChunk) : GraphLink :=
  {| source := docId c; target := chunk_id c; link_type := contains;
     weight := None |}.

Definition mentionsLink (c : TextChunk) (ent : jsstring) : GraphLink :=
  {| source := chunk_id c; target := utf16 "ent_" ++ ent;
     link_type := mentions; weight := None |}.

(** *** The other document handlers ([handleRemoveDocument],
    [handleUpdateDocument], [handleViewDocument])

    [dbService.deleteDocument] is the one store call these handlers guard
    with a [catch]; its outcome is an argument: [None] when it resolves,
    [Some e] when it rejects with the error [e], in which case the stores
    are taken to be as they were. *)

(** [dbService.deleteDocument(id)]: the document under the key [id] and the
    chunks the index [by-doc] lists under [id]. *)
Definition deleteDocument (id : jsstring) (st : AppState) : AppState :=
  {| activeTab := activeTab st; settings := settings st;
     documents := documents st; chunks := chunks st;
     graphData := graphData st; isLoading := isLoading st;
     app_error := app_error st;
     db_documents := filter (fun d => negb (jseqb (doc_id d) id)) (db_documents st);
     db_chunks := filter (fun c => negb (jseqb (docId c) id)) (db_chunks st) |}.

(** The closure a confirmation dialog runs when confirmed. *)
Inductive PendingAction := RemoveDocumentAction (id : jsstring).

Record ConfirmModalData := {
  isOpen : bool;
  modal_title : jsstring;
  modal_message : jsstring;
  onConfirm : PendingAction
}.

(** The state with the dialog of [confirmModal]. *)
Record AppView := {
  app : AppState;
  confirmModal : option ConfirmModalData
}.

(** [handleRemoveDocument] only opens the dialog. *)
Definition handleRemoveDocument (v : AppView) (id : jsstring) : AppView :=
  {| app := app v;
     confirmModal :=
       Some {| isOpen := true;
               modal_title := utf16 "حذف سند";
               modal_message :=
                 utf16 "آیا از حذف این سند و تمامی داده‌های وکتور آن مطمئن هستید؟";
               onConfirm := RemoveDocumentAction id |} |}.

(** The [onConfirm] of that dialog. *)
Definition confirmRemoveDocument (id : jsstring) (deleted : option Error)
           (st : AppState) : AppState :=
  match deleted with
  | None =>
    let st1 := deleteDocument id st in
    let newDocs := filter (fun d => negb (jseqb (doc_id d) id)) (documents st) in
    let newChunks := filter (fun c => negb (jseqb (docId c) id)) (chunks st) in
    {| activeTab := activeTab st1; settings := settings st1;
       documents := newDocs; chunks := newChunks;
       graphData := rebuildGraphFromChunks newDocs newChunks;
       isLoading := isLoading st1; app_error := app_error st1;
       db_documents := db_documents st1; db_chunks := db_chunks st1 |}
  | Some e =>
    {| activeTab := activeTab st; settings := settings st;
       documents := documents st; chunks := chunks st;
       graphData := graphData st; isLoading := isLoading st;
       app_error := Some (utf16 "خطا در حذف سند: " ++ e);
       db_documents := db_documents st; db_chunks := db_chunks st |}
  end.

(** A click on the confirm button of the dialog. *)
Definition confirm (deleted : option Error) (v : AppView) : AppView :=
  match confirmModal v with
  | Some m =>
    match onConfirm m with
    | RemoveDocumentAction id =>
      {| app := confirmRemoveDocument id deleted (app v); confirmModal := None |}
    end
  | None => v
  end.

Definition handleUpdateDocument (st : AppState) (updatedDoc : Document)
           (deleted : option Error) (uuid : jsstring) (now : Z) : M AppState :=
  match deleted with
  | None =>
    handleAddDocument
      (deleteDocument (doc_id updatedDoc)
         {| activeTab := activeTab st; settings := settings st;
            documents := documents st; chunks := chunks st;
            graphData := graphData st; isLoading := true;
            app_error := app_error st;
            db_documents := db_documents st; db_chunks := db_chunks st |})
      {| input_title := Some (title updatedDoc);
         input_content := Some (content updatedDoc);
         input_file := None |}
      uuid now
  | Some e =>
    ret {| activeTab := activeTab st; settings := settings st;
           documents := documents st; chunks := chunks st;
           graphData := graphData st; isLoading := false;
           app_error := Some (utf16 "خطا در ویرایش سند: " ++ e);
           db_documents := db_documents st; db_chunks := db_chunks st |}
  end.

(** [s.replace(pat, "")] for a string pattern: the first occurrence of
    [pat] is removed. *)
Fixpoint startsWith (pat s : jsstring) : bool :=
  match pat, s with
  | [], _ => true
  | p :: pat', c :: s' => (p =? c) && startsWith pat' s'
  | _ :: _, [] => false
  end.

Fixpoint removeFirst (pat s : jsstring) : jsstring :=
  if startsWith pat s then skipn (List.length pat) s
  else match s with
       | [] => []
       | c :: r => c :: removeFirst pat r
       end.

Record NodeModalData := {
  view_title : jsstring;
  view_content : jsstring;
  view_type : NodeType;
  view_score : option float;
  parentTitle : option jsstring
}.

(** [handleViewDocument(id, type)]: the data passed to [setViewingNode],
    [None] when the handler sets nothing. *)
Definition handleViewDocument (st : AppState) (id : jsstring) (type : NodeType)
  : option NodeModalData :=
  match type with
  | chunk =>
    match find (fun c => jseqb (chunk_id c) id) (chunks st) with
    | Some c =>
      Some {| view_title := utf16 "قطعه متن (Chunk)";
              view_content := text c;
              view_type := chunk;
              view_score := None;
              parentTitle :=
                Some (match find (fun d => jseqb (doc_id d) (docId c)) (documents st) with
                      | Some d => orElse (Some (title d)) (utf16 "سند ناشناس")
                      | None => utf16 "سند ناشناس"
                      end) |}
    | None => None
    end
  | doc =>
    match find (fun d => jseqb (doc_id d) id) (documents st) with
    | Some d =>
      Some {| view_title := title d; view_content := content d;
              view_type := doc; view_score := None; parentTitle := None |}
    | None => None
    end
  | entity =>
    Some {| view_title := utf16 "موجودیت (Entity)";
            view_content :=
              utf16 "این گره نشان‌دهنده مفهوم «" ++ removeFirst (utf16 "ent_") id
                ++ utf16 "» است.";
            view_type := entity; view_score := None; parentTitle := None |}
  | query => None
  end.

(** *** The corpus kept by the handlers *)

(** The ids of documents and chunks are pairwise distinct all together,
    every chunk belongs to a listed document and bears an id of the form
    [<id>_chk_<n>]. *)
Definition corpusOk (docs : list Document) (cs : list TextChunk) : Prop :=
  NoDup (map doc_id docs ++ map chunk_id cs) /\
  (forall c, In c cs -> In (docId c) (map doc_id docs)) /\
  (forall c, In c cs ->
     exists owner idx, chunk_id c = owner ++ utf16 "_chk_" ++ decimal idx).

(** No listed id begins with [uuid]. *)
Definition freshId (uuid : jsstring) (ids : list jsstring) : Prop :=
  Forall (fun id => firstn (List.length uuid) id <> uuid) ids.

(** Number of underscores of an id. *)
Definition underscores (s : jsstring) : nat := count_occ Z.eq_dec s 95.

(** Where a node of the full graph comes from: a document, a chunk, or an
    entity whose id is [ent_] followed by its label. *)
Definition nodeOrigin (docs : list Document) (cs : list TextChunk)
           (n : GraphNode) : Prop :=
  (exists d, In d docs /\ n = docNode d) \/
  (exists c, In c cs /\ n = chunkNode c) \/
  (node_type n = entity /\ node_id n = utf16 "ent_" ++ label n).


(** *** File import ([services/fileProcessor.ts])

    The file readers belong to the host and to the libraries [pdfjs] and
    [mammoth]. What they find in a file is an argument: each reader either
    resolves with a value or rejects, and [Failed] carries the [message]
    property of what it rejects with ([None] when it has none, as for the
    event passed to [FileReader.onerror]). *)

Record File := {
  file_name : jsstring;
  file_type : jsstring
}.

Inductive Read (A : Type) :=
| Loaded (a : A)
| Failed (message : option jsstring).
Arguments Loaded {A} a.
Arguments Failed {A} message.

(** [asText] is the text [readAsText] yields, [asPdf] the string items of
    every page of the document, [asDocx] the raw text [mammoth] extracts. *)
Record FileContents := {
  asText : Read jsstring;
  asPdf : Read (list (list jsstring));
  asDocx : Read jsstring
}.

(** The end of a name matched by [/\.[^/.]+$/]: a dot followed by one or
    more characters that are neither a slash nor a dot. *)
Definition isExtension (s : jsstring) : bool :=
  match s with
  | 46 :: c :: r => forallb (fun x => negb (x =? 47) && negb (x =? 46)) (c :: r)
  | _ => false
  end.

(** [fileName.replace(/\.[^/.]+$/, "")] *)
Fixpoint stripExtension (s : jsstring) : jsstring :=
  if isExtension s then []
  else match s with
       | [] => []
       | c :: r => c :: stripExtension r
       end.

(** [s.endsWith(suffix)] *)
Definition endsWith (s suffix : jsstring) : bool :=
  (List.length suffix <=? List.length s)%nat
  && jseqb (skipn (List.length s - List.length suffix) s) suffix.

Definition readTextFile (found : FileContents) : Read jsstring := asText found.

Definition readPdfFile (found : FileContents) : Read jsstring :=
  match asPdf found with
  | Loaded pages =>
    let fullText :=
      fold_left (fun fullText items => fullText ++ join [SPACE] items ++ [10; 10])
                pages [] in
    Loaded (trim (collapseWhiteSpace false fullText))
  | Failed message => Failed message
  end.

Definition readDocxFile (found : FileContents) : Read jsstring :=
  match asDocx found with
  | Loaded value => Loaded (trim value)
  | Failed message => Failed message
  end.

(** [processFile(file)]: [inr (title, content)] when it resolves, [inl] with
    the message of the error it throws otherwise. *)
Definition processFile (file : File) (found : FileContents)
  : Error + jsstring * jsstring :=
  let fileType := file_type file in
  let fileName := file_name file in
  let title := stripExtension fileName in
  let attempt :=
    if jseqb fileType (utf16 "application/pdf") then readPdfFile found
    else if jseqb fileType
              (utf16 "application/vnd.openxmlformats-officedocument.wordprocessingml.document")
    then readDocxFile found
    else if jseqb fileType (utf16 "text/plain")
            || jseqb fileType (utf16 "text/markdown")
            || endsWith fileName (utf16 ".md")
            || endsWith fileName (utf16 ".txt")
    then readTextFile found
    else Failed (Some (utf16 "فرمت فایل پشتیبانی نمی‌شود: " ++ fileType
                         ++ utf16 ". فقط PDF, DOCX, TXT و MD مجاز هستند.")) in
  match attempt with
  | Loaded content => inr (title, content)
  | Failed message =>
    inl (utf16 "خطا در خواندن فایل " ++ fileName ++ utf16 ": "
           ++ match message with
              | Some m => m
              | None => utf16 "undefined"
              end)
  end.

(** The argument [handleAddDocument] receives from the form for an uploaded
    file. *)
Definition fileInput (formTitle formContent : jsstring) (file : File)
           (found : FileContents) : AddInput :=
  {| input_title := Some formTitle; input_content := Some formContent;
     input_file := Some (processFile file found) |}.

(** *** Sources of an answer ([getUniqueContexts], [components/ChatView.tsx]) *)

(** A [Map] with string keys: its entries in insertion order. *)
Fixpoint mapGet {V} (k : jsstring) (m : list (jsstring * V)) : option V :=
  match m with
  | [] => None
  | e :: r => if jseqb (fst e) k then Some (snd e) else mapGet k r
  end.

Fixpoint mapSet {V} (k : jsstring) (v : V) (m : list (jsstring * V))
  : list (jsstring * V) :=
  match m with
  | [] => [(k, v)]
  | e :: r => if jseqb (fst e) k then (k, v) :: r else e :: mapSet k v r
  end.

(** [items.reduce(f)] without an initial value; [None] stands for the
    [TypeError] thrown on an empty array. *)
Definition reduce {A} (f : A -> A -> A) (items : list A) : option A :=
  match items with
  | [] => None
  | x :: r => Some (fold_left f r x)
  end.

(** [{ ...bestItem, chunkCount }] *)
Record UniqueContext := {
  bestItem : RetrievalContext;
  chunkCount : nat
}.

Definition groupByDoc (contexts : list RetrievalContext)
  : list (jsstring * list RetrievalContext) :=
  fold_left
    (fun grouped ctx =>
       let existing := match mapGet (ctx_docId ctx) grouped with
                       | Some items => items
                       | None => []
                       end in
       mapSet (ctx_docId ctx) (existing ++ [ctx]) grouped)
    contexts [].

Definition better (prev curr : RetrievalContext) : RetrievalContext :=
  if (score curr <? score prev)%float then prev else curr.

(** The callback of [map] over the entries, run on every entry in order;
    [None] as soon as one call throws. *)
Fixpoint bestOfEach (entries : list (jsstring * list RetrievalContext))
  : option (list UniqueContext) :=
  match entries with
  | [] => Some []
  | e :: r =>
    match reduce better (snd e) with
    | None => None
    | Some b =>
      match bestOfEach r with
      | None => None
      | Some rest =>
        Some ({| bestItem := b; chunkCount := List.length (snd e) |} :: rest)
      end
    end
  end.

(** [getUniqueContexts(contexts)]; the argument is [None] when the message
    has no [retrievedContext]. *)
Definition getUniqueContexts (contexts : option (list RetrievalContext))
  : option (list UniqueContext) :=
  match contexts with
  | None => Some []
  | Some items => bestOfEach (groupByDoc items)
  end.

(** *** Inference roadmap ([components/GraphView.tsx])

    The data field of a chunk node of the roadmap is the retrieval context
    itself, so the roadmap has its own record of nodes. *)

Record RoadmapNode := {
  rm_id : jsstring;
  rm_type : NodeType;
  rm_label : jsstring;
  rm_val : Z;
  rm_data : option RetrievalContext
}.

Record Roadmap := {
  rm_nodes : list RoadmapNode;
  rm_links : list GraphLink
}.

(** [nodes.find(n => n.id === id)], as a condition *)
Definition hasNode (id : jsstring) (ns : list RoadmapNode) : bool :=
  match find (fun n => jseqb (rm_id n) id) ns with
  | Some _ => true
  | None => false
  end.

(** The three kinds of nodes pushed by the loop. *)
Definition roadmapChunkNode (idx : nat) (ctx : RetrievalContext) : RoadmapNode :=
  {| rm_id := chunkId ctx; rm_type := chunk;
     rm_label := utf16 "Result #" ++ decimal (idx + 1);
     rm_val := 15; rm_data := Some ctx |}.

Definition roadmapDocNode (ctx : RetrievalContext) : RoadmapNode :=
  {| rm_id := ctx_docId ctx; rm_type := doc; rm_label := docTitle ctx;
     rm_val := 25; rm_data := None |}.

Definition roadmapEntityNode (ent : jsstring) : RoadmapNode :=
  {| rm_id := utf16 "ent_" ++ ent; rm_type := entity; rm_label := ent;
     rm_val := 8; rm_data := None |}.

Definition addRoadmapEntity (chunkNodeId : jsstring) (g : Roadmap)
           (ent : jsstring) : Roadmap :=
  let entId := utf16 "ent_" ++ ent in
  {| rm_nodes :=
       if hasNode entId (rm_nodes g) then rm_nodes g
       else rm_nodes g ++ [roadmapEntityNode ent];
     rm_links :=
       rm_links g ++ [{| source := chunkNodeId; target := entId;
                         link_type := mentions; weight := None |}] |}.

(** The body of [focusContext.forEach]; [addedDocs] is the set of document
    ids seen so far. *)
Definition addContext (queryId : jsstring) (st : Roadmap * list jsstring)
           (item : nat * RetrievalContext) : Roadmap * list jsstring :=
  let g := fst st in
  let addedDocs := snd st in
  let idx := fst item in
  let ctx := snd item in
  let chunkNodeId := chunkId ctx in
  let g1 :=
    if hasNode chunkNodeId (rm_nodes g) then g
    else {| rm_nodes := rm_nodes g ++ [roadmapChunkNode idx ctx];
            rm_links :=
              rm_links g ++ [{| source := queryId; target := chunkNodeId;
                                link_type := similar_to;
                                weight := Some (score ctx) |}] |} in
  let known := existsb (jseqb (ctx_docId ctx)) addedDocs in
  let g2 :=
    {| rm_nodes :=
         if known then rm_nodes g1
         else rm_nodes g1 ++ [roadmapDocNode ctx];
       rm_links :=
         rm_links g1 ++ [{| source := chunkNodeId; target := ctx_docId ctx;
                            link_type := contains; weight := None |}] |} in
  (fold_left (addRoadmapEntity chunkNodeId) (relatedEntities ctx) g2,
   if known then addedDocs else addedDocs ++ [ctx_docId ctx]).

(** The nodes and links of the first mode of the effect of [GraphView],
    taken when [focusQuery && focusContext] holds; [None] otherwise. *)
Definition roadmap (focusQuery : option jsstring)
           (focusContext : option (list RetrievalContext)) : option Roadmap :=
  match focusQuery, focusContext with
  | Some (c :: q), Some contexts =>
    let queryId := utf16 "query_root" in
    Some (fst (fold_left (addContext queryId)
                 (combine (seq 0 (List.length contexts)) contexts)
                 ({| rm_nodes := [{| rm_id := queryId; rm_type := query;
                                     rm_label := c :: q; rm_val := 30;
                                     rm_data := None |}];
                     rm_links := [] |}, [])))
  | _, _ => None
  end.

(** *** Chat completion ([callLLM], [generateChatTitle])

    The HTTP exchange is the variable [chatEndpoint]: the response to a
    request, the message of the error [fetch] rejects with, or no answer at
    all. *)

Record ChatMessage := {
  role : jsstring;
  msg_content : jsstring
}.

Record ChatBody := {
  body_model : jsstring;
  body_messages : list ChatMessage;
  body_temperature : option float;
  body_stream : option bool;
  body_options_temperature : option float
}.

Record Request := {
  url : jsstring;
  headers : list (jsstring * jsstring);
  body : ChatBody
}.

(** The parsed body of a response, as far as [callLLM] reads it: each of
    the two paths yields a string or throws. *)
Record ResponseData := {
  message_content : Error + jsstring;
  choices_0_message_content : Error + jsstring
}.

Record Response := {
  ok : bool;
  response_status : nat;
  statusText : jsstring;
  json : Error + ResponseData
}.

Section Chat.

(** [window.location.origin] *)
Variable locationOrigin : jsstring.

Variable chatEndpoint : Request -> outcome Response.

(** [url.replace(/\/$/, "")] *)
Fixpoint stripTrailingSlash (s : jsstring) : jsstring :=
  match s with
  | [] => []
  | [47] => []
  | c :: r => c :: stripTrailingSlash r
  end.

(** [s.includes(pat)] *)
Fixpoint includes (s pat : jsstring) : bool :=
  startsWith pat s
  || match s with
     | [] => false
     | _ :: r => includes r pat
     end.

Definition providerName (p : LLMProvider) : jsstring :=
  match p with
  | LLM_openai => utf16 "openai"
  | LLM_openrouter => utf16 "openrouter"
  | LLM_ollama => utf16 "ollama"
  end.

(** The [switch] of [callLLM]: the request to send, or the message of the
    error thrown for a missing key. The temperature [0.3] is the double
    [0x1.3333333333333p-2]. *)
Definition chatRequest (messages : list ChatMessage) (settings : AppSettings)
  : Error + Request :=
  let contentType := (utf16 "Content-Type", utf16 "application/json") in
  match provider settings with
  | LLM_openai =>
    if isEmpty (openaiKey settings)
    then inl (utf16 "کلید OpenAI وارد نشده است")
    else inr {| url := utf16 "https://api.openai.com/v1/chat/completions";
                headers := [contentType;
                            (utf16 "Authorization",
                             utf16 "Bearer " ++ openaiKey settings)];
                body := {| body_model := orElse (Some (modelName settings))
                                                (utf16 "gpt-3.5-turbo");
                           body_messages := messages;
                           body_temperature := Some 0x1.3333333333333p-2%float;
                           body_stream := None;
                           body_options_temperature := None |} |}
  | LLM_openrouter =>
    if isEmpty (openrouterKey settings)
    then inl (utf16 "کلید OpenRouter وارد نشده است")
    else inr {| url := utf16 "https://openrouter.ai/api/v1/chat/completions";
                headers := [contentType;
                            (utf16 "Authorization",
                             utf16 "Bearer " ++ openrouterKey settings);
                            (utf16 "HTTP-Referer", locationOrigin);
                            (utf16 "X-Title", utf16 "Nexus RAG")];
                body := {| body_model := orElse (Some (modelName settings))
                                                (utf16 "openai/gpt-3.5-turbo");
                           body_messages := messages;
                           body_temperature := None;
                           body_stream := None;
                           body_options_temperature := None |} |}
  | LLM_ollama =>
    inr {| url := stripTrailingSlash (ollamaUrl settings) ++ utf16 "/api/chat";
           headers := [contentType];
           body := {| body_model := orElse (Some (modelName settings))
                                           (utf16 "llama3");
                      body_messages := messages;
                      body_temperature := None;
                      body_stream := Some false;
                      body_options_temperature := Some 0x1.3333333333333p-2%float |} |}
  end.

(** The [try] block of [callLLM]. *)
Definition exchange (messages : list ChatMessage) (settings : AppSettings)
  : outcome jsstring :=
  match chatRequest messages settings with
  | inl e => Thrown e
  | inr request =>
    match chatEndpoint request with
    | Returned response =>
      if ok response then
        match json response with
        | inl e => Thrown e
        | inr data =>
          match (match provider settings with
                 | LLM_ollama => message_content data
                 | _ => choices_0_message_content data
                 end) with
          | inl e => Thrown e
          | inr content => Returned content
          end
        end
      else Thrown (utf16 "API Error: " ++ decimal (response_status response)
                     ++ [SPACE] ++ statusText response)
    | Thrown e => Thrown e
    | Diverged => Diverged
    end
  end.

Definition callLLM (messages : list ChatMessage) (settings : AppSettings)
  : outcome jsstring :=
  match exchange messages settings with
  | Thrown message =>
    if negb (isEmpty message) && includes message (utf16 "Failed to fetch")
    then Thrown (utf16 "خطای اتصال به مدل " ++ providerName (provider settings)
                   ++ utf16 ". لطفا CORS و آدرس سرور را در تنظیمات بررسی کنید.")
    else Thrown (utf16 "خطا در هوش مصنوعی: " ++ message)
  | o => o
  end.





End Chat.

(** *** Loading the knowledge base at start-up ([loadData])

    [db.getAll(store)] lists the values of a store in the order of their
    keys; string keys are ordered by code units. *)






(** *** Notions used to state the properties of the views *)

(** A word: a non-empty string without white space. *)
Definition properWord (w : jsstring) : Prop :=
  w <> [] /\ Forall (fun c => isWhiteSpace c = false) w.

(** The ids of the nodes of a roadmap. *)
Definition roadmapIds (g : Roadmap) : list jsstring := map rm_id (rm_nodes g).

(** Where a node of the roadmap of the query [q] over [contexts] comes
    from: the query, a context (whose chunk it stands for, or whose
    document), or an entity of a context. *)
Definition roadmapOrigin (q : jsstring) (contexts : list RetrievalContext)
           (n : RoadmapNode) : Prop :=
  (rm_type n = query /\ rm_id n = utf16 "query_root" /\ rm_label n = q) \/
  (rm_type n = chunk /\
   exists ctx, In ctx contexts /\ rm_id n = chunkId ctx /\ rm_data n = Some ctx) \/
  (rm_type n = doc /\
   exists ctx, In ctx contexts /\ rm_id n = ctx_docId ctx /\
               rm_label n = docTitle ctx) \/
  (rm_type n = entity /\
   exists ctx, In ctx contexts /\ In (rm_label n) (relatedEntities ctx) /\
               rm_id n = utf16 "ent_" ++ rm_label n).

(** No document id among the contexts is the id of the query node, of a
    chunk or of an entity of the contexts. *)
Definition docIdsApart (contexts : list RetrievalContext) : Prop :=
  forall c c', In c contexts -> In c' contexts ->
    ctx_docId c <> utf16 "query_root" /\
    ctx_docId c <> chunkId c' /\
    forall e, In e (relatedEntities c') -> ctx_docId c <> utf16 "ent_" ++ e.

(** What the roadmap under construction satisfies once the contexts [done]
    of the list [all] have been added. *)
Definition roadmapInv (q : jsstring) (all done : list RetrievalContext)
           (st : Roadmap * list jsstring) : Prop :=
  let ids := roadmapIds (fst st) in
  In (utf16 "query_root") ids /\
  (forall l, In l (rm_links (fst st)) -> In (source l) ids /\ In (target l) ids) /\
  (forall c, In c done ->
     In (chunkId c) ids /\ In (ctx_docId c) ids /\
     forall e, In e (relatedEntities c) -> In (utf16 "ent_" ++ e) ids) /\
  Forall (fun n => roadmapOrigin q done n /\
                   (rm_type n = doc -> In (rm_id n) (snd st)))
         (rm_nodes (fst st)) /\
  (forall d, In d (snd st) -> In d ids) /\
  (docIdsApart all -> NoDup ids).

(** *** More examples of inputs *)

(** The provider [openai] selected for the embeddings, without a key. *)
Definition keylessSettings : AppSettings := {|
  provider := LLM_openai;
  openaiKey := [];
  openrouterKey := [];
  ollamaUrl := utf16 "http://localhost:11434";
  modelName := [];
  systemPrompt := utf16 "You are Nexus, a sophisticated AI assistant.";
  strictMode := false;
  embeddingProvider := Emb_openai;
  embeddingModel := utf16 "text-embedding-3-small";
  ragConfig := {| chunkSize := 4; chunkOverlap := 1; topK := 5 |}
|}.

(** A state with one document and its two chunks, in memory and stored. *)
Definition oneDocState : AppState := {|
  activeTab := KNOWLEDGE;
  settings := sampleSettings 5;
  documents := [sampleDoc "d1" "alpha beta gamma delta"];
  chunks := tiedChunks;
  graphData := {| nodes := []; links := [] |};
  isLoading := false;
  app_error := None;
  db_documents := [sampleDoc "d1" "alpha beta gamma delta"];
  db_chunks := tiedChunks
|}.

Definition sampleContexts : list RetrievalContext :=
  [{| chunkId := utf16 "d1_chk_0"; ctx_docId := utf16 "d1";
      docTitle := utf16 "d1"; ctx_content := utf16 "alpha beta";
      score := 0.75%float; relatedEntities := [utf16 "alpha"; utf16 "beta"] |};
   {| chunkId := utf16 "d1_chk_1"; ctx_docId := utf16 "d1";
      docTitle := utf16 "d1"; ctx_content := utf16 "gamma alpha";
      score := 0.5%float; relatedEntities := [utf16 "gamma"; utf16 "alpha"] |}].

Definition textFile : File :=
  {| file_name := utf16 "report.final.txt"; file_type := utf16 "text/plain" |}.

Definition imageFile : File :=
  {| file_name := utf16 "scan.png"; file_type := utf16 "image/png" |}.

Definition pdfFile : File :=
  {| file_name := utf16 "paper.pdf"; file_type := utf16 "application/pdf" |}.

(** A file whose text reads [hello world] and whose two pages, as a PDF
    document, hold three items. *)
Definition sampleContents : FileContents :=
  {| asText := Loaded (utf16 "hello world");
     asPdf := Loaded [[utf16 "Hello "; utf16 "world"]; [utf16 "again"]];
     asDocx := Failed (Some (utf16 "not a zip file")) |}.
(** *** Invariants used in the proofs *)

(** What the frequency map holds once the tokens [l] have been counted. *)
Record counted (l : list jsstring) (freq : list (jsstring * Z)) : Prop := {
  counted_keys : forall u, In u (map fst freq) <-> In u l;
  counted_nodup : NoDup (map fst freq);
  counted_values : forall e, In e freq -> snd e = occurrences (fst e) l;
  counted_order :
    StronglySorted (fun a b => (firstIndex a l < firstIndex b l)%nat) (map fst freq)
}.

(** What the graph under construction satisfies once the chunks [done] of
    the corpus [cs] have been added. *)
Definition graphInv (docs : list Document) (cs done : list TextChunk)
           (g : list GraphNode * list GraphLink) : Prop :=
  NoDup (map node_id (fst g)) /\
  (forall id, In id (map node_id (fst g)) ->
     In id (map doc_id docs) \/ In id (map chunk_id done) \/
     exists c e, In c cs /\ In e (extractEntities (text c)) /\
                 id = utf16 "ent_" ++ e) /\
  (forall id, In id (map doc_id docs) -> In id (map node_id (fst g))) /\
  (forall l, In l (snd g) ->
     In (source l) (map node_id (fst g)) /\ In (target l) (map node_id (fst g))).

(** The calls [new] made by a run that ended with [r]: all of them returned,
    except the last one when it is the one that threw or never came back. *)
Definition runShape {A} (r : outcome A) (new : list Call) : Prop :=
  match r with
  | Returned _ => Forall returned new
  | Thrown e =>
    exists done t,
      new = done ++ [{| call_text := t; call_outcome := Thrown e |}] /\
      Forall returned done
  | Diverged => Forall (fun c => ~ failed c) new
  end.

(** ** Facts about binary64 arithmetic

    Derived from the specification of the primitive operations
    ([FloatAxioms]) and the reference implementation [SpecFloat]. *)

Lemma float_mul_comm (x y : float) : (x * y = y * x)%float.
Proof.
  apply Prim2SF_inj. rewrite !mul_spec.
  destruct (Prim2SF x) as [sx|sx| |sx mx ex], (Prim2SF y) as [sy|sy| |sy my ey];
    unfold SF64mul, SFmul; try reflexivity;
    rewrite (xorb_comm sx sy); try reflexivity.
  now rewrite (Pos.mul_comm mx my), (Z.add_comm ex ey).
Qed.

Lemma SFcompare_antisym (x y : spec_float) :
  SFcompare y x = option_map CompOpp (SFcompare x y).
Proof.
  destruct x as [sx|sx| |sx mx ex], y as [sy|sy| |sy my ey]; simpl;
    try reflexivity;
    try (destruct sx; reflexivity); try (destruct sy; reflexivity);
    try (destruct sx, sy; reflexivity).
  change (Pos.compare_cont Eq mx my) with (Pos.compare mx my).
  change (Pos.compare_cont Eq my mx) with (Pos.compare my mx).
  rewrite (Z.compare_antisym ex ey), (Pos.compare_antisym mx my).
  destruct sx, sy, (ex ?= ey), (mx ?= my)%positive; reflexivity.
Qed.

Lemma ltb_not_leb (x y : float) : (x <? y)%float = true -> (y <=? x)%float = false.
Proof.
  rewrite ltb_spec, leb_spec. unfold SFltb, SFleb.
  rewrite (SFcompare_antisym (Prim2SF x) (Prim2SF y)).
  destruct (SFcompare (Prim2SF x) (Prim2SF y)) as [[ | | ]|]; simpl; congruence.
Qed.

Lemma digits2_pos_bounds (m : positive) :
  2 ^ (Zpos (digits2_pos m) - 1) <= Zpos m < 2 ^ Zpos (digits2_pos m).
Proof.
  induction m as [m IH|m IH|]; simpl digits2_pos.
  - rewrite Pos2Z.inj_succ. replace (Z.succ (Zpos (digits2_pos m)) - 1) with (Z.succ (Zpos (digits2_pos m) - 1)) by lia.
    rewrite !Z.pow_succ_r by lia. lia.
  - rewrite Pos2Z.inj_succ. replace (Z.succ (Zpos (digits2_pos m)) - 1) with (Z.succ (Zpos (digits2_pos m) - 1)) by lia.
    rewrite !Z.pow_succ_r by lia. lia.
  - simpl. lia.
Qed.

Lemma iter_xO_value (m d : positive) : Zpos (Pos.iter xO m d) = Zpos m * 2 ^ Zpos d.
Proof.
  induction d as [|d IH] using Pos.peano_ind.
  - simpl. lia.
  - rewrite Pos.iter_succ, Pos2Z.inj_succ, Z.pow_succ_r by lia.
    rewrite Pos2Z.inj_xO, IH. lia.
Qed.

Lemma shl_align_value (m : positive) (e e' : Z) :
  e' <= e -> Zpos (fst (shl_align m e e')) = Zpos m * 2 ^ (e - e').
Proof.
  intros H. unfold shl_align.
  destruct (e' - e) as [|p|p] eqn:E.
  - replace (e - e') with 0 by lia. simpl. lia.
  - lia.
  - simpl fst. rewrite iter_xO_value. f_equal. f_equal. lia.
Qed.

Lemma shr_1_m (mrs : shr_record) : 0 <= shr_m mrs -> shr_m (shr_1 mrs) = shr_m mrs / 2.
Proof.
  destruct mrs as [m r s]. simpl. intros H.
  destruct m as [|p|p]; try lia.
  - reflexivity.
  - destruct p as [p|p|]; simpl.
    + rewrite Pos2Z.inj_xI. apply Z.div_unique with 1; lia.
    + rewrite Pos2Z.inj_xO. apply Z.div_unique with 0; lia.
    + reflexivity.
Qed.

Lemma iter_shr_1_m (p : positive) : forall mrs, 0 <= shr_m mrs ->
  shr_m (iter_pos shr_1 p mrs) = shr_m mrs / 2 ^ Zpos p.
Proof.
  induction p as [p IH|p IH|]; intros mrs H; simpl iter_pos.
  - assert (H1 : 0 <= shr_m (shr_1 mrs)) by (rewrite shr_1_m by lia; apply Z.div_pos; lia).
    assert (H2 : 0 <= shr_m (iter_pos shr_1 p (shr_1 mrs))) by (rewrite IH by lia; apply Z.div_pos; lia).
    rewrite IH, IH, shr_1_m by lia.
    rewrite !Z.div_div by lia. f_equal.
    rewrite Pos2Z.inj_xI, Z.pow_add_r, Z.pow_mul_r by lia. change (2 ^ 2) with 4. 
    replace (2 ^ Zpos p * 2 ^ Zpos p) with ((2 ^ Zpos p) ^ 2) by (rewrite Z.pow_2_r; lia).
    rewrite <- Z.pow_mul_r by lia. rewrite <- (Z.pow_mul_r 2 2) by lia. 
    rewrite (Z.mul_comm (Zpos p) 2). change (2 ^ 1) with 2. lia.
  - assert (H2 : 0 <= shr_m (iter_pos shr_1 p mrs)) by (rewrite IH by lia; apply Z.div_pos; lia).
    rewrite IH, IH by lia. rewrite !Z.div_div by lia. f_equal.
    rewrite Pos2Z.inj_xO, <- Z.pow_add_r by lia. f_equal. lia.
  - rewrite shr_1_m by lia. reflexivity.
Qed.

Lemma shr_record_of_loc_m m l : shr_m (shr_record_of_loc m l) = m.
Proof. destruct l as [|[ | | ]]; reflexivity. Qed.

Lemma shr_fexp_pos (m e : Z) (l : location) :
  0 < m -> (-1074) <= e ->
  0 < shr_m (fst (shr_fexp prec emax m e l)) /\ (-1074) <= snd (shr_fexp prec emax m e l).
Proof.
  intros Hm He. unfold shr_fexp, shr.
  destruct m as [|p|p]; try lia. simpl Zdigits2.
  pose proof (digits2_pos_bounds p) as [Hlo _].
  set (d := Zpos (digits2_pos p)) in *.
  assert (Hd : 1 <= d) by (unfold d; lia).
  unfold fexp, SpecFloat.emin, prec, emax.
  destruct (Z.max (d + e - 53) (3 - 1024 - 53) - e) as [|n|n] eqn:E; simpl fst; simpl snd.
  - rewrite shr_record_of_loc_m. lia.
  - rewrite iter_shr_1_m by (rewrite shr_record_of_loc_m; lia).
    rewrite shr_record_of_loc_m. split; [|lia].
    apply Z.div_str_pos. split; [lia|].
    apply Z.le_trans with (2 ^ (d - 1)); [|exact Hlo].
    apply Z.pow_le_mono_r; lia.
  - rewrite shr_record_of_loc_m. lia.
Qed.

Lemma round_nearest_even_ge m l : m <= round_nearest_even m l.
Proof. destruct l as [|[ | | ]]; simpl; try lia. destruct (Z.even m); lia. Qed.

Lemma binary_round_aux_positive (m e : Z) (l : location) :
  0 < m -> (-1074) <= e ->
  SFltb (S754_zero false) (binary_round_aux prec emax false m e l) = true.
Proof.
  intros Hm He. unfold binary_round_aux.
  pose proof (shr_fexp_pos m e l Hm He) as [H1 H2].
  destruct (shr_fexp prec emax m e l) as [mrs' e']. simpl in H1, H2.
  pose proof (round_nearest_even_ge (shr_m mrs') (loc_of_shr_record mrs')) as H3.
  set (m2 := round_nearest_even (shr_m mrs') (loc_of_shr_record mrs')) in *.
  pose proof (shr_fexp_pos m2 e' loc_Exact ltac:(lia) H2) as [H4 H5].
  destruct (shr_fexp prec emax m2 e' loc_Exact) as [mrs'' e'']. simpl in H4, H5.
  destruct (shr_m mrs'') as [|q|q]; try lia.
  destruct (e'' <=? emax - prec); reflexivity.
Qed.

Lemma binary_round_positive (m : positive) (e : Z) :
  (-1074) <= e -> SFltb (S754_zero false) (binary_round prec emax false m e) = true.
Proof.
  intros He. unfold binary_round.
  assert (H : (-1074) <= snd (shl_align m e (fexp prec emax (Zpos (digits2_pos m) + e)))).
  { unfold shl_align. destruct (fexp prec emax (Z.pos (digits2_pos m) + e) - e) eqn:E; simpl; try lia.
    unfold fexp, SpecFloat.emin, prec, emax. lia. }
  destruct (shl_align m e (fexp prec emax (Zpos (digits2_pos m) + e))) as [mz ez].
  apply binary_round_aux_positive; simpl in H; lia.
Qed.

Lemma binary_round_negative (m : positive) (e : Z) :
  SFltb (S754_zero false) (binary_round prec emax true m e) = false.
Proof.
  unfold binary_round, binary_round_aux.
  destruct (shl_align m e _) as [mz ez].
  destruct (shr_fexp prec emax (Zpos mz) ez loc_Exact) as [mrs' e'].
  destruct (shr_fexp prec emax _ e' loc_Exact) as [mrs'' e''].
  destruct (shr_m mrs''); try reflexivity.
  destruct (e'' <=? emax - prec); reflexivity.
Qed.

(** Comparison of two valid positive finite floats is the comparison of
    their mantissas once aligned on the smaller exponent. *)
Lemma canonical_exponent (m : positive) (e : Z) :
  canonical_mantissa prec emax m e = true ->
  (-1074) <= e /\ Zpos (digits2_pos m) <= 53 /\ ((-1074) < e -> Zpos (digits2_pos m) = 53).
Proof.
  unfold canonical_mantissa, fexp, SpecFloat.emin, prec, emax.
  intros H. apply Z.eqb_eq in H. lia.
Qed.

Lemma compare_aligned (mx my : positive) (ex ey : Z) :
  canonical_mantissa prec emax mx ex = true ->
  canonical_mantissa prec emax my ey = true ->
  match Z.compare ex ey with
  | Lt => Lt
  | Gt => Gt
  | Eq => Pos.compare_cont Eq mx my
  end
  = (Zpos (fst (shl_align mx ex (Z.min ex ey))) ?= Zpos (fst (shl_align my ey (Z.min ex ey)))).
Proof.
  intros Hx Hy.
  apply canonical_exponent in Hx. destruct Hx as (Hx1 & Hx2 & Hx3).
  apply canonical_exponent in Hy. destruct Hy as (Hy1 & Hy2 & Hy3).
  pose proof (digits2_pos_bounds mx) as [Lx Ux].
  pose proof (digits2_pos_bounds my) as [Ly Uy].
  rewrite !shl_align_value by lia.
  destruct (Z.compare_spec ex ey) as [E|E|E].
  - subst ey. rewrite Z.min_id, Z.sub_diag. simpl. rewrite !Pos.mul_1_r. reflexivity.
  - symmetry. apply Z.compare_lt_iff.
    rewrite Z.min_l, Z.sub_diag by lia. rewrite Z.mul_1_r.
    rewrite Hy3 in Ly by lia.
    assert (2 ^ 1 <= 2 ^ (ey - ex)) by (apply Z.pow_le_mono_r; lia).
    assert (Zpos mx < 2 ^ 53) by (eapply Z.lt_le_trans; [exact Ux| apply Z.pow_le_mono_r; lia]).
    change (2 ^ 1) with 2 in *. change (2 ^ (53 - 1)) with 4503599627370496 in *.
    change (2 ^ 53) with 9007199254740992 in *. nia.
  - symmetry. apply Z.compare_gt_iff.
    rewrite Z.min_r, Z.sub_diag by lia. rewrite Z.mul_1_r.
    rewrite Hx3 in Lx by lia.
    assert (2 ^ 1 <= 2 ^ (ex - ey)) by (apply Z.pow_le_mono_r; lia).
    assert (Zpos my < 2 ^ 53) by (eapply Z.lt_le_trans; [exact Uy| apply Z.pow_le_mono_r; lia]).
    change (2 ^ 1) with 2 in *. change (2 ^ (53 - 1)) with 4503599627370496 in *.
    change (2 ^ 53) with 9007199254740992 in *. nia.
Qed.

Lemma SFsub_sign (x y : spec_float) :
  valid_binary x = true -> valid_binary y = true ->
  SFpositive x -> SFpositive y ->
  SFltb (S754_zero false) (SFsub prec emax y x) = SFltb x y.
Proof.
  intros Vx Vy Px Py.
  destruct x as [sx|[|]| |[|] mx ex]; try contradiction;
  destruct y as [sy|[|]| |[|] my ey]; try contradiction; try reflexivity.
  simpl in Vx, Vy. unfold bounded in Vx, Vy.
  apply andb_prop in Vx. destruct Vx as [Cx _].
  apply andb_prop in Vy. destruct Vy as [Cy _].
  unfold SFltb at 2. unfold SFcompare. rewrite (compare_aligned mx my ex ey Cx Cy).
  unfold SFsub, cond_Zopp. rewrite (Z.min_comm ey ex).
  set (X := Zpos (fst (shl_align mx ex (Z.min ex ey)))).
  set (Y := Zpos (fst (shl_align my ey (Z.min ex ey)))).
  assert (Hez : (-1074) <= Z.min ex ey).
  { apply canonical_exponent in Cx. apply canonical_exponent in Cy. lia. }
  destruct (Z.compare_spec X Y) as [E|E|E].
  - rewrite E, Z.sub_diag. reflexivity.
  - destruct (Y - X) as [|d|d] eqn:D; try lia.
    simpl binary_normalize. apply binary_round_positive. exact Hez.
  - destruct (Y - X) as [|d|d] eqn:D; try lia.
    simpl binary_normalize. apply binary_round_negative.
Qed.

Lemma above_quarter_positive (x : float) :
  (0.25 <? x)%float = true -> SFpositive (Prim2SF x).
Proof.
  rewrite ltb_spec. 
  change (Prim2SF 0.25) with (S754_finite false 4503599627370496 (-54)).
  destruct (Prim2SF x) as [s|[|]| |[|] m e]; simpl; try discriminate; trivial.
Qed.

Lemma score_sub_sign (x y : float) :
  (0.25 <? x)%float = true -> (0.25 <? y)%float = true ->
  (0 <? y - x)%float = (x <? y)%float.
Proof.
  intros Hx Hy. rewrite !ltb_spec, sub_spec.
  change (Prim2SF 0) with (S754_zero false).
  apply SFsub_sign; auto using Prim2SF_valid, above_quarter_positive.
Qed.

Lemma ltb_leb (x y : float) : (x <? y)%float = true -> (x <=? y)%float = true.
Proof.
  rewrite ltb_spec, leb_spec. unfold SFltb, SFleb.
  destruct (SFcompare (Prim2SF x) (Prim2SF y)) as [[ | | ]|]; congruence.
Qed.

Lemma SFpositive_compare (x y : spec_float) :
  SFpositive x -> SFpositive y -> SFcompare x y <> None.
Proof.
  destruct x as [sx|[|]| |[|] mx ex]; try contradiction;
  destruct y as [sy|[|]| |[|] my ey]; try contradiction; simpl; discriminate.
Qed.

Lemma not_ltb_leb (x y : float) :
  (0.25 <? x)%float = true -> (0.25 <? y)%float = true ->
  (x <? y)%float = false -> (y <=? x)%float = true.
Proof.
  intros Hx Hy. rewrite ltb_spec, leb_spec. unfold SFltb, SFleb.
  rewrite (SFcompare_antisym (Prim2SF x) (Prim2SF y)).
  pose proof (SFpositive_compare _ _ (above_quarter_positive x Hx) (above_quarter_positive y Hy)).
  destruct (SFcompare (Prim2SF x) (Prim2SF y)) as [[ | | ]|]; simpl; congruence.
Qed.

Lemma SFleb_positive_trans (x y z : spec_float) :
  SFpositive x -> SFpositive y -> SFpositive z ->
  SFleb x y = true -> SFleb y z = true -> SFleb x z = true.
Proof.
  destruct x as [sx|[|]| |[|] mx ex]; try contradiction;
  destruct y as [sy|[|]| |[|] my ey]; try contradiction;
  destruct z as [sz|[|]| |[|] mz ez]; try contradiction;
  intros _ _ _; unfold SFleb, SFcompare; try discriminate; try reflexivity.
  change (Pos.compare_cont Eq) with Pos.compare.
  destruct (Z.compare_spec ex ey), (Z.compare_spec ey ez), (Z.compare_spec ex ez);
    try discriminate; try reflexivity; try lia;
  destruct (Pos.compare_spec mx my), (Pos.compare_spec my mz), (Pos.compare_spec mx mz);
    try discriminate; try reflexivity; try lia.
Qed.

Lemma score_leb_trans (x y z : float) :
  (0.25 <? x)%float = true -> (0.25 <? y)%float = true ->
  (0.25 <? z)%float = true ->
  (z <=? y)%float = true -> (y <=? x)%float = true -> (z <=? x)%float = true.
Proof.
  intros Hx Hy Hz. rewrite !leb_spec.
  apply SFleb_positive_trans; apply above_quarter_positive; assumption.
Qed.

(** ** Similarity scorer *)

Lemma cosineLoop_swap (a b : Vector) : forall d ma mb,
  cosineLoop b a d mb ma =
  (let '(dp, x, y) := cosineLoop a b d ma mb in (dp, y, x)).
Proof.
  revert b. induction a as [|x a IH]; intros [|y b] d ma mb; simpl; try reflexivity.
  rewrite (float_mul_comm y x). apply IH.
Qed.

Lemma cosineLoop_magnitudes (a b : Vector) : forall d ma mb,
  List.length a = List.length b ->
  exists dp,
    cosineLoop a b d ma mb =
    (dp, fold_left (fun acc x => acc + x * x)%float a ma,
         fold_left (fun acc x => acc + x * x)%float b mb).
Proof.
  revert b. induction a as [|x a IH]; intros [|y b] d ma mb H; simpl in *;
    try discriminate.
  - exists d. reflexivity.
  - apply IH. congruence.
Qed.

(** C5. [cosineSimilarity] is defined on every pair of arguments (the
    source has no path that throws) and its value is [0] as soon as one
    vector is absent, the two lengths differ, or the magnitude computed for
    one of the vectors is zero. *)
Theorem cosineSimilarity_zero_fallback (vecA vecB : option Vector) :
  vecA = None \/ vecB = None \/
  (exists a b, vecA = Some a /\ vecB = Some b /\
     (List.length a <> List.length b \/
      (magnitude a =? 0)%float = true \/ (magnitude b =? 0)%float = true)) ->
  cosineSimilarity vecA vecB = 0%float.
Proof.
  intros [H | [H | (a & b & Ha & Hb & H)]]; subst.
  - reflexivity.
  - destruct vecA; reflexivity.
  - unfold cosineSimilarity.
    destruct (Nat.eqb_spec (List.length a) (List.length b)) as [E|E]; simpl.
    + destruct (cosineLoop_magnitudes a b 0 0 0 E) as [dp Hl].
      rewrite Hl. fold (sumSquares a) (sumSquares b). fold (magnitude a) (magnitude b).
      destruct H as [H | [H | H]]; [contradiction | |]; rewrite H; simpl.
      * reflexivity.
      * rewrite orb_true_r. reflexivity.
    + reflexivity.
Qed.

(** A vector whose components are all zeros has magnitude zero. *)
Lemma magnitude_zero_vector (v : Vector) :
  Forall (fun x => x = 0%float \/ x = (-0)%float) v -> magnitude v = 0%float.
Proof.
  unfold magnitude, sumSquares. intros H.
  assert (G : fold_left (fun acc x => acc + x * x)%float v 0%float = 0%float).
  { induction H as [|x v [Hx|Hx] _ IH]; simpl; subst; auto. }
  rewrite G. reflexivity.
Qed.

(** C9. The scorer is symmetric: both orders of the arguments give the same
    number (the same NaN included, when the sums overflow). *)
Theorem cosineSimilarity_symmetric (vecA vecB : option Vector) :
  cosineSimilarity vecA vecB = cosineSimilarity vecB vecA.
Proof.
  destruct vecA as [a|], vecB as [b|]; try reflexivity.
  unfold cosineSimilarity.
  rewrite (Nat.eqb_sym (List.length b) (List.length a)).
  destruct (List.length a =? List.length b)%nat; simpl; [|reflexivity].
  rewrite (cosineLoop_swap a b).
  destruct (cosineLoop a b 0 0 0) as [[dp x] y].
  rewrite (orb_comm (sqrt y =? 0)%float), (float_mul_comm (sqrt y)).
  reflexivity.
Qed.

(** ** Sorting and slicing *)

Lemma insertBy_perm {A} (after : A -> A -> bool) (x : A) (l : list A) :
  Permutation (x :: l) (insertBy after x l).
Proof.
  induction l as [|y l IH]; simpl.
  - reflexivity.
  - destruct (after x y).
    + rewrite perm_swap. constructor. exact IH.
    + reflexivity.
Qed.

Lemma sortBy_perm {A} (after : A -> A -> bool) (l : list A) :
  Permutation l (sortBy after l).
Proof.
  induction l as [|x l IH]; simpl.
  - constructor.
  - rewrite <- insertBy_perm. constructor. exact IH.
Qed.

Lemma sortBy_Forall {A} (after : A -> A -> bool) (P : A -> Prop) (l : list A) :
  Forall P l -> Forall P (sortBy after l).
Proof.
  intros H. rewrite Forall_forall in *. intros x Hx. apply H.
  apply Permutation_in with (sortBy after l); [|exact Hx].
  symmetry. apply sortBy_perm.
Qed.

Section Chain.
Context {A : Type} (after : A -> A -> bool) (R : A -> A -> Prop) (P : A -> Prop).
Hypothesis after_true : forall x y, P x -> P y -> after x y = true -> R y x.
Hypothesis after_false : forall x y, P x -> P y -> after x y = false -> R x y.

Lemma insertBy_HdRel (y x : A) (l : list A) :
  R y x -> HdRel R y l -> HdRel R y (insertBy after x l).
Proof.
  intros Hyx H. destruct l as [|z l]; simpl.
  - constructor. exact Hyx.
  - inversion H; subst. destruct (after x z); constructor; assumption.
Qed.

Lemma insertBy_Sorted (x : A) (l : list A) :
  P x -> Forall P l -> Sorted R l -> Sorted R (insertBy after x l).
Proof.
  intros Px Pl Hs. induction l as [|y l IH]; simpl.
  - repeat constructor.
  - inversion Pl; subst. inversion Hs; subst.
    destruct (after x y) eqn:E.
    + constructor; [apply IH; assumption|].
      apply insertBy_HdRel; [apply after_true; assumption | assumption].
    + constructor; [assumption|]. constructor. apply after_false; assumption.
Qed.

Lemma sortBy_Sorted (l : list A) : Forall P l -> Sorted R (sortBy after l).
Proof.
  induction l as [|x l IH]; intros H; simpl.
  - constructor.
  - inversion H; subst. apply insertBy_Sorted; auto using sortBy_Forall.
Qed.
End Chain.

(** Stability: among elements the comparator holds equal, the order of the
    input is kept. The comparator orders by a key, larger keys first. *)
Section Stable.
Context {A : Type} (after : A -> A -> bool) (key : A -> Z) (before : A -> A -> Prop).
Hypothesis after_key : forall a b, after a b = (key a <? key b).

Let ranked (a b : A) : Prop := key b < key a \/ (key a = key b /\ before a b).

Lemma insertBy_stable (x : A) (l : list A) :
  Forall (before x) l -> StronglySorted ranked l ->
  StronglySorted ranked (insertBy after x l).
Proof.
  intros Hb Hs. induction l as [|y l IH]; simpl.
  - repeat constructor.
  - inversion Hb as [|? ? Hxy Hb']; subst. inversion Hs as [|? ? Hs' Hy]; subst.
    rewrite after_key. destruct (Z.ltb_spec (key x) (key y)) as [L|L].
    + constructor; [apply IH; assumption|].
      rewrite Forall_forall in *. intros z Hz.
      apply (Permutation_in _ (Permutation_sym (insertBy_perm after x l))) in Hz.
      destruct Hz as [<-|Hz]; [left; exact L | apply Hy; exact Hz].
    + constructor; [exact Hs|].
      constructor.
      * destruct (Z.eq_dec (key x) (key y)); [right; auto | left; lia].
      * rewrite Forall_forall in *. intros z Hz.
        specialize (Hy z Hz). specialize (Hb' z Hz). unfold ranked in *.
        destruct (Z.eq_dec (key x) (key z)); [right; auto | left; lia].
Qed.

Lemma sortBy_stable (l : list A) :
  StronglySorted before l -> StronglySorted ranked (sortBy after l).
Proof.
  induction 1 as [|x l Hs IH Hx]; simpl.
  - constructor.
  - apply insertBy_stable; [|exact IH].
    rewrite Forall_forall in *. intros z Hz. apply Hx.
    apply Permutation_in with (sortBy after l); [|exact Hz].
    symmetry. apply sortBy_perm.
Qed.
End Stable.

Lemma slice_from_start {A} (l : list A) (e : Z) :
  exists n, slice l 0 e = firstn n l /\
            (0 <= e -> Z.of_nat n <= e).
Proof.
  unfold slice. simpl (0 <? 0).
  pose proof (Nat2Z.is_nonneg (List.length l)) as Hlen.
  rewrite (Z.min_l 0) by lia. simpl skipn. rewrite Z.sub_0_r.
  eexists. split; [reflexivity|]. intros He.
  destruct (Z.ltb_spec e 0); lia.
Qed.

Lemma slice_length_le {A} (l : list A) (e : Z) :
  0 <= e -> Z.of_nat (List.length (slice l 0 e)) <= e.
Proof.
  intros He. destruct (slice_from_start l e) as (n & -> & Hn).
  specialize (Hn He). pose proof (firstn_le_length n l).
  rewrite length_firstn. lia.
Qed.

Lemma StronglySorted_firstn {A} (R : A -> A -> Prop) (n : nat) : forall l,
  StronglySorted R l -> StronglySorted R (firstn n l).
Proof.
  induction n as [|n IH]; intros l H; simpl.
  - constructor.
  - destruct l as [|x l]; [constructor|].
    inversion H; subst. constructor; [apply IH; assumption|].
    rewrite Forall_forall in *. intros z Hz. apply H3.
    rewrite <- (firstn_skipn n l). apply in_or_app. left. exact Hz.
Qed.

Lemma Forall_firstn_of {A} (P : A -> Prop) (n : nat) (l : list A) :
  Forall P l -> Forall P (firstn n l).
Proof.
  intros H. rewrite Forall_forall in *. intros z Hz. apply H.
  rewrite <- (firstn_skipn n l). apply in_or_app. left. exact Hz.
Qed.

Lemma Sorted_pairwise {A} (R : A -> A -> Prop) (P : A -> Prop) :
  (forall a b c, P a -> P b -> P c -> R a b -> R b c -> R a c) ->
  forall l, Forall P l -> Sorted R l -> StronglySorted R l.
Proof.
  intros Htrans. induction l as [|x l IH]; intros HP Hs; [constructor|].
  inversion HP as [|? ? Px Pl]; subst. inversion Hs as [|? ? Hs' Hh]; subst.
  specialize (IH Pl Hs'). constructor; [exact IH|].
  destruct l as [|y l]; [constructor|].
  inversion Hh; subst. inversion IH as [|? ? _ Hy]; subst.
  inversion Pl as [|? ? Py Pl']; subst.
  constructor; [assumption|].
  rewrite Forall_forall in *. intros z Hz.
  apply Htrans with y; auto.
Qed.

Lemma StronglySorted_map {A B} (f : A -> B) (R : A -> A -> Prop) (R' : B -> B -> Prop) :
  (forall a b, R a b -> R' (f a) (f b)) ->
  forall l, StronglySorted R l -> StronglySorted R' (map f l).
Proof.
  intros HR. induction 1 as [|x l Hs IH Hx]; simpl; constructor; auto.
  rewrite Forall_map. rewrite Forall_forall in *. auto.
Qed.

(** ** Retriever *)

Lemma score_after_true (x y : TextChunk * float) :
  (0.25 <? snd x)%float = true -> (0.25 <? snd y)%float = true ->
  byScore x y = true -> (snd x <=? snd y)%float = true.
Proof.
  unfold byScore. intros Hx Hy H.
  rewrite (score_sub_sign _ _ Hx Hy) in H. apply ltb_leb. exact H.
Qed.

Lemma score_after_false (x y : TextChunk * float) :
  (0.25 <? snd x)%float = true -> (0.25 <? snd y)%float = true ->
  byScore x y = false -> (snd y <=? snd x)%float = true.
Proof.
  unfold byScore. intros Hx Hy H.
  rewrite (score_sub_sign _ _ Hx Hy) in H. apply not_ltb_leb; assumption.
Qed.

Lemma topChunks_sorted (scored : list (TextChunk * float)) :
  StronglySorted (fun a b => (snd b <=? snd a)%float = true)
         (sortBy byScore (filter (fun s => (0.25 <? snd s)%float) scored)).
Proof.
  assert (Hkept : Forall (fun s => (0.25 <? snd s)%float = true)
                         (filter (fun s => (0.25 <? snd s)%float) scored)).
  { rewrite Forall_forall. intros s Hs. apply filter_In in Hs. tauto. }
  apply Sorted_pairwise with (P := fun s => (0.25 <? snd s)%float = true).
  - intros a b c Ha Hb Hc Hab Hbc.
    apply score_leb_trans with (y := snd b); assumption.
  - apply sortBy_Forall. exact Hkept.
  - apply sortBy_Sorted with (P := fun s => (0.25 <? snd s)%float = true).
    + intros x y Hx Hy H. apply score_after_true; assumption.
    + intros x y Hx Hy H. apply score_after_false; assumption.
    + exact Hkept.
Qed.

(** C1, as the code has it. The sequence returned by [retrieveContext] is
    in descending order of score (every item scores at least as much as
    every later one; equal scores may follow one another), has
    at most [topK] items when [topK] is not negative, and every item scores
    strictly above 0.25, so none scores 0.25 or less. *)
Theorem retrieveContext_ordering (q : jsstring) (cs : list TextChunk)
        (settings : AppSettings) (docs : list Document) (log log' : Log)
        (ctxs : list RetrievalContext) :
  retrieveContext q cs settings docs log = (Returned ctxs, log') ->
  descending (map score ctxs) /\
  (0 <= topK (ragConfig settings) ->
   Z.of_nat (List.length ctxs) <= topK (ragConfig settings)) /\
  Forall (fun c => (0.25 <? score c)%float = true /\
                   (score c <=? 0.25)%float = false) ctxs.
Proof.
  unfold retrieveContext.
  destruct (isEmpty q || (List.length cs =? 0)%nat).
  - intros H. injection H as <- _. unfold descending. simpl. repeat split; try constructor.
    simpl. intros; assumption.
  - unfold bind, fetchEmbedding.
    destruct (fetchEmbeddingOutcome (List.length log) q settings) as [queryVec|e|];
      try discriminate.
    unfold ret. intros H. injection H as <- _.
    set (kept := filter (fun s => (0.25 <? snd s)%float)
                        (map (scoreChunk queryVec) cs)).
    pose proof (topChunks_sorted (map (scoreChunk queryVec) cs)) as Hs.
    fold kept in Hs.
    split; [|split].
    + destruct (slice_from_start (sortBy byScore kept) (topK (ragConfig settings)))
        as (n & -> & _).
      rewrite map_map. simpl.
      apply StronglySorted_map with (R := fun a b => (snd b <=? snd a)%float = true);
        [auto|]. apply StronglySorted_firstn. exact Hs.
    + intros Hk. rewrite length_map. apply slice_length_le. exact Hk.
    + destruct (slice_from_start (sortBy byScore kept) (topK (ragConfig settings)))
        as (n & -> & _).
      rewrite Forall_map. apply Forall_firstn_of. apply sortBy_Forall.
      rewrite Forall_forall. intros s Hs'. unfold kept in Hs'.
      apply filter_In in Hs'. destruct Hs' as [_ Hs']. simpl.
      split; [exact Hs' | apply ltb_not_leb; exact Hs'].
Qed.

(** C4. With an empty query or an empty chunk list, [retrieveContext]
    returns the empty sequence; it throws nothing and the log of embedding
    calls is left as it was: no call is made. *)
Theorem retrieveContext_empty (q : jsstring) (cs : list TextChunk)
        (settings : AppSettings) (docs : list Document) (log : Log) :
  q = [] \/ cs = [] ->
  retrieveContext q cs settings docs log = (Returned [], log).
Proof.
  intros [-> | ->]; unfold retrieveContext; simpl.
  - reflexivity.
  - rewrite orb_true_r. reflexivity.
Qed.

(** ** Chunker *)

Lemma chunkLoop_more_fuel (words : list jsstring) (size overlap : Z) :
  forall fuel i acc r,
    chunkLoop fuel words size overlap i acc = Some r ->
    forall fuel', (fuel <= fuel')%nat ->
    chunkLoop fuel' words size overlap i acc = Some r.
Proof.
  induction fuel as [|fuel IH]; intros i acc r H fuel' Hle; [discriminate|].
  destruct fuel' as [|fuel']; [lia|]. simpl in *.
  destruct (i <? Z.of_nat (List.length words)); [|exact H].
  destruct (Z.of_nat (List.length words) <=? i + size); [exact H|].
  apply IH with (fuel' := fuel') in H; [exact H | lia].
Qed.

(** Each step moves the window by [size - overlap] words, so a scan that
    starts at [i] ends within [(length words - i) / (size - overlap)] steps,
    and one more visit of the loop test. *)
Lemma chunkLoop_terminates (words : list jsstring) (size overlap : Z) :
  overlap < size ->
  forall fuel i acc,
    (1 <= fuel)%nat ->
    Z.of_nat (List.length words) - i <= (Z.of_nat fuel - 1) * (size - overlap) ->
    exists r, chunkLoop fuel words size overlap i acc = Some r.
Proof.
  intros Hso. induction fuel as [|fuel IH]; intros i acc H1 H2; [lia|].
  simpl. destruct (Z.ltb_spec i (Z.of_nat (List.length words))) as [Hi|Hi].
  - destruct (Z.of_nat (List.length words) <=? i + size); [eauto|].
    apply IH; nia.
  - eauto.
Qed.

(** When the step is not positive, a scan that did not stop at its first
    window never stops. *)
Lemma chunkLoop_diverges (words : list jsstring) (size overlap : Z) :
  size <= overlap ->
  forall fuel i acc,
    i <= 0 -> 0 < Z.of_nat (List.length words) ->
    i + size < Z.of_nat (List.length words) ->
    chunkLoop fuel words size overlap i acc = None.
Proof.
  intros Hso. induction fuel as [|fuel IH]; intros i acc H1 H2 H3; [reflexivity|].
  simpl. destruct (Z.ltb_spec i (Z.of_nat (List.length words))); [|lia].
  destruct (Z.leb_spec (Z.of_nat (List.length words)) (i + size)); [lia|].
  apply IH; lia.
Qed.

Lemma splitWhiteSpace_nonempty (s : jsstring) : forall inRun cur,
  (0 < List.length (splitWhiteSpace inRun cur s))%nat.
Proof.
  induction s as [|c s IH]; intros inRun cur; simpl; [lia|].
  destruct (isWhiteSpace c); [destruct inRun|]; simpl; auto; lia.
Qed.

(** The fuel given to [chunkText] loses nothing: when it runs out, the
    scan runs out of any fuel. *)
Lemma chunkText_fuel_exact (text : jsstring) (size overlap : Z) :
  chunkText text size overlap = None ->
  forall fuel, chunkTextFuel fuel text size overlap = None.
Proof.
  intros H fuel.
  destruct (Z.lt_ge_cases overlap size) as [L|L].
  - unfold chunkText, chunkTextFuel in H.
    set (words := splitWhiteSpace false [] text) in *.
    destruct (chunkLoop_terminates words size overlap L (S (List.length words)) 0 [])
      as [r Hr]; [lia | nia | congruence].
  - unfold chunkText, chunkTextFuel in *.
    set (words := splitWhiteSpace false [] text) in *.
    pose proof (splitWhiteSpace_nonempty text false []) as Hne. fold words in Hne.
    cbn [chunkLoop] in H.
    destruct (Z.ltb_spec 0 (Z.of_nat (List.length words))); [|lia].
    destruct (Z.leb_spec (Z.of_nat (List.length words)) (0 + size));
      [destruct (5 <? _) in H; discriminate|].
    apply chunkLoop_diverges; lia.
Qed.

(** C8. When [size > overlap], [chunkText] terminates: the scan returns
    its chunks, and it does so within one step per [size - overlap] words
    of the text (plus the last visit of the loop test). *)
Theorem chunkText_terminates (text : jsstring) (size overlap : Z) :
  overlap < size ->
  exists chunks,
    chunkText text size overlap = Some chunks /\
    forall fuel,
      Z.of_nat (List.length (splitWhiteSpace false [] text))
        <= (Z.of_nat fuel - 1) * (size - overlap) ->
      chunkTextFuel fuel text size overlap = Some chunks.
Proof.
  intros Hso. unfold chunkText, chunkTextFuel.
  set (words := splitWhiteSpace false [] text).
  pose proof (splitWhiteSpace_nonempty text false []) as Hne. fold words in Hne.
  destruct (chunkLoop_terminates words size overlap Hso (S (List.length words)) 0 [])
    as [r Hr]; [lia | nia |].
  exists r. split; [exact Hr|].
  intros fuel Hf.
  destruct (chunkLoop_terminates words size overlap Hso fuel 0 []) as [r' Hr'];
    [nia | lia |].
  destruct (Nat.le_ge_cases fuel (S (List.length words))) as [L|L].
  - pose proof (chunkLoop_more_fuel _ _ _ _ _ _ _ Hr' _ L). congruence.
  - pose proof (chunkLoop_more_fuel _ _ _ _ _ _ _ Hr _ L). congruence.
Qed.

(** C2, as the code has it. On ["a b c d e f"] with [size = 4] and
    [overlap = 1] the chunker returns the single chunk ["a b c d"]: the
    second window, ["d e f"], is five characters long and is discarded. *)
Theorem chunkText_example :
  chunkText (utf16 "a b c d e f") 4 1 = Some [utf16 "a b c d"].
Proof. vm_compute. reflexivity. Qed.

(** ** Tokenizer *)

(** C7. A token made of zeros only passes the filter [!Number(t)], as
    [Number] maps it to [0]: from ["1,000"] the tokenizer returns the purely
    numeric token ["000"]. *)
Theorem tokenize_keeps_zeros :
  toLowerCase (utf16 "1,000") = utf16 "1,000" ->
  tokenize (utf16 "1,000") = [utf16 "000"].
Proof.
  intros H. unfold tokenize.
  change (utf16 "1,000") with [49; 44; 48; 48; 48] in *.
  rewrite H. vm_compute. reflexivity.
Qed.

(** ** Entity extractor *)

Lemma jseqb_eq (a b : jsstring) : jseqb a b = true <-> a = b.
Proof.
  revert b. induction a as [|x a IH]; intros [|y b]; simpl; split; intros H;
    try reflexivity; try discriminate.
  - apply andb_prop in H. destruct H as [H1 H2].
    apply Z.eqb_eq in H1. apply IH in H2. congruence.
  - injection H as -> ->. rewrite Z.eqb_refl. apply IH. reflexivity.
Qed.

Lemma jseqb_refl (a : jsstring) : jseqb a a = true.
Proof. apply jseqb_eq. reflexivity. Qed.

Lemma jseqb_neq (a b : jsstring) : a <> b -> jseqb a b = false.
Proof.
  intros H. destruct (jseqb a b) eqn:E; [|reflexivity].
  apply jseqb_eq in E. contradiction.
Qed.

Lemma occurrences_snoc (u t : jsstring) (l : list jsstring) :
  occurrences u (l ++ [t]) = occurrences u l + (if jseqb t u then 1 else 0).
Proof. induction l as [|x l IH]; simpl; [|rewrite IH]; lia. Qed.

Lemma occurrences_absent (u : jsstring) (l : list jsstring) :
  ~ In u l -> occurrences u l = 0.
Proof.
  induction l as [|x l IH]; simpl; intros H; [reflexivity|].
  rewrite jseqb_neq by tauto. rewrite IH by tauto. reflexivity.
Qed.

Lemma firstIndex_snoc_in (u t : jsstring) (l : list jsstring) :
  In u l -> firstIndex u (l ++ [t]) = firstIndex u l.
Proof.
  induction l as [|x l IH]; simpl; intros H; [contradiction|].
  destruct (jseqb x u) eqn:E; [reflexivity|].
  destruct H as [H|H]; [subst; rewrite jseqb_refl in E; discriminate|].
  rewrite IH by assumption. reflexivity.
Qed.

Lemma firstIndex_snoc_fresh (t : jsstring) (l : list jsstring) :
  ~ In t l -> firstIndex t (l ++ [t]) = List.length l.
Proof.
  induction l as [|x l IH]; simpl; intros H.
  - rewrite jseqb_refl. reflexivity.
  - rewrite jseqb_neq by tauto. rewrite IH by tauto. reflexivity.
Qed.

Lemma firstIndex_lt (u : jsstring) (l : list jsstring) :
  In u l -> (firstIndex u l < List.length l)%nat.
Proof.
  induction l as [|x l IH]; simpl; intros H; [contradiction|].
  destruct (jseqb x u) eqn:E; [lia|].
  destruct H as [H|H]; [subst; rewrite jseqb_refl in E; discriminate|].
  specialize (IH H). lia.
Qed.

Lemma freqGet_absent (freq : list (jsstring * Z)) (t : jsstring) :
  ~ In t (map fst freq) -> freqGet freq t = None.
Proof.
  unfold freqGet. induction freq as [|[k w] r IH]; simpl; intros H; [reflexivity|].
  rewrite jseqb_neq by tauto. apply IH. tauto.
Qed.

Lemma freqSet_absent (freq : list (jsstring * Z)) (t : jsstring) (v : Z) :
  ~ In t (map fst freq) -> freqSet freq t v = freq ++ [(t, v)].
Proof.
  induction freq as [|[k w] r IH]; simpl; intros H; [reflexivity|].
  rewrite jseqb_neq by tauto. rewrite IH by tauto. reflexivity.
Qed.

Lemma freq_present (freq : list (jsstring * Z)) (t : jsstring) :
  In t (map fst freq) ->
  exists f1 w f2,
    freq = f1 ++ (t, w) :: f2 /\
    freqGet freq t = Some w /\
    forall v, freqSet freq t v = f1 ++ (t, v) :: f2.
Proof.
  unfold freqGet. induction freq as [|[k w] r IH]; simpl; intros H; [contradiction|].
  destruct (jseqb k t) eqn:E.
  - apply jseqb_eq in E. subst k. exists [], w, r. simpl. auto.
  - destruct H as [H|H]; [subst; rewrite jseqb_refl in E; discriminate|].
    destruct (IH H) as (f1 & w' & f2 & -> & Hg & Hs).
    exists ((k, w) :: f1), w', f2. simpl. repeat split; auto.
    intros v. rewrite Hs. reflexivity.
Qed.

Lemma StronglySorted_snoc {A} (R : A -> A -> Prop) (l : list A) (x : A) :
  StronglySorted R l -> Forall (fun a => R a x) l -> StronglySorted R (l ++ [x]).
Proof.
  induction 1 as [|y l Hs IH Hy]; intros H; simpl.
  - repeat constructor.
  - inversion H; subst. constructor; [apply IH; assumption|].
    apply Forall_app. split; [assumption|]. repeat constructor. assumption.
Qed.

Lemma StronglySorted_weaken {A} (R R' : A -> A -> Prop) (l : list A) :
  (forall a b, In a l -> In b l -> R a b -> R' a b) ->
  StronglySorted R l -> StronglySorted R' l.
Proof.
  intros H Hs. induction Hs as [|x l Hs IH Hx].
  - constructor.
  - constructor.
    + apply IH. intros a b Ha Hb. apply H; right; assumption.
    + rewrite Forall_forall in *. intros z Hz.
      apply H; [left; reflexivity | right; assumption | apply Hx; assumption].
Qed.

Lemma countToken_counted (l : list jsstring) (freq : list (jsstring * Z))
      (t : jsstring) :
  counted l freq -> counted (l ++ [t]) (countToken freq t).
Proof.
  intros [HK HN HC HO]. unfold countToken.
  assert (Hif : forall f : Z, (if f =? 0 then 0 else f) = f).
  { intros f. destruct (Z.eqb_spec f 0); lia. }
  destruct (in_dec (list_eq_dec Z.eq_dec) t (map fst freq)) as [Hin|Hout].
  - destruct (freq_present freq t Hin) as (f1 & w & f2 & E & Hg & Hs).
    rewrite Hg, Hs, Hif. subst freq.
    assert (Ek : map fst (f1 ++ (t, w + 1) :: f2) = map fst (f1 ++ (t, w) :: f2)).
    { rewrite !map_app. reflexivity. }
    assert (Ht : In t l) by (apply HK; exact Hin).
    constructor.
    + intros u. rewrite Ek, HK, in_app_iff. simpl. intuition (subst; auto).
    + rewrite Ek. exact HN.
    + intros e He. rewrite occurrences_snoc.
      rewrite map_app in HN. simpl in HN.
      apply in_app_or in He. destruct He as [He|[He|He]].
      * assert (fst e <> t).
        { intros <-. apply NoDup_remove_2 in HN. apply HN, in_or_app. left.
          apply in_map. exact He. }
        rewrite jseqb_neq by congruence.
        rewrite <- HC by (apply in_or_app; left; exact He). lia.
      * subst e. simpl. rewrite jseqb_refl.
        specialize (HC (t, w)). simpl in HC. rewrite <- HC; [reflexivity|].
        apply in_or_app. right. left. reflexivity.
      * assert (fst e <> t).
        { intros <-. apply NoDup_remove_2 in HN. apply HN, in_or_app. right.
          apply in_map. exact He. }
        rewrite jseqb_neq by congruence.
        rewrite <- HC by (apply in_or_app; right; right; exact He). lia.
    + rewrite Ek. apply StronglySorted_weaken with (2 := HO).
      intros a b Ha Hb. apply HK in Ha, Hb.
      rewrite !firstIndex_snoc_in by assumption. trivial.
  - rewrite (freqGet_absent _ _ Hout), (freqSet_absent _ _ _ Hout).
    assert (Ht : ~ In t l) by (rewrite <- HK; exact Hout).
    constructor.
    + intros u. rewrite map_app, !in_app_iff, HK. simpl. tauto.
    + rewrite map_app. simpl. apply NoDup_app; [exact HN | repeat constructor; auto |].
      intros a Ha [<-|[]]. contradiction.
    + intros e He. rewrite occurrences_snoc.
      apply in_app_or in He. destruct He as [He|[<-|[]]].
      * assert (fst e <> t).
        { intros <-. apply Hout. apply in_map. exact He. }
        rewrite jseqb_neq by congruence. rewrite <- HC by exact He. lia.
      * simpl. rewrite jseqb_refl, occurrences_absent by exact Ht. reflexivity.
    + rewrite map_app. simpl. apply StronglySorted_snoc.
      * apply StronglySorted_weaken with (2 := HO).
        intros a b Ha Hb. apply HK in Ha, Hb.
        rewrite !firstIndex_snoc_in by assumption. trivial.
      * rewrite Forall_forall. intros a Ha. apply HK in Ha.
        rewrite firstIndex_snoc_in by assumption.
        rewrite firstIndex_snoc_fresh by assumption.
        apply firstIndex_lt. exact Ha.
Qed.

Lemma countTokens_counted (tokens : list jsstring) :
  counted tokens (fold_left countToken tokens []).
Proof.
  induction tokens as [|t l IH] using rev_ind.
  - constructor; simpl; try tauto; constructor.
  - rewrite fold_left_app. simpl. apply countToken_counted. exact IH.
Qed.

Lemma byFrequency_key (a b : jsstring * Z) : byFrequency a b = (snd a <? snd b).
Proof.
  unfold byFrequency.
  destruct (Z.ltb_spec 0 (snd b - snd a)), (Z.ltb_spec (snd a) (snd b)); lia.
Qed.

Lemma StronglySorted_filter {A} (R : A -> A -> Prop) (p : A -> bool) (l : list A) :
  StronglySorted R l -> StronglySorted R (filter p l).
Proof.
  induction 1 as [|x l Hs IH Hx]; simpl; [constructor|].
  destruct (p x); [|exact IH]. constructor; [exact IH|].
  rewrite Forall_forall in *. intros z Hz. apply Hx.
  apply filter_In in Hz. tauto.
Qed.

Lemma StronglySorted_map_fst {A B} (R : A -> A -> Prop) (l : list (A * B)) :
  StronglySorted R (map fst l) <->
  StronglySorted (fun a b => R (fst a) (fst b)) l.
Proof.
  induction l as [|x l IH]; simpl; split; intros H; try constructor;
    inversion H; subst; try (apply IH; assumption).
  - rewrite Forall_map in H3. exact H3.
  - rewrite Forall_map. exact H3.
Qed.

Lemma NoDup_firstn_of {A} (n : nat) (l : list A) : NoDup l -> NoDup (firstn n l).
Proof.
  intros H. rewrite <- (firstn_skipn n l) in H.
  apply NoDup_app_remove_r in H. exact H.
Qed.

Lemma filter_keys_NoDup (keep : jsstring * Z -> bool) (freq : list (jsstring * Z)) :
  NoDup (map fst freq) -> NoDup (map fst (filter keep freq)).
Proof.
  intros H. induction freq as [|e freq IH]; simpl; [constructor|].
  inversion H as [|? ? Hout Hrest]; subst.
  destruct (keep e); simpl; [|auto].
  constructor; [|auto]. intros Hin. apply Hout.
  apply in_map_iff in Hin. destruct Hin as (y & Hy & Hin).
  apply filter_In in Hin. apply in_map_iff. exists y. tauto.
Qed.

(** C10. [extractEntities] returns at most five tokens, pairwise distinct,
    all of them tokens of the text; a token never comes after a less
    frequent one, and of two tokens with the same frequency the one that
    occurs first in the tokenized text comes first. *)
Theorem extractEntities_ranking (text : jsstring) :
  let tokens := tokenize text in
  let entities := extractEntities text in
  (List.length entities <= 5)%nat /\
  NoDup entities /\
  (forall t, In t entities -> In t tokens) /\
  StronglySorted
    (fun a b =>
       occurrences b tokens <= occurrences a tokens /\
       (occurrences a tokens = occurrences b tokens ->
        (firstIndex a tokens < firstIndex b tokens)%nat))
    entities.
Proof.
  intros tokens entities. unfold entities, extractEntities. fold tokens.
  destruct (countTokens_counted tokens) as [HK HN HC HO].
  set (freq := fold_left countToken tokens []) in *.
  set (kept := filter (fun e => 0 <? snd e) freq).
  destruct (slice_from_start (sortBy byFrequency kept) 5) as (n & -> & Hn).
  assert (Hsub : forall e, In e (firstn n (sortBy byFrequency kept)) -> In e freq).
  { intros e He.
    assert (In e (sortBy byFrequency kept)).
    { rewrite <- (firstn_skipn n). apply in_or_app. left. exact He. }
    apply (Permutation_in _ (Permutation_sym (sortBy_perm byFrequency kept))) in H.
    unfold kept in H. apply filter_In in H. tauto. }
  split; [|split; [|split]].
  - rewrite length_map, length_firstn. specialize (Hn ltac:(lia)). lia.
  - rewrite <- firstn_map. apply NoDup_firstn_of.
    apply Permutation_NoDup with (map fst kept).
    + apply Permutation_map. apply sortBy_perm.
    + apply filter_keys_NoDup. exact HN.
  - intros t Ht. apply in_map_iff in Ht. destruct Ht as (e & <- & He).
    apply HK. apply in_map. apply Hsub. exact He.
  - apply StronglySorted_map_fst.
    apply StronglySorted_weaken with
      (R := fun a b => snd b < snd a \/
                       (snd a = snd b /\
                        (firstIndex (fst a) tokens < firstIndex (fst b) tokens)%nat)).
    + intros a b Ha Hb H. apply Hsub in Ha, Hb.
      rewrite <- !HC by assumption. lia.
    + apply StronglySorted_firstn.
      apply (sortBy_stable byFrequency snd
               (fun a b => (firstIndex (fst a) tokens < firstIndex (fst b) tokens)%nat)
               byFrequency_key).
      apply StronglySorted_filter.
      apply (StronglySorted_map_fst
               (fun a b => (firstIndex a tokens < firstIndex b tokens)%nat)).
      exact HO.
Qed.

(** ** Graph builder *)

Lemma find_node_none (id : jsstring) (ns : list GraphNode) :
  find (fun n => jseqb (node_id n) id) ns = None -> ~ In id (map node_id ns).
Proof.
  induction ns as [|n ns IH]; simpl; intros H; [tauto|].
  destruct (jseqb (node_id n) id) eqn:E; [discriminate|].
  intros [Hn|Hn]; [subst; rewrite jseqb_refl in E; discriminate | exact (IH H Hn)].
Qed.

Lemma find_node_some (id : jsstring) (ns : list GraphNode) (n : GraphNode) :
  find (fun n => jseqb (node_id n) id) ns = Some n -> In id (map node_id ns).
Proof.
  intros H. apply find_some in H. destruct H as [Hin E].
  apply jseqb_eq in E. subst id. apply in_map. exact Hin.
Qed.

Lemma docNodes_ids (docs : list Document) : forall ns,
  map node_id (fold_left (fun ns d => ns ++ [docNode d]) docs ns)
  = map node_id ns ++ map doc_id docs.
Proof.
  induction docs as [|d docs IH]; intros ns; simpl.
  - rewrite app_nil_r. reflexivity.
  - rewrite IH, map_app, <- app_assoc. reflexivity.
Qed.

Section GraphInvariant.
Variables (docs : list Document) (cs : list TextChunk).

Lemma addEntity_inv (c : TextChunk) (done : list TextChunk)
      (g : list GraphNode * list GraphLink) (ent : jsstring) :
  In c cs -> In ent (extractEntities (text c)) ->
  In (chunk_id c) (map node_id (fst g)) ->
  graphInv docs cs done g ->
  graphInv docs cs done (addEntity c g ent) /\
  In (chunk_id c) (map node_id (fst (addEntity c g ent))).
Proof.
  intros Hc He Hid (HN & HI & HD & HL). unfold addEntity, graphInv.
  destruct (find _ (fst g)) as [n|] eqn:F; simpl.
  - apply find_node_some in F.
    repeat split; auto.
    + apply in_app_or in H. destruct H as [H|[<-|[]]]; [apply HL; exact H | exact Hid].
    + apply in_app_or in H. destruct H as [H|[<-|[]]]; [apply HL; exact H | exact F].
  - apply find_node_none in F.
    rewrite map_app. simpl.
    repeat split.
    + apply NoDup_app; [exact HN | repeat constructor; auto |].
      intros a Ha [<-|[]]. contradiction.
    + intros id Hin. apply in_app_or in Hin. destruct Hin as [Hin|[<-|[]]]; [auto|].
      right. right. exists c, ent. auto.
    + intros id Hin. apply in_or_app. left. auto.
    + apply in_app_or in H. apply in_or_app.
      destruct H as [H|[<-|[]]]; [left; apply HL; exact H | left; exact Hid].
    + apply in_app_or in H. apply in_or_app.
      destruct H as [H|[<-|[]]]; [left; apply HL; exact H | right; left; reflexivity].
    + apply in_or_app. left. exact Hid.
Qed.

Lemma addEntities_inv (c : TextChunk) (done : list TextChunk) (ents : list jsstring) :
  In c cs -> (forall e, In e ents -> In e (extractEntities (text c))) ->
  forall g,
    In (chunk_id c) (map node_id (fst g)) ->
    graphInv docs cs done g ->
    graphInv docs cs done (fold_left (addEntity c) ents g).
Proof.
  intros Hc. induction ents as [|e ents IH]; intros Hs g Hid Hg; simpl; [exact Hg|].
  destruct (addEntity_inv c done g e Hc (Hs e (or_introl eq_refl)) Hid Hg) as [Hg' Hid'].
  apply IH; auto. intros e' He'. apply Hs. right. exact He'.
Qed.

Hypothesis distinct_ids : NoDup (map doc_id docs ++ map chunk_id cs).
Hypothesis chunk_not_entity :
  forall c c' e, In c cs -> In c' cs -> In e (extractEntities (text c')) ->
                 chunk_id c <> utf16 "ent_" ++ e.
Hypothesis owner_listed : forall c, In c cs -> In (docId c) (map doc_id docs).

Lemma addChunk_inv (done rest : list TextChunk) (c : TextChunk)
      (g : list GraphNode * list GraphLink) :
  cs = done ++ c :: rest ->
  graphInv docs cs done g -> graphInv docs cs (done ++ [c]) (addChunk g c).
Proof.
  intros Ecs (HN & HI & HD & HL). unfold addChunk.
  assert (Hc : In c cs) by (rewrite Ecs; apply in_or_app; right; left; reflexivity).
  assert (Hfresh : ~ In (chunk_id c) (map node_id (fst g))).
  { intros Hin. destruct (HI _ Hin) as [H|[H|(c' & e & Hc' & He & H)]].
    - rewrite Ecs, map_app in distinct_ids. simpl in distinct_ids.
      rewrite app_assoc in distinct_ids.
      apply NoDup_remove_2 in distinct_ids. apply distinct_ids.
      apply in_or_app. left. apply in_or_app. left. exact H.
    - rewrite Ecs, map_app in distinct_ids. simpl in distinct_ids.
      rewrite app_assoc in distinct_ids.
      apply NoDup_remove_2 in distinct_ids. apply distinct_ids.
      apply in_or_app. left. apply in_or_app. right. exact H.
    - exact (chunk_not_entity c c' e Hc Hc' He H). }
  apply addEntities_inv; [exact Hc | auto | |].
  - simpl. rewrite map_app. apply in_or_app. right. left. reflexivity.
  - unfold graphInv. simpl. rewrite !map_app. simpl. repeat split.
    + apply NoDup_app; [exact HN | repeat constructor; auto |].
      intros a Ha [<-|[]]. contradiction.
    + intros id Hin. apply in_app_or in Hin. destruct Hin as [Hin|[<-|[]]].
      * destruct (HI _ Hin) as [H|[H|H]]; auto.
        right. left. apply in_or_app. left. exact H.
      * right. left. apply in_or_app. right. left. reflexivity.
    + intros id Hin. apply in_or_app. left. auto.
    + apply in_app_or in H. apply in_or_app.
      destruct H as [H|[<-|[]]]; [left; apply HL; exact H | left; simpl].
      apply HD. apply owner_listed. exact Hc.
    + apply in_app_or in H. apply in_or_app.
      destruct H as [H|[<-|[]]]; [left; apply HL; exact H | right; left; reflexivity].
Qed.

Lemma addChunks_inv (rest : list TextChunk) : forall done g,
  cs = done ++ rest ->
  graphInv docs cs done g -> graphInv docs cs cs (fold_left addChunk rest g).
Proof.
  induction rest as [|c rest IH]; intros done g Ecs Hg; simpl.
  - rewrite app_nil_r in Ecs. subst done. exact Hg.
  - apply IH with (done := done ++ [c]).
    + rewrite <- app_assoc. exact Ecs.
    + apply addChunk_inv with (rest := rest); assumption.
Qed.

Lemma rebuildGraph_inv :
  graphInv docs cs cs
    (fold_left addChunk cs (fold_left (fun ns d => ns ++ [docNode d]) docs [], [])).
Proof.
  apply addChunks_inv with (done := []); [reflexivity|].
  unfold graphInv. simpl. rewrite docNodes_ids. simpl. repeat split; auto.
  - apply NoDup_app_remove_r in distinct_ids. exact distinct_ids.
  - contradiction.
  - contradiction.
Qed.
End GraphInvariant.

(** C6, as the code has it. When the ids of the documents and of the chunks
    are pairwise distinct all together, no chunk id is the id [ent_<term>]
    of an entity extracted from a chunk, and every chunk belongs to a listed
    document, the graph of [rebuildGraphFromChunks] has no two nodes with
    the same id and each of its links joins two of its nodes. *)
Theorem rebuildGraphFromChunks_well_formed (docs : list Document)
        (cs : list TextChunk) :
  NoDup (map doc_id docs ++ map chunk_id cs) ->
  (forall c c' e, In c cs -> In c' cs -> In e (extractEntities (text c')) ->
                  chunk_id c <> utf16 "ent_" ++ e) ->
  (forall c, In c cs -> In (docId c) (map doc_id docs)) ->
  wellFormedGraph (rebuildGraphFromChunks docs cs).
Proof.
  intros H1 H2 H3.
  destruct (rebuildGraph_inv docs cs H1 H2 H3) as (HN & _ & _ & HL).
  unfold wellFormedGraph, rebuildGraphFromChunks, nodeIds. simpl.
  split; [exact HN | exact HL].
Qed.

(** ** Indexer *)

Lemma returned_not_failed (c : Call) : returned c -> ~ failed c.
Proof. intros [v Hv] [e He]. congruence. Qed.

Lemma embedChunks_shape (d : Document) (settings : AppSettings)
      (textChunks : list jsstring) :
  forall idx acc log r log',
    embedChunks d settings textChunks idx acc log = (r, log') ->
    exists new, log' = log ++ new /\ runShape r new.
Proof.
  induction textChunks as [|t rest IH]; intros idx acc log r log'; simpl.
  - unfold ret. intros H. injection H as <- <-.
    exists []. rewrite app_nil_r. split; [reflexivity | constructor].
  - unfold bind, fetchEmbedding.
    destruct (fetchEmbeddingOutcome (List.length log) t settings) as [v|e|] eqn:O.
    + intros H. apply IH in H. destruct H as (new & -> & Hs).
      exists ({| call_text := t; call_outcome := Returned v |} :: new).
      rewrite <- app_assoc. split; [reflexivity|].
      assert (Hc : returned {| call_text := t; call_outcome := Returned v |})
        by (exists v; reflexivity).
      destruct r as [cs|e|]; simpl in *.
      * constructor; assumption.
      * destruct Hs as (done & t' & -> & Hd).
        exists ({| call_text := t; call_outcome := Returned v |} :: done), t'.
        split; [reflexivity | constructor; assumption].
      * constructor; [apply returned_not_failed|]; assumption.
    + intros H. injection H as <- <-.
      exists [{| call_text := t; call_outcome := Thrown e |}].
      split; [reflexivity|]. exists [], t. split; [reflexivity | constructor].
    + intros H. injection H as <- <-.
      exists [{| call_text := t; call_outcome := Diverged |}].
      split; [reflexivity|]. repeat constructor. intros [e He]. discriminate.
Qed.

Lemma processDocument_shape (d : Document) (settings : AppSettings)
      (log log' : Log) (r : outcome (list TextChunk)) :
  processDocument d settings log = (r, log') ->
  exists new, log' = log ++ new /\ runShape r new.
Proof.
  unfold processDocument, bind at 1, fetchEmbedding.
  set (t := utf16 "test").
  destruct (fetchEmbeddingOutcome (List.length log) t settings) as [v|e|] eqn:O.
  - unfold bind, terminating.
    destruct (chunkText _ _ _) as [textChunks|].
    + intros H. apply embedChunks_shape in H. destruct H as (new & -> & Hs).
      exists ({| call_text := t; call_outcome := Returned v |} :: new).
      rewrite <- app_assoc. split; [reflexivity|].
      assert (Hc : returned {| call_text := t; call_outcome := Returned v |})
        by (exists v; reflexivity).
      destruct r as [cs|e|]; simpl in *.
      * constructor; assumption.
      * destruct Hs as (done & t' & -> & Hd).
        exists ({| call_text := t; call_outcome := Returned v |} :: done), t'.
        split; [reflexivity | constructor; assumption].
      * constructor; [apply returned_not_failed|]; assumption.
    + intros H. injection H as <- <-.
      exists [{| call_text := t; call_outcome := Returned v |}].
      split; [reflexivity|]. repeat constructor.
      apply returned_not_failed. exists v. reflexivity.
  - intros H. injection H as <- <-.
    exists [{| call_text := t; call_outcome := Thrown e |}].
    split; [reflexivity|]. exists [], t. split; [reflexivity | constructor].
  - intros H. injection H as <- <-.
    exists [{| call_text := t; call_outcome := Diverged |}].
    split; [reflexivity|]. repeat constructor. intros [e He]. discriminate.
Qed.

Lemma skipn_length_app {A} (l new : list A) : skipn (List.length l) (l ++ new) = new.
Proof. induction l as [|x l IH]; simpl; auto. Qed.

Lemma replaceDoc_status (d : Document) (docs : list Document) (x : Document) :
  In x (replaceDoc d docs) -> doc_id x = doc_id d -> x = d.
Proof.
  unfold replaceDoc. intros Hin Hid. apply in_map_iff in Hin.
  destruct Hin as (y & Hy & _).
  destruct (jseqb (doc_id y) (doc_id d)) eqn:E; [congruence|].
  subst y. rewrite Hid, jseqb_refl in E. discriminate.
Qed.

(** C3. If an embedding call made by [processDocument] fails, be it the
    probe or the call for a chunk, then [processDocument] throws that error:
    it returns no chunk list, and the failing call is the last one it
    makes. [handleAddDocument] then ends with the new document marked
    [error], and with the chunks in memory and the two stores as they
    were. *)
Theorem embedding_failure_aborts_indexing (d : Document)
        (config : AppSettings) (log log' : Log) (r : outcome (list TextChunk)) :
  processDocument d config log = (r, log') ->
  (exists c, In c (skipn (List.length log) log') /\ failed c) ->
  (exists e t,
     r = Thrown e /\
     last log' {| call_text := []; call_outcome := Diverged |}
     = {| call_text := t; call_outcome := Thrown e |}) /\
  forall (st : AppState) (input : AddInput) (uuid : jsstring) (now : Z)
         (p : jsstring * jsstring),
    settings st = config -> readInput input = inr p ->
    newDocument p uuid now = d ->
    exists st',
      handleAddDocument st input uuid now log = (Returned st', log') /\
      In (withStatus d error) (documents st') /\
      (forall x, In x (documents st') -> doc_id x = doc_id d ->
                 status x = Some error) /\
      chunks st' = chunks st /\
      db_documents st' = db_documents st /\
      db_chunks st' = db_chunks st.
Proof.
  intros Hrun (c & Hc & Hf).
  destruct (processDocument_shape _ _ _ _ _ Hrun) as (new & -> & Hs).
  rewrite skipn_length_app in Hc.
  destruct r as [cs|e|]; simpl in Hs.
  - rewrite Forall_forall in Hs. destruct (returned_not_failed c (Hs c Hc) Hf).
  - destruct Hs as (done & t & -> & Hd). split.
    + exists e, t. split; [reflexivity|].
      rewrite app_assoc. apply last_last.
    + intros st input uuid now p Hset Hin Hd'.
      unfold handleAddDocument. rewrite Hin, Hd', Hset, Hrun.
      eexists. split; [reflexivity|]. simpl. repeat split.
      * unfold replaceDoc. rewrite map_app. apply in_or_app. right. simpl.
        rewrite jseqb_refl. left. reflexivity.
      * intros x Hx Hid. apply replaceDoc_status in Hx; [subst x; reflexivity|].
        exact Hid.
  - rewrite Forall_forall in Hs. destruct (Hs c Hc Hf).
Qed.


(** Propositional reasoning that leaves the two host functions alone. *)
Ltac prop := try clear toLowerCase; try clear embeddingEndpoint; tauto.

(** ** More on the tokenizer *)

Lemma splitOn_pieces (P : Z -> Prop) (sep : Z) (s : jsstring) : forall cur,
  Forall P cur -> Forall (fun c => c = sep \/ P c) s ->
  Forall (Forall P) (splitOn sep cur s).
Proof.
  induction s as [|c s IH]; intros cur Hcur Hs; simpl.
  - repeat constructor. exact Hcur.
  - inversion Hs as [|? ? Hc Hs']; subst.
    destruct (Z.eqb_spec c sep) as [E|E].
    + constructor; [exact Hcur|]. apply IH; [constructor | exact Hs'].
    + apply IH; [|exact Hs'].
      apply Forall_app. split; [exact Hcur|]. repeat constructor. prop.
Qed.

Lemma collapseWhiteSpace_chars (P : Z -> Prop) (s : jsstring) : forall inRun,
  Forall P s ->
  Forall (fun c => c = SPACE \/ (isWhiteSpace c = false /\ P c))
         (collapseWhiteSpace inRun s).
Proof.
  induction s as [|c s IH]; intros inRun H; simpl; [constructor|].
  inversion H; subst.
  destruct (isWhiteSpace c) eqn:E.
  - destruct inRun; [apply IH; assumption|].
    constructor; [left; reflexivity | apply IH; assumption].
  - constructor; [right; split; assumption | apply IH; assumption].
Qed.

Lemma replaceEach_chars (P : Z -> Prop) (class : Z -> bool) (s : jsstring) :
  class SPACE = false -> P SPACE -> Forall P s ->
  Forall (fun c => class c = false /\ P c) (replaceEach class s).
Proof.
  intros Hc Hsp H. unfold replaceEach. rewrite Forall_map.
  rewrite Forall_forall in *. intros c Hin.
  destruct (class c) eqn:E; auto.
Qed.

Lemma tokenize_chars (text t : jsstring) :
  In t (tokenize text) ->
  Forall (fun c => isWhiteSpace c = false /\ isPunctuation c = false /\
                   isZeroWidth c = false) t.
Proof.
  unfold tokenize. destruct text as [|c0 text0]; [contradiction|].
  set (text := c0 :: text0).
  intros H. apply filter_In in H. destruct H as [H _].
  apply filter_In in H. destruct H as [H _].
  apply filter_In in H. destruct H as [H _].
  assert (H1 : Forall (fun c => isPunctuation c = false /\ True)
                      (replaceEach isPunctuation (toLowerCase text))).
  { apply replaceEach_chars; [reflexivity | trivial |].
    rewrite Forall_forall. trivial. }
  assert (H2 : Forall (fun c => isZeroWidth c = false /\
                               (isPunctuation c = false /\ True))
                      (replaceEach isZeroWidth
                         (replaceEach isPunctuation (toLowerCase text)))).
  { apply replaceEach_chars; [reflexivity | split; [reflexivity | trivial] | exact H1]. }
  pose proof (collapseWhiteSpace_chars _ _ false H2) as H3.
  assert (H4 : Forall (Forall (fun c => isWhiteSpace c = false /\
                                        isPunctuation c = false /\
                                        isZeroWidth c = false))
                 (splitOn SPACE []
                    (collapseWhiteSpace false
                       (replaceEach isZeroWidth
                          (replaceEach isPunctuation (toLowerCase text)))))).
  { apply splitOn_pieces; [constructor|].
    eapply Forall_impl; [|exact H3]. simpl. intros c [Hc|Hc]; [left; exact Hc|].
    right. prop. }
  rewrite Forall_forall in H4. apply H4. exact H.
Qed.

(** X1. Every token returned by [tokenize] is longer than two code units,
    is not a stop word, and contains no white space, none of the
    punctuation marks of the tokenizer and no zero-width mark, whatever
    the text. *)
Theorem tokenize_token_shape (text t : jsstring) :
  In t (tokenize text) ->
  2 < jslength t /\
  has PERSIAN_STOP_WORDS t = false /\
  Forall (fun c => isWhiteSpace c = false /\ isPunctuation c = false /\
                   isZeroWidth c = false) t.
Proof.
  intros Hin. split; [|split; [|apply (tokenize_chars text); exact Hin]].
  - unfold tokenize in Hin. destruct text as [|c0 text0]; [contradiction|].
    apply filter_In in Hin. destruct Hin as [Hin _].
    apply filter_In in Hin. destruct Hin as [Hin _].
    apply filter_In in Hin. destruct Hin as [_ Hlen].
    apply Z.ltb_lt. exact Hlen.
  - unfold tokenize in Hin. destruct text as [|c0 text0]; [contradiction|].
    apply filter_In in Hin. destruct Hin as [_ Hstop].
    apply negb_true_iff. exact Hstop.
Qed.

Lemma dropWhile_head {A} (p : A -> bool) (x : A) (l : list A) :
  p x = false -> dropWhile p (x :: l) = x :: l.
Proof. intros H. simpl. rewrite H. reflexivity. Qed.

Lemma trim_clean (t : jsstring) :
  Forall (fun c => isWhiteSpace c = false) t -> trim t = t.
Proof.
  intros H. unfold trim.
  assert (D : forall l, Forall (fun c => isWhiteSpace c = false) l ->
                        dropWhile isWhiteSpace l = l).
  { intros [|x l] Hl; [reflexivity|]. inversion Hl; subst.
    apply dropWhile_head. assumption. }
  rewrite (D t H). rewrite D; [apply rev_involutive|].
  apply Forall_rev. exact H.
Qed.

Lemma span_all (p : Z -> bool) (t : jsstring) :
  forallb p t = true -> span p t = (t, []).
Proof.
  induction t as [|c t IH]; simpl; intros H; [reflexivity|].
  apply andb_prop in H. destruct H as [Hc Ht].
  rewrite Hc, (IH Ht). reflexivity.
Qed.

Lemma digitsValue_zero (ds : jsstring) : forall acc,
  0 <= acc -> forallb isDigit ds = true ->
  fold_left (fun a d => a * 10 + (d - 48)) ds acc = 0 ->
  acc = 0 /\ forallb (Z.eqb 48) ds = true.
Proof.
  induction ds as [|d ds IH]; cbn [forallb fold_left]; intros acc Hacc Hd H; [auto|].
  apply andb_prop in Hd. destruct Hd as [Hd Hds].
  unfold isDigit in Hd. apply andb_prop in Hd. destruct Hd as [Hlo Hhi].
  apply Z.leb_le in Hlo, Hhi.
  destruct (IH (acc * 10 + (d - 48)) ltac:(lia) Hds H) as [H0 Hz].
  assert (d = 48) by lia. subst d. split; [lia|]. rewrite Z.eqb_refl. exact Hz.
Qed.

Lemma NumberClassOf_digits (t : jsstring) :
  t <> [] -> forallb isDigit t = true ->
  NumberClassOf t = if digitsValue t =? 0 then NumZero else NumNonZero.
Proof.
  intros Hne Hd.
  assert (Hws : Forall (fun c => isWhiteSpace c = false) t).
  { rewrite Forall_forall. intros c Hc.
    rewrite forallb_forall in Hd. specialize (Hd c Hc).
    unfold isDigit in Hd. apply andb_prop in Hd. destruct Hd as [Hlo Hhi].
    apply Z.leb_le in Hlo, Hhi. unfold isWhiteSpace.
    apply orb_false_iff. split.
    - simpl. repeat (rewrite (proj2 (Z.eqb_neq c _)) by lia). reflexivity.
    - apply andb_false_iff. left. apply Z.leb_gt. lia. }
  unfold NumberClassOf. rewrite (trim_clean t Hws).
  destruct t as [|c r]; [contradiction|].
  assert (Hc : 48 <= c <= 57).
  { cbn [forallb] in Hd. apply andb_prop in Hd. destruct Hd as [Hd _].
    unfold isDigit in Hd. apply andb_prop in Hd. destruct Hd as [Hlo Hhi].
    apply Z.leb_le in Hlo, Hhi. lia. }
  assert (Hnd : nonDecimalLiteral (c :: r) = None).
  { unfold nonDecimalLiteral. destruct (Z.eq_dec c 48) as [->|Hc48].
    - destruct r as [|p ds]; [reflexivity|].
      assert (Hp : 48 <= p <= 57).
      { cbn [forallb] in Hd. apply andb_prop in Hd. destruct Hd as [_ Hd].
        apply andb_prop in Hd. destruct Hd as [Hd _].
        unfold isDigit in Hd. apply andb_prop in Hd. destruct Hd as [Hlo Hhi].
        apply Z.leb_le in Hlo, Hhi. lia. }
      repeat (rewrite (proj2 (Z.eqb_neq p _)) by lia). reflexivity.
    - destruct c as [|c|c]; try lia.
      repeat (destruct c as [c|c|]; try lia; try reflexivity). }
  rewrite Hnd.
  repeat (rewrite (proj2 (Z.eqb_neq c _)) by lia). simpl orb. cbv iota.
  unfold unsignedDecimalLiteral.
  assert (Hinf : jseqb (c :: r) (utf16 "Infinity") = false).
  { change (utf16 "Infinity") with [73; 110; 102; 105; 110; 105; 116; 121].
    simpl. rewrite (proj2 (Z.eqb_neq c 73)) by lia. reflexivity. }
  rewrite Hinf, (span_all isDigit (c :: r) Hd).
  rewrite app_nil_r. unfold roundedClass. simpl jslength. simpl Z.opp.
  simpl (0 <=? 0). reflexivity.
Qed.

(** X2. A token of digits only is returned by [tokenize] only when all its
    digits are zeros: every decimal numeral with a non-zero digit is
    dropped. *)
Theorem tokenize_drops_nonzero_numerals (text t : jsstring) :
  In t (tokenize text) -> forallb isDigit t = true ->
  forallb (Z.eqb 48) t = true.
Proof.
  intros Hin Hd.
  unfold tokenize in Hin. destruct text as [|c0 text0]; [contradiction|].
  apply filter_In in Hin. destruct Hin as [Hin _].
  apply filter_In in Hin. destruct Hin as [Hin Hn].
  apply filter_In in Hin. destruct Hin as [_ Hlen].
  assert (Hne : t <> []).
  { intros ->. discriminate. }
  unfold notNumber in Hn. rewrite (NumberClassOf_digits t Hne Hd) in Hn.
  destruct (Z.eqb_spec (digitsValue t) 0) as [E|E]; [|discriminate].
  unfold digitsValue in E.
  apply (digitsValue_zero t 0 ltac:(lia) Hd E).
Qed.

(** ** More on the chunker *)

Lemma chunkLoop_windows (words : list jsstring) (size overlap : Z) :
  0 <= overlap < size ->
  forall fuel k acc r,
    Z.of_nat k * (size - overlap) < Z.of_nat (List.length words) ->
    chunkLoop fuel words size overlap (Z.of_nat k * (size - overlap)) acc = Some r ->
    exists m,
      (1 <= m)%nat /\
      r = acc ++ filter (fun c => 5 <? jslength c)
                        (map (window words size (size - overlap)) (seq k m)) /\
      Z.of_nat (List.length words)
        <= (Z.of_nat k + Z.of_nat m - 1) * (size - overlap) + size.
Proof.
  intros Hso. induction fuel as [|fuel IH]; intros k acc r Hk H; [discriminate|].
  cbn [chunkLoop] in H.
  destruct (Z.ltb_spec (Z.of_nat k * (size - overlap)) (Z.of_nat (List.length words)));
    [|lia].
  fold (window words size (size - overlap) k) in H.
  destruct (Z.leb_spec (Z.of_nat (List.length words))
                       (Z.of_nat k * (size - overlap) + size)) as [L|L].
  - exists 1%nat. split; [lia|]. split; [|lia].
    injection H as <-. simpl.
    destruct (5 <? jslength (window words size (size - overlap) k));
      [reflexivity | rewrite app_nil_r; reflexivity].
  - replace (Z.of_nat k * (size - overlap) + (size - overlap))
      with (Z.of_nat (S k) * (size - overlap)) in H by lia.
    apply IH in H; [|lia].
    destruct H as (m & Hm & -> & Hlen).
    exists (S m). split; [lia|]. split; [|lia].
    simpl. destruct (5 <? jslength (window words size (size - overlap) k)).
    + rewrite <- app_assoc. reflexivity.
    + reflexivity.
Qed.

(** X3. With [0 <= overlap < size], the chunks are the windows of [size]
    words taken every [size - overlap] words, in order, less those of five
    characters or fewer; the windows leave no word out: every word of the
    text lies in one of them. *)
Theorem chunkText_windows (text : jsstring) (size overlap : Z) :
  0 <= overlap < size ->
  let words := splitWhiteSpace false [] text in
  let step := size - overlap in
  exists n,
    (1 <= n)%nat /\
    chunkText text size overlap
    = Some (filter (fun c => 5 <? jslength c)
                   (map (window words size step) (seq 0 n))) /\
    forall j, (j < List.length words)%nat ->
      exists k, (k < n)%nat /\
                Z.of_nat k * step <= Z.of_nat j < Z.of_nat k * step + size.
Proof.
  intros Hso words step.
  pose proof (splitWhiteSpace_nonempty text false []) as Hne. fold words in Hne.
  destruct (chunkLoop_terminates words size overlap (proj2 Hso)
              (S (List.length words)) 0 []) as [r Hr]; [lia | nia |].
  pose proof Hr as Hr'.
  apply (chunkLoop_windows words size overlap Hso _ 0%nat) in Hr'; [|simpl; lia].
  destruct Hr' as (n & Hn & Er & Hlen). fold step in Er, Hlen.
  exists n. split; [exact Hn|]. split.
  - unfold chunkText, chunkTextFuel. fold words. rewrite Hr, Er. reflexivity.
  - intros j Hj.
    assert (Hstep : 0 < step) by (unfold step; lia).
    destruct (Z.lt_ge_cases (Z.of_nat j / step) (Z.of_nat n)) as [L|L].
    + exists (Z.to_nat (Z.of_nat j / step)).
      assert (0 <= Z.of_nat j / step) by (apply Z.div_pos; lia).
      rewrite Z2Nat.id by lia.
      pose proof (Z.mul_div_le (Z.of_nat j) step Hstep).
      pose proof (Z.mul_succ_div_gt (Z.of_nat j) step Hstep).
      split; [lia|]. unfold step in *. nia.
    + exists (n - 1)%nat. split; [lia|].
      assert (Z.of_nat n * step <= Z.of_nat j).
      { pose proof (Z.mul_div_le (Z.of_nat j) step Hstep). nia. }
      rewrite Nat2Z.inj_sub by lia. simpl Z.of_nat. nia.
Qed.

(** X4. When [size <= overlap] and the text has more than [size] words,
    the scan of [chunkText] never ends, whatever the fuel; [processDocument]
    then never returns, having made the probe call only. *)
Theorem chunkText_diverges (text : jsstring) (size overlap : Z) :
  size <= overlap ->
  size < Z.of_nat (List.length (splitWhiteSpace false [] text)) ->
  (forall fuel, chunkTextFuel fuel text size overlap = None) /\
  chunkText text size overlap = None /\
  forall (d : Document) (config : AppSettings) (log : Log) (v : option Vector),
    content d = text ->
    chunkSize (ragConfig config) = size ->
    chunkOverlap (ragConfig config) = overlap ->
    fetchEmbeddingOutcome (List.length log) (utf16 "test") config = Returned v ->
    processDocument d config log
    = (Diverged,
       log ++ [{| call_text := utf16 "test"; call_outcome := Returned v |}]).
Proof.
  intros Hso Hlen.
  assert (Hall : forall fuel, chunkTextFuel fuel text size overlap = None).
  { intros fuel. unfold chunkTextFuel.
    pose proof (splitWhiteSpace_nonempty text false []).
    apply chunkLoop_diverges; lia. }
  split; [exact Hall|]. split; [apply Hall|].
  intros d config log v Hc Hs Ho Hp.
  unfold processDocument, bind, fetchEmbedding. rewrite Hp.
  unfold terminating. rewrite Hc, Hs, Ho.
  unfold chunkText. rewrite Hall. reflexivity.
Qed.

(** ** More on the indexer *)

Lemma utf16_ascii (c : ascii) (s : string) :
  Z.of_N (N_of_ascii c) < 128 ->
  utf16 (String c s) = Z.of_N (N_of_ascii c) :: utf16 s.
Proof.
  intros H. unfold utf16. cbn [list_ascii_of_string map utf8_points].
  destruct (Z.ltb_spec (Z.of_N (N_of_ascii c)) 128); [|lia].
  cbn [flat_map]. unfold utf16_units at 1.
  destruct (Z.ltb_spec (Z.of_N (N_of_ascii c)) 65536); [|lia].
  reflexivity.
Qed.

Lemma tenfold_Z (acc : nat) : Z.of_nat (Nat.tail_mul 10 acc) = 10 * Z.of_nat acc.
Proof. rewrite Nat.tail_mul_spec. lia. Qed.

Lemma digitsValue_of_uint (d : Decimal.uint) : forall acc : nat,
  fold_left (fun a c => a * 10 + (c - 48))
            (utf16 (DecimalString.NilEmpty.string_of_uint d)) (Z.of_nat acc)
  = Z.of_nat (Nat.of_uint_acc d acc).
Proof.
  induction d as [|d IH|d IH|d IH|d IH|d IH|d IH|d IH|d IH|d IH|d IH];
    intros acc; cbn [DecimalString.NilEmpty.string_of_uint Nat.of_uint_acc];
    [reflexivity| | | | | | | | | |];
    rewrite utf16_ascii by (vm_compute; reflexivity);
    cbn [fold_left]; rewrite <- IH; f_equal;
    rewrite ?Nat2Z.inj_succ, tenfold_Z;
    vm_compute (Z.of_N _); lia.
Qed.

(** The numeral printed for an index reads back as the index. *)
Lemma digitsValue_decimal (n : nat) : digitsValue (decimal n) = Z.of_nat n.
Proof.
  unfold digitsValue, decimal.
  rewrite <- (DecimalNat.Unsigned.of_to n) at 2. unfold Nat.of_uint.
  rewrite <- digitsValue_of_uint. simpl Z.of_nat.
  unfold DecimalString.NilZero.string_of_uint.
  destruct (Nat.to_uint n); reflexivity.
Qed.

Lemma chunkIdOf_inj (d : Document) (i j : nat) :
  chunkIdOf d i = chunkIdOf d j -> i = j.
Proof.
  unfold chunkIdOf. intros H.
  apply app_inv_head in H. apply app_inv_head in H.
  apply (f_equal digitsValue) in H. rewrite !digitsValue_decimal in H. lia.
Qed.

Lemma chunkRecords_ids (d : Document) (texts : list jsstring) : forall idx vs,
  List.length vs = List.length texts ->
  map chunk_id (chunkRecords d idx texts vs)
  = map (chunkIdOf d) (seq idx (List.length texts)).
Proof.
  induction texts as [|t texts IH]; intros idx [|v vs] H; simpl in *;
    try discriminate; [reflexivity|].
  rewrite IH by congruence. reflexivity.
Qed.

Lemma embedChunks_returned (d : Document) (config : AppSettings)
      (texts : list jsstring) :
  forall idx acc log cs log',
    embedChunks d config texts idx acc log = (Returned cs, log') ->
    exists vs,
      List.length vs = List.length texts /\
      cs = acc ++ chunkRecords d idx texts vs /\
      log' = log ++ returnedCalls texts vs.
Proof.
  induction texts as [|t rest IH]; intros idx acc log cs log'; simpl.
  - unfold ret. intros H. injection H as <- <-.
    exists []. rewrite !app_nil_r. auto.
  - unfold bind, fetchEmbedding.
    destruct (fetchEmbeddingOutcome (List.length log) t config) as [v|e|];
      try discriminate.
    intros H. apply IH in H. destruct H as (vs & Hl & -> & ->).
    exists (v :: vs). simpl. rewrite <- !app_assoc. simpl.
    split; [congruence|]. split; reflexivity.
Qed.

Lemma processDocument_returned (d : Document) (config : AppSettings)
      (log log' : Log) (cs : list TextChunk) :
  processDocument d config log = (Returned cs, log') ->
  exists texts vs v0,
    chunkText (content d) (chunkSize (ragConfig config))
              (chunkOverlap (ragConfig config)) = Some texts /\
    List.length vs = List.length texts /\
    cs = chunkRecords d 0 texts vs /\
    log' = log ++ {| call_text := utf16 "test"; call_outcome := Returned v0 |}
                  :: returnedCalls texts vs.
Proof.
  unfold processDocument, bind at 1, fetchEmbedding.
  destruct (fetchEmbeddingOutcome (List.length log) (utf16 "test") config)
    as [v0|e|]; try discriminate.
  unfold bind, terminating.
  destruct (chunkText _ _ _) as [texts|]; try discriminate.
  intros H. apply embedChunks_returned in H. destruct H as (vs & Hl & -> & ->).
  exists texts, vs, v0. rewrite <- app_assoc. simpl. auto.
Qed.

Lemma embedChunks_answers (d : Document) (config : AppSettings)
      (texts : list jsstring) :
  (forall n t, exists v, fetchEmbeddingOutcome n t config = Returned v) ->
  forall idx acc log,
  exists vs,
    List.length vs = List.length texts /\
    embedChunks d config texts idx acc log
    = (Returned (acc ++ chunkRecords d idx texts vs),
       log ++ returnedCalls texts vs).
Proof.
  intros Hans. induction texts as [|t rest IH]; intros idx acc log;
    cbn [embedChunks].
  - exists []. unfold ret. simpl. rewrite !app_nil_r. auto.
  - unfold bind, fetchEmbedding.
    destruct (Hans (List.length log) t) as [v Hv]. rewrite Hv.
    destruct (IH (S idx)
                 (acc ++ [{| chunk_id := doc_id d ++ utf16 "_chk_" ++ decimal idx;
                             docId := doc_id d; text := t; vector := v |}])
                 (log ++ [{| call_text := t; call_outcome := Returned v |}]))
      as (vs & Hl & E).
    exists (v :: vs). split; [simpl; congruence|].
    rewrite E. cbn [chunkRecords returnedCalls combine map fst snd].
    unfold chunkIdOf. rewrite <- !app_assoc. reflexivity.
Qed.

(** X5. When [chunkSize > chunkOverlap] and the provider answers every
    call, [processDocument] returns one chunk per chunk text of the
    document, in order: the chunk of index [i] has the id
    [<doc.id>_chk_<i>], the id of the document, its text and the vector
    returned for it. It makes one call for the probe text ["test"] and
    then one call per chunk, in order. *)
Theorem processDocument_indexes_every_chunk (d : Document)
        (config : AppSettings) (log : Log) :
  chunkOverlap (ragConfig config) < chunkSize (ragConfig config) ->
  (forall n t, exists v, fetchEmbeddingOutcome n t config = Returned v) ->
  exists texts vs v0,
    chunkText (content d) (chunkSize (ragConfig config))
              (chunkOverlap (ragConfig config)) = Some texts /\
    List.length vs = List.length texts /\
    processDocument d config log
    = (Returned (chunkRecords d 0 texts vs),
       log ++ {| call_text := utf16 "test"; call_outcome := Returned v0 |}
              :: returnedCalls texts vs).
Proof.
  intros Hso Hans.
  set (words := splitWhiteSpace false [] (content d)).
  pose proof (splitWhiteSpace_nonempty (content d) false []) as Hne. fold words in Hne.
  destruct (chunkLoop_terminates words _ _ Hso (S (List.length words)) 0 [])
    as [texts Ht]; [lia | nia |].
  destruct (Hans (List.length log) (utf16 "test")) as [v0 Hv0].
  destruct (embedChunks_answers d config texts Hans 0%nat []
              (log ++ [{| call_text := utf16 "test"; call_outcome := Returned v0 |}]))
    as (vs & Hl & E).
  exists texts, vs, v0.
  assert (Hc : chunkText (content d) (chunkSize (ragConfig config))
                         (chunkOverlap (ragConfig config)) = Some texts)
    by exact Ht.
  split; [exact Hc|]. split; [exact Hl|].
  unfold processDocument, bind, fetchEmbedding. rewrite Hv0.
  unfold terminating. rewrite Hc, E. simpl. rewrite <- app_assoc. reflexivity.
Qed.

(** X6. The chunks returned by [processDocument] have pairwise distinct
    ids, all of them owned by the document. *)
Theorem processDocument_distinct_ids (d : Document) (config : AppSettings)
        (log log' : Log) (cs : list TextChunk) :
  processDocument d config log = (Returned cs, log') ->
  NoDup (map chunk_id cs) /\ Forall (fun c => docId c = doc_id d) cs.
Proof.
  intros H. apply processDocument_returned in H.
  destruct H as (texts & vs & v0 & _ & Hl & -> & _). split.
  - rewrite (chunkRecords_ids d texts 0 vs Hl).
    apply Finite.Injective_map_NoDup; [|apply seq_NoDup].
    intros i j. apply chunkIdOf_inj.
  - clear Hl. generalize 0%nat. revert vs.
    induction texts as [|t texts IH]; intros [|v vs] idx; simpl; constructor; auto.
Qed.

(** ** More on the embedding service and the retriever *)

Lemma retrieveContext_run (q : jsstring) (cs : list TextChunk)
      (config : AppSettings) (docs : list Document) (log : Log) :
  q <> [] -> cs <> [] ->
  retrieveContext q cs config docs log
  = match fetchEmbeddingOutcome (List.length log) q config with
    | Returned queryVec =>
      (Returned
         (map (toContext docs)
              (slice (sortBy byScore
                        (filter (fun s => (0.25 <? snd s)%float)
                                (map (scoreChunk queryVec) cs)))
                     0 (topK (ragConfig config)))),
       log ++ [{| call_text := q; call_outcome := Returned queryVec |}])
    | Thrown e => (Thrown e, log ++ [{| call_text := q; call_outcome := Thrown e |}])
    | Diverged => (Diverged, log ++ [{| call_text := q; call_outcome := Diverged |}])
    end.
Proof.
  intros Hq Hcs. unfold retrieveContext.
  destruct q as [|c q]; [contradiction|]. destruct cs as [|c0 cs]; [contradiction|].
  cbn [isEmpty orb List.length Nat.eqb]. unfold bind, fetchEmbedding, ret.
  destruct (fetchEmbeddingOutcome (List.length log) (c :: q) config); reflexivity.
Qed.

(** X7. With the provider [openai] (or [openrouter]) selected and its key
    empty, every call of [fetchEmbedding] throws the configuration error,
    whatever the endpoint would answer: [processDocument] throws it at the
    probe, and [retrieveContext] throws it for a non-empty query over a
    non-empty chunk list. *)
Theorem missing_key_aborts (config : AppSettings) :
  (embeddingProvider config = Emb_openai /\ openaiKey config = []) \/
  (embeddingProvider config = Emb_openrouter /\ openrouterKey config = []) ->
  let msg := match embeddingProvider config with
             | Emb_openrouter => utf16 "کلید API OpenRouter وارد نشده است."
             | _ => utf16 "کلید API OpenAI وارد نشده است."
             end in
  (forall (d : Document) (log : Log),
     processDocument d config log
     = (Thrown msg,
        log ++ [{| call_text := utf16 "test"; call_outcome := Thrown msg |}])) /\
  (forall (q : jsstring) (cs : list TextChunk) (docs : list Document) (log : Log),
     q <> [] -> cs <> [] ->
     retrieveContext q cs config docs log
     = (Thrown msg, log ++ [{| call_text := q; call_outcome := Thrown msg |}])).
Proof.
  intros H msg.
  assert (Hf : forall n t, fetchEmbeddingOutcome n t config = Thrown msg).
  { intros n t. unfold fetchEmbeddingOutcome, msg.
    destruct H as [[-> ->] | [-> ->]]; reflexivity. }
  split.
  - intros d log. unfold processDocument, bind, fetchEmbedding.
    rewrite Hf. reflexivity.
  - intros q cs docs log Hq Hcs.
    rewrite (retrieveContext_run q cs config docs log Hq Hcs), Hf. reflexivity.
Qed.

(** X8. For a non-empty query over a non-empty chunk list, [retrieveContext]
    makes exactly one embedding call, for the text of the query, and ends as
    that call does: it throws the error the call throws (a failed retrieval
    is never turned into an empty result) and returns when the call
    returns. *)
Theorem retrieveContext_single_call (q : jsstring) (cs : list TextChunk)
        (config : AppSettings) (docs : list Document) (log : Log) :
  q <> [] -> cs <> [] ->
  let o := fetchEmbeddingOutcome (List.length log) q config in
  snd (retrieveContext q cs config docs log)
  = log ++ [{| call_text := q; call_outcome := o |}] /\
  match o with
  | Returned _ => exists ctxs,
      fst (retrieveContext q cs config docs log) = Returned ctxs
  | Thrown e => fst (retrieveContext q cs config docs log) = Thrown e
  | Diverged => fst (retrieveContext q cs config docs log) = Diverged
  end.
Proof.
  intros Hq Hcs o.
  rewrite (retrieveContext_run q cs config docs log Hq Hcs). fold o.
  destruct o as [qv|e|]; simpl; eauto.
Qed.

Lemma slice_firstn {A} (l : list A) (e : Z) :
  0 <= e -> slice l 0 e = firstn (Z.to_nat e) l.
Proof.
  intros He. unfold slice. simpl (0 <? 0).
  pose proof (Nat2Z.is_nonneg (List.length l)) as Hlen.
  rewrite (Z.min_l 0) by lia. simpl skipn. rewrite Z.sub_0_r.
  destruct (Z.ltb_spec e 0); [lia|].
  destruct (Z.le_gt_cases e (Z.of_nat (List.length l))) as [L|L].
  - rewrite Z.min_l by lia. reflexivity.
  - rewrite Z.min_r by lia. rewrite Nat2Z.id.
    rewrite !firstn_all2; [reflexivity | lia | lia].
Qed.

Lemma StronglySorted_app_inv {A} (R : A -> A -> Prop) (l1 l2 : list A) :
  StronglySorted R (l1 ++ l2) ->
  forall a b, In a l1 -> In b l2 -> R a b.
Proof.
  induction l1 as [|x l1 IH]; simpl; intros H a b Ha Hb; [contradiction|].
  inversion H as [|? ? Hs Hx]; subst.
  destruct Ha as [<-|Ha].
  - rewrite Forall_forall in Hx. apply Hx. apply in_or_app. right. exact Hb.
  - apply IH; assumption.
Qed.

(** X9. Every context returned by [retrieveContext] stems from a chunk of
    the list that carries a vector: it has the id, the document id and the
    text of that chunk, its score is the cosine similarity of the query
    vector and the chunk's vector, its entities are those extracted from
    the text, and its title is that of the first listed document with the
    chunk's document id, or the label for an unknown document. *)
Theorem retrieveContext_provenance (q : jsstring) (cs : list TextChunk)
        (config : AppSettings) (docs : list Document) (log log' : Log)
        (ctxs : list RetrievalContext) (ctx : RetrievalContext) :
  retrieveContext q cs config docs log = (Returned ctxs, log') ->
  In ctx ctxs ->
  exists c v qv,
    In c cs /\ vector c = Some v /\
    fetchEmbeddingOutcome (List.length log) q config = Returned (Some qv) /\
    chunkId ctx = chunk_id c /\ ctx_docId ctx = docId c /\
    ctx_content ctx = text c /\
    score ctx = cosineSimilarity (Some qv) (Some v) /\
    relatedEntities ctx = extractEntities (text c) /\
    docTitle ctx = match find (fun d => jseqb (doc_id d) (docId c)) docs with
                   | Some d => title d
                   | None => utf16 "سند ناشناس"
                   end.
Proof.
  unfold retrieveContext.
  destruct (isEmpty q || (List.length cs =? 0)%nat).
  - intros H. injection H as <- _. contradiction.
  - unfold bind, fetchEmbedding.
    destruct (fetchEmbeddingOutcome (List.length log) q config) as [queryVec|e|];
      try discriminate.
    unfold ret. intros H Hin. injection H as <- _.
    apply in_map_iff in Hin. destruct Hin as (item & <- & Hin).
    destruct (slice_from_start
                (sortBy byScore
                   (filter (fun s => (0.25 <? snd s)%float)
                           (map (scoreChunk queryVec) cs)))
                (topK (ragConfig config))) as (n & E & _).
    rewrite E in Hin.
    assert (Hk : In item (filter (fun s => (0.25 <? snd s)%float)
                                 (map (scoreChunk queryVec) cs))).
    { apply (Permutation_in _ (Permutation_sym (sortBy_perm byScore _))).
      rewrite <- (firstn_skipn n). apply in_or_app. left. exact Hin. }
    apply filter_In in Hk. destruct Hk as [Hk Hs].
    apply in_map_iff in Hk. destruct Hk as (c & <- & Hc).
    unfold scoreChunk in *. simpl in Hs.
    destruct (vector c) as [v|] eqn:Ev; [|discriminate].
    destruct queryVec as [qv|]; [|discriminate].
    exists c, v, qv. simpl. rewrite Ev. repeat split; auto.
Qed.

(** X10. With [topK >= 0], [retrieveContext] returns the [topK] best of the
    chunks that score above 0.25, or all of them when they are fewer: the
    returned contexts are those of a part [top] of the qualifying chunks,
    [top] has [min topK (number of qualifying chunks)] items, and no
    qualifying chunk left out scores more than a chunk of [top]. *)
Theorem retrieveContext_top_k (q : jsstring) (cs : list TextChunk)
        (config : AppSettings) (docs : list Document) (log log' : Log)
        (ctxs : list RetrievalContext) :
  q <> [] -> cs <> [] ->
  0 <= topK (ragConfig config) ->
  retrieveContext q cs config docs log = (Returned ctxs, log') ->
  exists qv top rest,
    fetchEmbeddingOutcome (List.length log) q config = Returned qv /\
    Permutation
      (filter (fun s => (0.25 <? snd s)%float) (map (scoreChunk qv) cs))
      (top ++ rest) /\
    ctxs = map (toContext docs) top /\
    List.length top
    = Nat.min (Z.to_nat (topK (ragConfig config)))
              (List.length (filter (fun s => (0.25 <? snd s)%float)
                                   (map (scoreChunk qv) cs))) /\
    forall x y, In x rest -> In y top -> (snd x <=? snd y)%float = true.
Proof.
  intros Hq Hcs Hk.
  rewrite (retrieveContext_run q cs config docs log Hq Hcs).
  destruct (fetchEmbeddingOutcome (List.length log) q config) as [qv|e|];
    try discriminate.
  intros H. injection H as <- _.
  set (kept := filter (fun s => (0.25 <? snd s)%float)
                      (map (scoreChunk qv) cs)).
  set (n := Z.to_nat (topK (ragConfig config))).
  exists qv, (firstn n (sortBy byScore kept)), (skipn n (sortBy byScore kept)).
  split; [reflexivity|]. split; [|split; [|split]].
  - rewrite firstn_skipn. apply sortBy_perm.
  - rewrite slice_firstn by exact Hk. reflexivity.
  - rewrite length_firstn.
    rewrite <- (Permutation_length (sortBy_perm byScore kept)). reflexivity.
  - intros x y Hx Hy.
    pose proof (topChunks_sorted (map (scoreChunk qv) cs)) as Hs.
    fold kept in Hs. rewrite <- (firstn_skipn n) in Hs.
    apply (StronglySorted_app_inv _ _ _ Hs y x Hy Hx).
Qed.

(** ** More on the entity extractor *)

Lemma occurrences_present (t : jsstring) (l : list jsstring) :
  In t l -> 0 < occurrences t l.
Proof.
  induction l as [|x l IH]; simpl; intros H; [contradiction|].
  assert (0 <= occurrences t l).
  { clear. induction l as [|y l IH]; simpl; [lia|]. destruct (jseqb y t); lia. }
  destruct H as [->|H]; [rewrite jseqb_refl; lia|].
  specialize (IH H). destruct (jseqb x t); lia.
Qed.

Lemma sortedFrequencies (tokens : list jsstring) :
  StronglySorted
    (fun a b : jsstring * Z =>
       snd b < snd a \/
       (snd a = snd b /\
        (firstIndex (fst a) tokens < firstIndex (fst b) tokens)%nat))
    (sortBy byFrequency
       (filter (fun e => 0 <? snd e) (fold_left countToken tokens []))).
Proof.
  destruct (countTokens_counted tokens) as [_ _ _ HO].
  apply (sortBy_stable byFrequency snd
           (fun a b => (firstIndex (fst a) tokens < firstIndex (fst b) tokens)%nat)
           byFrequency_key).
  apply StronglySorted_filter.
  apply (StronglySorted_map_fst
           (fun a b => (firstIndex a tokens < firstIndex b tokens)%nat)).
  exact HO.
Qed.

(** X11. [extractEntities] keeps the most frequent tokens: a token of the
    text is left out only when five entities are returned, and it then
    occurs no more often than any of the five. *)
Theorem extractEntities_most_frequent (text t : jsstring) :
  let tokens := tokenize text in
  let entities := extractEntities text in
  In t tokens -> ~ In t entities ->
  List.length entities = 5%nat /\
  forall e, In e entities -> occurrences t tokens <= occurrences e tokens.
Proof.
  intros tokens entities Ht Hout. unfold entities, extractEntities in *.
  fold tokens in Hout |- *.
  destruct (countTokens_counted tokens) as [HK _ HC _].
  pose proof (sortedFrequencies tokens) as Hs.
  set (freq := fold_left countToken tokens []) in *.
  set (sorted := sortBy byFrequency (filter (fun e => 0 <? snd e) freq)) in *.
  rewrite slice_firstn in * by lia. simpl Z.to_nat in *.
  assert (Hsub : forall p, In p sorted -> In p freq).
  { intros p Hp.
    apply (Permutation_in _ (Permutation_sym (sortBy_perm byFrequency _))) in Hp.
    apply filter_In in Hp. prop. }
  apply HK in Ht. apply in_map_iff in Ht. destruct Ht as (p & Hp & Hin).
  assert (Hps : In p sorted).
  { apply (Permutation_in _ (sortBy_perm byFrequency _)).
    apply filter_In. split; [exact Hin|].
    apply Z.ltb_lt. rewrite (HC p Hin).
    apply occurrences_present. apply HK. apply in_map. exact Hin. }
  rewrite <- (firstn_skipn 5 sorted) in Hps.
  apply in_app_or in Hps. destruct Hps as [Hps|Hps].
  { exfalso. apply Hout. rewrite <- Hp. apply in_map. exact Hps. }
  split.
  - rewrite length_map, length_firstn.
    assert (5 < List.length sorted)%nat; [|lia].
    destruct (Nat.lt_ge_cases 5 (List.length sorted)) as [L|L]; [exact L|].
    rewrite skipn_all2 in Hps by lia. contradiction.
  - intros e He. apply in_map_iff in He. destruct He as (y & <- & Hy).
    rewrite <- (firstn_skipn 5 sorted) in Hs.
    pose proof (StronglySorted_app_inv _ _ _ Hs y p Hy Hps) as Hr.
    cbv beta in Hr.
    rewrite <- Hp.
    rewrite <- (HC p Hin).
    rewrite <- (HC y) by (apply Hsub; rewrite <- (firstn_skipn 5 sorted);
                            apply in_or_app; left; exact Hy).
    lia.
Qed.

(** ** More on the graph builder *)

Lemma addEntity_effect (c : TextChunk) (g : list GraphNode * list GraphLink)
      (ent : jsstring) :
  (forall n, In n (fst g) -> In n (fst (addEntity c g ent))) /\
  (forall l, In l (snd g) -> In l (snd (addEntity c g ent))) /\
  In (utf16 "ent_" ++ ent) (map node_id (fst (addEntity c g ent))) /\
  In (mentionsLink c ent) (snd (addEntity c g ent)) /\
  List.length (snd (addEntity c g ent)) = S (List.length (snd g)) /\
  (NoDup (entityIds (fst g)) -> NoDup (entityIds (fst (addEntity c g ent)))).
Proof.
  unfold addEntity. simpl.
  destruct (find _ (fst g)) as [n|] eqn:F.
  - apply find_node_some in F. repeat split; auto.
    + intros l Hl. apply in_or_app. left. exact Hl.
    + apply in_or_app. right. left. reflexivity.
    + rewrite length_app. simpl. lia.
  - apply find_node_none in F. repeat split.
    + intros n Hn. apply in_or_app. left. exact Hn.
    + intros l Hl. apply in_or_app. left. exact Hl.
    + rewrite map_app. apply in_or_app. right. left. reflexivity.
    + apply in_or_app. right. left. reflexivity.
    + rewrite length_app. simpl. lia.
    + intros HN. unfold entityIds. rewrite filter_app, map_app. simpl.
      apply NoDup_app; [exact HN | repeat constructor; auto |].
      intros a Ha [<-|[]]. apply F.
      unfold entityIds in Ha. apply in_map_iff in Ha.
      destruct Ha as (n & <- & Hn). apply filter_In in Hn.
      apply in_map. prop.
Qed.

Lemma addEntities_effect (c : TextChunk) (ents : list jsstring) :
  forall g,
  (forall n, In n (fst g) -> In n (fst (fold_left (addEntity c) ents g))) /\
  (forall l, In l (snd g) -> In l (snd (fold_left (addEntity c) ents g))) /\
  (forall e, In e ents ->
     In (utf16 "ent_" ++ e) (map node_id (fst (fold_left (addEntity c) ents g))) /\
     In (mentionsLink c e) (snd (fold_left (addEntity c) ents g))) /\
  List.length (snd (fold_left (addEntity c) ents g))
  = (List.length (snd g) + List.length ents)%nat /\
  (NoDup (entityIds (fst g)) ->
   NoDup (entityIds (fst (fold_left (addEntity c) ents g)))).
Proof.
  induction ents as [|e ents IH]; intros g; cbn [fold_left List.length In].
  - repeat split; auto; try contradiction; lia.
  - destruct (addEntity_effect c g e) as (A1 & A2 & A3 & A4 & A5 & A6).
    destruct (IH (addEntity c g e)) as (B1 & B2 & B3 & B4 & B5).
    repeat split; auto.
    + destruct H as [<-|H]; [|apply B3; exact H].
      apply in_map_iff in A3. destruct A3 as (n & Hn & Hin).
      rewrite <- Hn. apply in_map. apply B1. exact Hin.
    + destruct H as [<-|H]; [apply B2; exact A4 | apply B3; exact H].
    + rewrite B4, A5. lia.
Qed.

Lemma addChunk_effect (g : list GraphNode * list GraphLink) (c : TextChunk) :
  (forall n, In n (fst g) -> In n (fst (addChunk g c))) /\
  (forall l, In l (snd g) -> In l (snd (addChunk g c))) /\
  In (chunkNode c) (fst (addChunk g c)) /\
  In (containsLink c) (snd (addChunk g c)) /\
  (forall e, In e (extractEntities (text c)) ->
     In (utf16 "ent_" ++ e) (map node_id (fst (addChunk g c))) /\
     In (mentionsLink c e) (snd (addChunk g c))) /\
  List.length (snd (addChunk g c))
  = (List.length (snd g) + S (List.length (extractEntities (text c))))%nat /\
  (NoDup (entityIds (fst g)) -> NoDup (entityIds (fst (addChunk g c)))).
Proof.
  unfold addChunk.
  destruct (addEntities_effect c (extractEntities (text c))
              (fst g ++ [chunkNode c], snd g ++ [containsLink c]))
    as (B1 & B2 & B3 & B4 & B5).
  fold (containsLink c). simpl fst in *. simpl snd in *.
  repeat split.
  - intros n Hn. apply B1. apply in_or_app. left. exact Hn.
  - intros l Hl. apply B2. apply in_or_app. left. exact Hl.
  - apply B1. apply in_or_app. right. left. reflexivity.
  - apply B2. apply in_or_app. right. left. reflexivity.
  - apply B3. exact H.
  - apply B3. exact H.
  - rewrite B4, length_app. simpl. lia.
  - intros HN. apply B5. unfold entityIds. rewrite filter_app. simpl.
    rewrite app_nil_r. exact HN.
Qed.

Lemma addChunks_effect (cs : list TextChunk) :
  forall g,
  (forall n, In n (fst g) -> In n (fst (fold_left addChunk cs g))) /\
  (forall l, In l (snd g) -> In l (snd (fold_left addChunk cs g))) /\
  (forall c, In c cs ->
     In (chunkNode c) (fst (fold_left addChunk cs g)) /\
     In (containsLink c) (snd (fold_left addChunk cs g)) /\
     forall e, In e (extractEntities (text c)) ->
       In (utf16 "ent_" ++ e) (map node_id (fst (fold_left addChunk cs g))) /\
       In (mentionsLink c e) (snd (fold_left addChunk cs g))) /\
  List.length (snd (fold_left addChunk cs g))
  = (List.length (snd g)
     + list_sum (map (fun c => S (List.length (extractEntities (text c)))) cs))%nat /\
  (NoDup (entityIds (fst g)) -> NoDup (entityIds (fst (fold_left addChunk cs g)))).
Proof.
  induction cs as [|c cs IH]; intros g; cbn [fold_left List.length In map].
  - repeat split; auto; try contradiction; simpl; lia.
  - destruct (addChunk_effect g c) as (A1 & A2 & A3 & A4 & A5 & A6 & A7).
    destruct (IH (addChunk g c)) as (B1 & B2 & B3 & B4 & B5).
    split; [auto|]. split; [auto|]. split; [|split; [rewrite B4, A6; unfold list_sum; simpl; lia | auto]].
    intros x [<-|Hx]; [|apply B3; exact Hx].
    split; [apply B1; exact A3|]. split; [apply B2; exact A4|].
    intros e He. destruct (A5 e He) as [E1 E2]. split; [|apply B2; exact E2].
    apply in_map_iff in E1. destruct E1 as (n & Hn & Hin).
    rewrite <- Hn. apply in_map. apply B1. exact Hin.
Qed.

Lemma docNodes_list (docs : list Document) : forall ns,
  fold_left (fun ns d => ns ++ [docNode d]) docs ns = ns ++ map docNode docs.
Proof.
  induction docs as [|d docs IH]; intros ns; simpl.
  - rewrite app_nil_r. reflexivity.
  - rewrite IH, <- app_assoc. reflexivity.
Qed.

(** X12. The graph of [rebuildGraphFromChunks] holds a node for every
    document and for every chunk, a [contains] link from the document id
    of every chunk to the chunk, and, for every entity extracted from a
    chunk, a node [ent_<term>] and a [mentions] link from the chunk to
    it. No two entity nodes share an id, whatever the ids of the input,
    and the links are as many as the chunks and their entities. *)
Theorem rebuildGraphFromChunks_contents (docs : list Document)
        (cs : list TextChunk) :
  let g := rebuildGraphFromChunks docs cs in
  (forall d, In d docs -> In (docNode d) (nodes g)) /\
  (forall c, In c cs ->
     In (chunkNode c) (nodes g) /\
     In (containsLink c) (links g) /\
     forall e, In e (extractEntities (text c)) ->
       In (utf16 "ent_" ++ e) (nodeIds g) /\ In (mentionsLink c e) (links g)) /\
  NoDup (entityIds (nodes g)) /\
  List.length (links g)
  = list_sum (map (fun c => S (List.length (extractEntities (text c)))) cs).
Proof.
  intros g. unfold g, rebuildGraphFromChunks, nodeIds.
  cbn [nodes links]. rewrite docNodes_list. cbn [app].
  destruct (addChunks_effect cs (map docNode docs, [])) as (B1 & B2 & B3 & B4 & B5).
  cbn [fst snd List.length] in B1, B4, B5.
  split; [|split; [|split]].
  - intros d Hd. apply B1. apply in_map. exact Hd.
  - intros c Hc. destruct (B3 c Hc) as (C1 & C2 & C3). auto.
  - apply B5. unfold entityIds.
    assert (E : filter isEntity (map docNode docs) = []).
    { clear. induction docs as [|d docs IH]; simpl; auto. }
    rewrite E. constructor.
  - exact B4.
Qed.

(** ** The document handlers *)

Lemma dropWhile_all {A} (p : A -> bool) (l : list A) :
  Forall (fun x => p x = true) l -> dropWhile p l = [].
Proof.
  induction 1 as [|x l Hx _ IH]; simpl; [reflexivity|]. rewrite Hx. exact IH.
Qed.

Lemma readInput_blank (input : AddInput) :
  input_file input = None ->
  Forall (fun c => isWhiteSpace c = true) (orElse (input_content input) []) ->
  readInput input = inl (utf16 "محتوای سند خالی است.").
Proof.
  intros Hf Hb. unfold readInput. rewrite Hf. unfold trim.
  rewrite (dropWhile_all _ _ Hb). reflexivity.
Qed.

(** X13. A request to add a document without a file and with a content
    that is absent, empty or made of white space only is rejected before
    any embedding call: the documents, the chunks, the graph and the
    stores are left as they were and the error message for an empty
    content is set. *)
Theorem handleAddDocument_rejects_blank (st : AppState) (input : AddInput)
        (uuid : jsstring) (now : Z) (log : Log) :
  input_file input = None ->
  Forall (fun c => isWhiteSpace c = true) (orElse (input_content input) []) ->
  exists st',
    handleAddDocument st input uuid now log = (Returned st', log) /\
    documents st' = documents st /\ chunks st' = chunks st /\
    graphData st' = graphData st /\
    db_documents st' = db_documents st /\ db_chunks st' = db_chunks st /\
    app_error st' = Some (utf16 "محتوای سند خالی است.") /\
    isLoading st' = false.
Proof.
  intros Hf Hb. unfold handleAddDocument.
  rewrite (readInput_blank input Hf Hb). unfold ret.
  eexists. split; [reflexivity|]. simpl. repeat split.
Qed.



Lemma put_from {A} (key : A -> jsstring) (x y : A) (store : list A) :
  In y (put key x store) -> y = x \/ In y store.
Proof.
  induction store as [|z r IH]; simpl.
  - intros [<-|[]]. left. reflexivity.
  - destruct (jseqb (key z) (key x)); simpl; intros [<-|H]; auto.
    destruct (IH H); auto.
Qed.


Lemma putAll_from (new : list TextChunk) : forall store c,
  In c (fold_left (fun s c => put chunk_id c s) new store) ->
  In c new \/ In c store.
Proof.
  induction new as [|x new IH]; simpl; intros store c H; [auto|].
  apply IH in H. destruct H as [H|H]; [auto|].
  apply put_from in H. destruct H as [->|H]; auto.
Qed.

Lemma chunkRecords_NoDup (d : Document) (texts : list jsstring)
      (vs : list (option Vector)) :
  List.length vs = List.length texts ->
  NoDup (map chunk_id (chunkRecords d 0 texts vs)).
Proof.
  intros Hl. rewrite (chunkRecords_ids d texts 0 vs Hl).
  apply Finite.Injective_map_NoDup; [|apply seq_NoDup].
  intros i j. apply chunkIdOf_inj.
Qed.


Lemma extractEntities_tokens (text e : jsstring) :
  In e (extractEntities text) -> In e (tokenize text).
Proof.
  unfold extractEntities. intros H.
  destruct (countTokens_counted (tokenize text)) as [HK _ _ _].
  apply in_map_iff in H. destruct H as (p & <- & Hp).
  destruct (slice_from_start
              (sortBy byFrequency
                 (filter (fun e => 0 <? snd e)
                         (fold_left countToken (tokenize text) []))) 5)
    as (n & E & _).
  rewrite E in Hp.
  assert (Hs : In p (sortBy byFrequency
                       (filter (fun e => 0 <? snd e)
                               (fold_left countToken (tokenize text) [])))).
  { rewrite <- (firstn_skipn n). apply in_or_app. left. exact Hp. }
  apply (Permutation_in _ (Permutation_sym (sortBy_perm byFrequency _))) in Hs.
  apply filter_In in Hs. apply HK. apply in_map. prop.
Qed.

Lemma entity_id_underscores (text e : jsstring) :
  In e (extractEntities text) -> underscores (utf16 "ent_" ++ e) = 1%nat.
Proof.
  intros H. apply extractEntities_tokens, tokenize_chars in H.
  unfold underscores. rewrite count_occ_app.
  assert (Z0 : count_occ Z.eq_dec e 95 = 0%nat).
  { apply count_occ_not_In. intros Hin. rewrite Forall_forall in H.
    destruct (H 95 Hin) as (_ & Hp & _). discriminate. }
  rewrite Z0. reflexivity.
Qed.

Lemma chunk_id_underscores (owner : jsstring) (idx : nat) :
  (2 <= underscores (owner ++ utf16 "_chk_" ++ decimal idx))%nat.
Proof.
  unfold underscores. rewrite !count_occ_app.
  change (count_occ Z.eq_dec (utf16 "_chk_") 95) with 2%nat. lia.
Qed.

Lemma NoDup_app_parts {A} (l1 l2 : list A) :
  NoDup (l1 ++ l2) ->
  NoDup l1 /\ NoDup l2 /\ forall a, In a l1 -> ~ In a l2.
Proof.
  induction l1 as [|x l1 IH]; simpl; intros H.
  - repeat split; [constructor | exact H | prop].
  - inversion H as [|? ? Hx Hr]; subst. destruct (IH Hr) as (N1 & N2 & D).
    repeat split; [constructor; [|exact N1] | exact N2 |].
    + intros Hin. apply Hx. apply in_or_app. left. exact Hin.
    + intros a [<-|Ha] Hin; [apply Hx; apply in_or_app; right; exact Hin|].
      exact (D a Ha Hin).
Qed.

(** A corpus kept by the handlers gives a well-formed graph. *)
Lemma corpus_graph (docs : list Document) (cs : list TextChunk) :
  corpusOk docs cs -> wellFormedGraph (rebuildGraphFromChunks docs cs).
Proof.
  intros (HN & HO & HF).
  assert (HE : forall c c' e, In c cs -> In c' cs ->
             In e (extractEntities (text c')) ->
             chunk_id c <> utf16 "ent_" ++ e).
  { intros c c' e Hc Hc' He E.
    destruct (HF c Hc) as (owner & idx & Hid).
    pose proof (chunk_id_underscores owner idx) as H2.
    pose proof (entity_id_underscores (text c') e He) as H1.
    rewrite <- Hid, E in H2. lia. }
  destruct (rebuildGraph_inv docs cs HN HE HO) as (G1 & _ & _ & G4).
  unfold wellFormedGraph, rebuildGraphFromChunks, nodeIds. simpl.
  split; [exact G1 | exact G4].
Qed.

Lemma freshId_spec (uuid : jsstring) (ids : list jsstring) (id suffix : jsstring) :
  freshId uuid ids -> In id ids -> id <> uuid ++ suffix.
Proof.
  unfold freshId. rewrite Forall_forall. intros H Hin E.
  apply (H id Hin). rewrite E, firstn_app, firstn_all, Nat.sub_diag.
  simpl. apply app_nil_r.
Qed.

Lemma replaceDoc_fresh (d x : Document) (docs : list Document) :
  doc_id x = doc_id d -> ~ In (doc_id d) (map doc_id docs) ->
  replaceDoc d (docs ++ [x]) = docs ++ [d].
Proof.
  intros Hx Hd. unfold replaceDoc. rewrite map_app. simpl.
  rewrite Hx, jseqb_refl. f_equal.
  induction docs as [|y docs IH]; simpl in *; [reflexivity|].
  rewrite jseqb_neq by prop. rewrite IH by prop. reflexivity.
Qed.

Lemma perm_extend {A} (u : A) (D C N : list A) :
  Permutation (u :: N ++ (D ++ C)) ((D ++ [u]) ++ (C ++ N)).
Proof.
  rewrite <- (app_assoc D [u]). simpl.
  apply Permutation_cons_app.
  rewrite (app_assoc D C N). apply Permutation_app_comm.
Qed.

Lemma chunkRecords_forms (d : Document) (texts : list jsstring) :
  forall idx vs c,
    In c (chunkRecords d idx texts vs) ->
    docId c = doc_id d /\ exists i, chunk_id c = chunkIdOf d i.
Proof.
  induction texts as [|t texts IH]; intros idx [|v vs] c H; simpl in H;
    try contradiction.
  destruct H as [<-|H]; [simpl; eauto | eapply IH; exact H].
Qed.

Lemma corpus_extended (docs : list Document) (cs : list TextChunk)
      (d : Document) (texts : list jsstring) (vs : list (option Vector)) :
  corpusOk docs cs ->
  freshId (doc_id d) (map doc_id docs ++ map chunk_id cs) ->
  List.length vs = List.length texts ->
  corpusOk (docs ++ [d]) (cs ++ chunkRecords d 0 texts vs).
Proof.
  intros (HN & HO & HF) Hfresh Hl.
  set (new := chunkRecords d 0 texts vs).
  assert (Hnew : forall c, In c new ->
            docId c = doc_id d /\ exists i, chunk_id c = chunkIdOf d i).
  { intros c Hc. apply (chunkRecords_forms d texts 0 vs c Hc). }
  assert (Hold : forall id, In id (map doc_id docs ++ map chunk_id cs) ->
            id <> doc_id d /\ forall i, id <> chunkIdOf d i).
  { intros id Hid. split.
    - rewrite <- (app_nil_r (doc_id d)). apply (freshId_spec _ _ _ _ Hfresh Hid).
    - intros i. apply (freshId_spec _ _ _ _ Hfresh Hid). }
  split; [|split].
  - rewrite !map_app. simpl map.
    apply Permutation_NoDup with
      (doc_id d :: map chunk_id new ++ (map doc_id docs ++ map chunk_id cs)).
    + apply perm_extend.
    + constructor.
      * intros Hin. apply in_app_or in Hin. destruct Hin as [Hin|Hin].
        -- apply in_map_iff in Hin. destruct Hin as (c & Hc & Hin).
           destruct (Hnew c Hin) as (_ & i & Hi).
           rewrite Hi in Hc. unfold chunkIdOf in Hc.
           apply (f_equal (@List.length Z)) in Hc.
           rewrite !length_app in Hc. simpl in Hc. lia.
        -- destruct (Hold _ Hin) as [H _]. apply H. reflexivity.
      * apply NoDup_app; [apply chunkRecords_NoDup; exact Hl | exact HN |].
        intros a Ha Hin. apply in_map_iff in Ha. destruct Ha as (c & <- & Hc).
        destruct (Hnew c Hc) as (_ & i & Hi).
        destruct (Hold _ Hin) as [_ H]. apply (H i). exact Hi.
  - intros c Hc. rewrite map_app. apply in_or_app.
    apply in_app_or in Hc. destruct Hc as [Hc|Hc].
    + left. apply HO. exact Hc.
    + right. destruct (Hnew c Hc) as [-> _]. left. reflexivity.
  - intros c Hc. apply in_app_or in Hc. destruct Hc as [Hc|Hc]; [apply HF; exact Hc|].
    destruct (Hnew c Hc) as (_ & i & Hi). exists (doc_id d), i. exact Hi.
Qed.

Lemma chunkRecords_owner (d d' : Document) (texts : list jsstring) :
  doc_id d = doc_id d' ->
  forall idx vs, chunkRecords d idx texts vs = chunkRecords d' idx texts vs.
Proof.
  intros E. induction texts as [|t texts IH]; intros idx [|v vs]; simpl;
    try reflexivity.
  unfold chunkIdOf. rewrite E, IH. reflexivity.
Qed.

(** X15. [handleAddDocument] keeps the corpus in order. If the documents
    and chunks in memory have pairwise distinct ids, every chunk belongs
    to a listed document and has an id of the form [<id>_chk_<n>], and no
    id in memory begins with the new [uuid], then the same holds of the
    documents and chunks after the call, whether indexing succeeds or
    fails; and when it succeeds, the graph stored is the graph of the
    documents and chunks in memory, with no two nodes sharing an id and
    every link between two of its nodes. *)
Theorem handleAddDocument_keeps_corpus (st st' : AppState) (input : AddInput)
        (uuid : jsstring) (now : Z) (log log' : Log) :
  corpusOk (documents st) (chunks st) ->
  freshId uuid (map doc_id (documents st) ++ map chunk_id (chunks st)) ->
  handleAddDocument st input uuid now log = (Returned st', log') ->
  corpusOk (documents st') (chunks st') /\
  (app_error st' = None ->
   graphData st' = rebuildGraphFromChunks (documents st') (chunks st') /\
   wellFormedGraph (graphData st')).
Proof.
  intros Hok Hfresh. unfold handleAddDocument.
  destruct (readInput input) as [msg|p].
  - unfold ret. intros H. injection H as <- _. simpl.
    split; [exact Hok | discriminate].
  - set (newDoc := newDocument p uuid now).
    assert (Hnot : ~ In uuid (map doc_id (documents st))).
    { intros Hin. apply (freshId_spec uuid _ uuid [] Hfresh).
      - apply in_or_app. left. exact Hin.
      - symmetry. apply app_nil_r. }
    destruct (processDocument newDoc (settings st) log) as [[newChunks|e|] l] eqn:Hrun;
      try discriminate.
    + intros H. injection H as <- _.
      cbn [documents chunks graphData app_error].
      apply processDocument_returned in Hrun.
      destruct Hrun as (texts & vs & v0 & _ & Hl & -> & _).
      rewrite (replaceDoc_fresh (withStatus newDoc ready) newDoc (documents st)
                 eq_refl Hnot).
      assert (Hc : corpusOk (documents st ++ [withStatus newDoc ready])
                            (chunks st ++ chunkRecords newDoc 0 texts vs)).
      { rewrite (chunkRecords_owner newDoc (withStatus newDoc ready) texts eq_refl).
        apply (corpus_extended (documents st) (chunks st)
                 (withStatus newDoc ready) texts vs Hok Hfresh Hl). }
      split; [exact Hc|]. intros _. split; [reflexivity|].
      apply corpus_graph. exact Hc.
    + intros H. injection H as <- _.
      cbn [documents chunks graphData app_error].
      rewrite (replaceDoc_fresh (withStatus newDoc error) newDoc (documents st)
                 eq_refl Hnot).
      split; [|discriminate].
      pose proof (corpus_extended (documents st) (chunks st)
                    (withStatus newDoc error) [] [] Hok Hfresh eq_refl) as Hc.
      simpl in Hc. rewrite app_nil_r in Hc. exact Hc.
Qed.

Lemma filter_map_NoDup {A} (key : A -> jsstring) (keep : A -> bool)
      (items : list A) :
  NoDup (map key items) -> NoDup (map key (filter keep items)).
Proof.
  intros H. induction items as [|x items IH]; simpl; [constructor|].
  inversion H as [|? ? Hout Hrest]; subst.
  destruct (keep x); simpl; [|auto].
  constructor; [|auto]. intros Hin. apply Hout.
  apply in_map_iff in Hin. destruct Hin as (y & Hy & Hin).
  apply filter_In in Hin. apply in_map_iff. exists y. prop.
Qed.

Lemma corpus_reduced (docs : list Document) (cs : list TextChunk) (id : jsstring) :
  corpusOk docs cs ->
  corpusOk (filter (fun d => negb (jseqb (doc_id d) id)) docs)
           (filter (fun c => negb (jseqb (docId c) id)) cs).
Proof.
  intros (HN & HO & HF).
  destruct (NoDup_app_parts _ _ HN) as (N1 & N2 & D).
  split; [|split].
  - apply NoDup_app; [apply filter_map_NoDup; exact N1
                     | apply filter_map_NoDup; exact N2 |].
    intros a Ha Hb. apply (D a).
    + apply in_map_iff in Ha. destruct Ha as (x & <- & Hx).
      apply filter_In in Hx. apply in_map. prop.
    + apply in_map_iff in Hb. destruct Hb as (x & <- & Hx).
      apply filter_In in Hx. apply in_map. prop.
  - intros c Hc. apply filter_In in Hc. destruct Hc as [Hc Hk].
    specialize (HO c Hc). apply in_map_iff in HO. destruct HO as (d & Hd & Hin).
    apply in_map_iff. exists d. split; [exact Hd|].
    apply filter_In. split; [exact Hin|]. rewrite Hd. exact Hk.
  - intros c Hc. apply filter_In in Hc. apply HF. prop.
Qed.

(** X16. Confirming the removal of a document, when the store call
    resolves, leaves no document with that id and no chunk of that
    document, in memory or in the stores, and keeps every other document
    and chunk; the dialog is closed and the graph is rebuilt from what
    remains. A corpus in order stays in order, and its graph has no two
    nodes with one id and no link to a missing node. *)
Theorem confirm_remove_cascades (v : AppView) (id : jsstring) :
  let v' := confirm None (handleRemoveDocument v id) in
  let st := app v in
  let st' := app v' in
  confirmModal v' = None /\
  (forall d, In d (documents st') <-> In d (documents st) /\ doc_id d <> id) /\
  (forall c, In c (chunks st') <-> In c (chunks st) /\ docId c <> id) /\
  (forall d, In d (db_documents st') <-> In d (db_documents st) /\ doc_id d <> id) /\
  (forall c, In c (db_chunks st') <-> In c (db_chunks st) /\ docId c <> id) /\
  graphData st' = rebuildGraphFromChunks (documents st') (chunks st') /\
  (corpusOk (documents st) (chunks st) ->
   corpusOk (documents st') (chunks st') /\ wellFormedGraph (graphData st')).
Proof.
  intros v' st st'.
  assert (Ed : documents st'
               = filter (fun d => negb (jseqb (doc_id d) id)) (documents st))
    by reflexivity.
  assert (Ec : chunks st'
               = filter (fun c => negb (jseqb (docId c) id)) (chunks st))
    by reflexivity.
  assert (Edb : db_documents st'
                = filter (fun d => negb (jseqb (doc_id d) id)) (db_documents st))
    by reflexivity.
  assert (Ecb : db_chunks st'
                = filter (fun c => negb (jseqb (docId c) id)) (db_chunks st))
    by reflexivity.
  assert (Eg : graphData st'
               = rebuildGraphFromChunks (documents st') (chunks st'))
    by reflexivity.
  assert (F1 : forall (l : list Document) d,
            In d (filter (fun d => negb (jseqb (doc_id d) id)) l)
            <-> In d l /\ doc_id d <> id).
  { intros l d. rewrite filter_In, negb_true_iff. split; intros [H1 H2]; split; auto.
    - intros E. rewrite E, jseqb_refl in H2. discriminate.
    - apply jseqb_neq. exact H2. }
  assert (F2 : forall (l : list TextChunk) c,
            In c (filter (fun c => negb (jseqb (docId c) id)) l)
            <-> In c l /\ docId c <> id).
  { intros l c. rewrite filter_In, negb_true_iff. split; intros [H1 H2]; split; auto.
    - intros E. rewrite E, jseqb_refl in H2. discriminate.
    - apply jseqb_neq. exact H2. }
  split; [reflexivity|].
  split; [intros d; rewrite Ed; apply F1|].
  split; [intros c; rewrite Ec; apply F2|].
  split; [intros d; rewrite Edb; apply F1|].
  split; [intros c; rewrite Ecb; apply F2|].
  split; [exact Eg|].
  intros Hok. rewrite Eg, Ed, Ec.
  pose proof (corpus_reduced _ _ id Hok) as Hr.
  split; [exact Hr | apply corpus_graph; exact Hr].
Qed.

(** X17. Editing a document deletes the old version from the stores and
    then adds the new text as a new document under a new id; the lists in
    memory are not pruned. After [handleUpdateDocument], when the store
    call resolves and the new id differs from the old one, every document
    and chunk that was in memory is still there, the old version
    included, while the stores hold no document with the old id and no
    chunk of it, whether indexing the new text succeeds, fails or is
    refused. *)
Theorem handleUpdateDocument_keeps_old_version (st st' : AppState)
        (updatedDoc : Document) (uuid : jsstring) (now : Z) (log log' : Log) :
  uuid <> doc_id updatedDoc ->
  handleUpdateDocument st updatedDoc None uuid now log = (Returned st', log') ->
  (forall d, In d (documents st) -> doc_id d <> uuid -> In d (documents st')) /\
  (forall c, In c (chunks st) -> In c (chunks st')) /\
  (forall d, In d (db_documents st') -> doc_id d <> doc_id updatedDoc) /\
  (forall c, In c (db_chunks st') -> docId c <> doc_id updatedDoc).
Proof.
  intros Hneq. unfold handleUpdateDocument, handleAddDocument.
  set (id := doc_id updatedDoc) in *.
  assert (F1 : forall (l : list Document) d,
            In d (filter (fun d => negb (jseqb (doc_id d) id)) l) -> doc_id d <> id).
  { intros l d H E. apply filter_In in H. destruct H as [_ H].
    rewrite E, jseqb_refl in H. discriminate. }
  assert (F2 : forall (l : list TextChunk) c,
            In c (filter (fun c => negb (jseqb (docId c) id)) l) -> docId c <> id).
  { intros l c H E. apply filter_In in H. destruct H as [_ H].
    rewrite E, jseqb_refl in H. discriminate. }
  assert (R : forall (d x : Document) (l : list Document),
            In x l -> doc_id x <> doc_id d -> In x (replaceDoc d l)).
  { intros d x l Hx Hd. unfold replaceDoc. apply in_map_iff. exists x.
    rewrite jseqb_neq by exact Hd. prop. }
  destruct (readInput _) as [msg|p].
  - unfold ret. intros H. injection H as <- _.
    cbn [documents chunks db_documents db_chunks deleteDocument].
    repeat split; auto; [apply F1 | apply F2].
  - cbn [settings deleteDocument documents chunks db_documents db_chunks].
    destruct (processDocument (newDocument p uuid now) (settings st) log)
      as [[newChunks|e|] l] eqn:Hrun; try discriminate.
    + intros H. injection H as <- _.
      cbn [documents chunks db_documents db_chunks].
      apply processDocument_returned in Hrun.
      destruct Hrun as (texts & vs & v0 & _ & Hl & -> & _).
      split; [|split; [|split]].
      * intros d Hd Hid. apply R; [apply in_or_app; left; exact Hd | exact Hid].
      * intros c Hc. apply in_or_app. left. exact Hc.
      * intros d Hd. apply put_from in Hd. destruct Hd as [->|Hd];
          [exact Hneq | eapply F1; exact Hd].
      * intros c Hc. apply putAll_from in Hc. destruct Hc as [Hc|Hc];
          [|eapply F2; exact Hc].
        destruct (chunkRecords_forms _ _ _ _ _ Hc) as [-> _]. exact Hneq.
    + intros H. injection H as <- _.
      cbn [documents chunks db_documents db_chunks].
      split; [|split; [|split]].
      * intros d Hd Hid. apply R; [apply in_or_app; left; exact Hd | exact Hid].
      * auto.
      * apply F1.
      * apply F2.
Qed.

Lemma find_present {A} (p : A -> bool) (l : list A) (x : A) :
  In x l -> p x = true -> exists y, find p l = Some y /\ p y = true.
Proof.
  induction l as [|z l IH]; simpl; intros H Hp; [contradiction|].
  destruct (p z) eqn:E; [eauto|].
  destruct H as [->|H]; [congruence | apply IH; assumption].
Qed.

Lemma addEntity_origin (docs : list Document) (cs : list TextChunk)
      (c : TextChunk) (g : list GraphNode * list GraphLink) (ent : jsstring) :
  Forall (nodeOrigin docs cs) (fst g) ->
  Forall (nodeOrigin docs cs) (fst (addEntity c g ent)).
Proof.
  intros H. unfold addEntity. simpl.
  destruct (find _ (fst g)); [exact H|].
  apply Forall_app. split; [exact H|]. constructor; [|constructor].
  right. right. simpl. auto.
Qed.

Lemma addChunks_origin (docs : list Document) (cs rest : list TextChunk) :
  (forall c, In c rest -> In c cs) ->
  forall g,
    Forall (nodeOrigin docs cs) (fst g) ->
    Forall (nodeOrigin docs cs) (fst (fold_left addChunk rest g)).
Proof.
  induction rest as [|c rest IH]; intros Hsub g Hg; cbn [fold_left]; [exact Hg|].
  apply IH; [intros x Hx; apply Hsub; right; exact Hx|].
  unfold addChunk.
  assert (G : forall ents g0, Forall (nodeOrigin docs cs) (fst g0) ->
            Forall (nodeOrigin docs cs) (fst (fold_left (addEntity c) ents g0))).
  { induction ents as [|e ents IHe]; intros g0 H0; cbn [fold_left]; [exact H0|].
    apply IHe. apply addEntity_origin. exact H0. }
  apply G. cbn [fst]. apply Forall_app. split; [exact Hg|].
  constructor; [|constructor]. right. left. exists c. split; [|reflexivity].
  apply Hsub. left. reflexivity.
Qed.

(** X18. Every node of the full graph can be opened: for a node of the
    graph built from the documents and chunks in memory,
    [handleViewDocument], called with the id and the type of the node,
    sets a view of that type. The view of an entity node quotes the
    term of the entity, recovered from the id [ent_<term>]. *)
Theorem graph_nodes_can_be_viewed (st : AppState) (n : GraphNode) :
  In n (nodes (rebuildGraphFromChunks (documents st) (chunks st))) ->
  exists view,
    handleViewDocument st (node_id n) (node_type n) = Some view /\
    view_type view = node_type n /\
    (node_type n = entity ->
     view_content view
     = utf16 "این گره نشان‌دهنده مفهوم «" ++ label n ++ utf16 "» است.").
Proof.
  intros Hin.
  assert (Ho : nodeOrigin (documents st) (chunks st) n).
  { unfold rebuildGraphFromChunks in Hin. cbn [nodes] in Hin.
    rewrite docNodes_list in Hin. cbn [app] in Hin.
    assert (H0 : Forall (nodeOrigin (documents st) (chunks st))
                        (map docNode (documents st))).
    { rewrite Forall_forall. intros x Hx. apply in_map_iff in Hx.
      destruct Hx as (d & <- & Hd). left. exists d. auto. }
    pose proof (addChunks_origin (documents st) (chunks st) (chunks st)
                  (fun c H => H) (map docNode (documents st), []) H0) as H.
    rewrite Forall_forall in H. apply H. exact Hin. }
  destruct Ho as [(d & Hd & ->) | [(c & Hc & ->) | (Ht & Hid)]].
  - cbn [docNode node_id node_type handleViewDocument].
    destruct (find_present (fun x => jseqb (doc_id x) (doc_id d)) _ d Hd
                (jseqb_refl _)) as (y & -> & _).
    eexists. split; [reflexivity|]. split; [reflexivity | discriminate].
  - cbn [chunkNode node_id node_type handleViewDocument].
    destruct (find_present (fun x => jseqb (chunk_id x) (chunk_id c)) _ c Hc
                (jseqb_refl _)) as (y & -> & _).
    eexists. split; [reflexivity|]. split; [reflexivity | discriminate].
  - rewrite Ht, Hid. cbn [handleViewDocument].
    eexists. split; [reflexivity|]. split; [reflexivity|]. intros _.
    cbn [view_content]. reflexivity.
Qed.


(** ** File import *)

Lemma isExtension_dot (d : Z) (r : jsstring) :
  isExtension (d :: r) = true -> d = 46.
Proof.
  unfold isExtension. destruct d as [|p|p]; try discriminate.
  do 6 (destruct p as [p|p|]; try discriminate). reflexivity.
Qed.

Lemma isExtension_spec (s : jsstring) :
  isExtension s = true <->
  exists ext, ext <> [] /\ Forall (fun c => c <> 46 /\ c <> 47) ext /\ s = 46 :: ext.
Proof.
  split.
  - destruct s as [|d r]; [discriminate|].
    intros H. pose proof (isExtension_dot _ _ H) as ->.
    destruct r as [|c r]; [discriminate|].
    exists (c :: r). split; [discriminate|]. split; [|reflexivity].
    change (forallb (fun x => negb (x =? 47) && negb (x =? 46)) (c :: r) = true) in H.
    rewrite forallb_forall in H. apply Forall_forall. intros x Hx.
    specialize (H x Hx). apply andb_prop in H. destruct H as [H1 H2].
    apply negb_true_iff in H1, H2. apply Z.eqb_neq in H1, H2. auto.
  - intros (ext & Hne & Hall & ->). destruct ext as [|c r]; [congruence|].
    change (forallb (fun x => negb (x =? 47) && negb (x =? 46)) (c :: r) = true).
    apply forallb_forall. intros x Hx. rewrite Forall_forall in Hall.
    destruct (Hall x Hx) as [H1 H2].
    apply Z.eqb_neq in H1, H2. rewrite H1, H2. reflexivity.
Qed.

Lemma stripExtension_spec (name : jsstring) :
  (exists ext, ext <> [] /\ Forall (fun c => c <> 46 /\ c <> 47) ext /\
               name = stripExtension name ++ 46 :: ext) \/
  (stripExtension name = name /\
   forall stem ext, name = stem ++ 46 :: ext ->
     ext = [] \/ Exists (fun c => c = 46 \/ c = 47) ext).
Proof.
  induction name as [|c r IH].
  - right. split; [reflexivity|]. intros [|x stem] ext H; discriminate.
  - change (stripExtension (c :: r))
      with (if isExtension (c :: r) then [] else c :: stripExtension r).
    destruct (isExtension (c :: r)) eqn:E.
    + left. apply isExtension_spec in E. destruct E as (ext & H1 & H2 & H3).
      exists ext. auto.
    + destruct IH as [(ext & H1 & H2 & H3)|[H1 H2]].
      * left. exists ext. split; [exact H1|]. split; [exact H2|].
        simpl. congruence.
      * right. split; [congruence|]. intros stem ext Hs.
        destruct stem as [|x stem].
        -- simpl in Hs. injection Hs as -> ->.
           destruct ext as [|e ext]; [left; reflexivity|right].
           apply Exists_exists.
           assert (Hn : ~ Forall (fun c => c <> 46 /\ c <> 47) (e :: ext)).
           { intros HF. assert (isExtension (46 :: e :: ext) = true).
             { apply isExtension_spec. exists (e :: ext).
               split; [discriminate|]. auto. }
             congruence. }
           apply neg_Forall_Exists_neg in Hn.
           ++ apply Exists_exists in Hn. destruct Hn as (x & Hx & Hnx).
              exists x. split; [exact Hx|].
              destruct (Z.eq_dec x 46); [auto|].
              destruct (Z.eq_dec x 47); [auto|]. exfalso. apply Hnx. auto.
           ++ intros x. destruct (Z.eq_dec x 46); [right; prop|].
              destruct (Z.eq_dec x 47); [right; prop|]. left. auto.
        -- simpl in Hs. injection Hs as -> Hr. apply (H2 stem ext Hr).
Qed.

Lemma join_cons2 (sep w w' : jsstring) (ws : list jsstring) :
  join sep (w :: w' :: ws) = w ++ sep ++ join sep (w' :: ws).
Proof. reflexivity. Qed.

Lemma join_words_ends (words : list jsstring) :
  Forall properWord words -> words <> [] ->
  (exists h t, join [SPACE] words = h :: t /\ isWhiteSpace h = false) /\
  (exists i l, join [SPACE] words = i ++ [l] /\ isWhiteSpace l = false).
Proof.
  induction words as [|w ws IH]; [congruence|]. intros HF _.
  inversion HF as [|? ? [Hne Hw] HF']; subst.
  destruct ws as [|w' ws].
  - simpl. split.
    + destruct w as [|h t]; [congruence|]. inversion Hw; subst. eauto.
    + destruct (exists_last Hne) as (i & l & ->).
      apply Forall_app in Hw. destruct Hw as [_ Hl]. inversion Hl; subst. eauto.
  - rewrite join_cons2. destruct (IH HF') as [_ (i & l & Hj & Hl)]; [discriminate|].
    split.
    + destruct w as [|h t]; [congruence|]. inversion Hw; subst.
      exists h. eexists. split; [reflexivity|assumption].
    + exists (w ++ [SPACE] ++ i), l. rewrite Hj, !app_assoc. auto.
Qed.

Lemma collapse_words (s : jsstring) : forall inRun,
  exists (lead trail : bool) (words : list jsstring),
    Forall properWord words /\
    collapseWhiteSpace inRun s
    = (if lead then [SPACE] else []) ++ join [SPACE] words
      ++ (if trail then [SPACE] else []) /\
    (inRun = true -> lead = false) /\
    (words = [] -> trail = false).
Proof.
  induction s as [|c r IH]; intros inRun.
  - exists false, false, []. simpl. auto.
  - simpl. destruct (isWhiteSpace c) eqn:Ec.
    + destruct (IH true) as (lead & trail & words & HF & Heq & Hl & Ht).
      rewrite (Hl eq_refl) in Heq. simpl in Heq.
      destruct inRun.
      * exists false, trail, words. simpl. auto.
      * exists true, trail, words. rewrite Heq. simpl.
        repeat split; auto; discriminate.
    + destruct (IH false) as (lead & trail & words & HF & Heq & Hl & Ht).
      rewrite Heq. destruct lead.
      * destruct words as [|w ws].
        -- exists false, true, [[c]]. rewrite (Ht eq_refl). simpl.
           repeat split; auto; try discriminate.
           constructor; [|constructor]. split; [discriminate|]. auto.
        -- exists false, trail, ([c] :: w :: ws). rewrite join_cons2. simpl.
           repeat split; auto; try discriminate.
           constructor; [|assumption]. split; [discriminate|]. auto.
      * destruct words as [|w ws].
        -- exists false, false, [[c]]. rewrite (Ht eq_refl). simpl.
           repeat split; auto; try discriminate.
           constructor; [|constructor]. split; [discriminate|]. auto.
        -- exists false, trail, ((c :: w) :: ws).
           inversion HF as [|? ? [Hne Hw] HF']; subst.
           split.
           { constructor; [|assumption]. split; [discriminate|]. auto. }
           split; [|split; [auto|discriminate]].
           destruct ws; reflexivity.
Qed.

Lemma trim_words (lead trail : bool) (words : list jsstring) :
  Forall properWord words -> (words = [] -> trail = false) ->
  trim ((if lead then [SPACE] else []) ++ join [SPACE] words
        ++ (if trail then [SPACE] else []))
  = join [SPACE] words.
Proof.
  intros HF Ht. destruct words as [|w ws].
  - rewrite (Ht eq_refl). destruct lead; reflexivity.
  - destruct (join_words_ends (w :: ws) HF) as [(h & t & Hj & Hh) (i & l & Hi & Hl)];
      [discriminate|].
    unfold trim.
    assert (H1 : dropWhile isWhiteSpace
                   ((if lead then [SPACE] else []) ++ join [SPACE] (w :: ws)
                    ++ (if trail then [SPACE] else []))
                 = join [SPACE] (w :: ws) ++ (if trail then [SPACE] else [])).
    { rewrite Hj. destruct lead; simpl; rewrite Hh; reflexivity. }
    rewrite H1, Hi. rewrite !rev_app_distr. simpl.
    destruct trail; simpl; rewrite Hl; simpl;
      rewrite rev_involutive; reflexivity.
Qed.

Lemma splitWhiteSpace_word (w : jsstring) : forall (inRun : bool) (cur s : jsstring),
  w <> [] -> Forall (fun c => isWhiteSpace c = false) w ->
  splitWhiteSpace inRun cur (w ++ s) = splitWhiteSpace false (cur ++ w) s.
Proof.
  induction w as [|c r IH]; [congruence|]. intros inRun cur s _ Hw.
  inversion Hw as [|? ? Hc Hr]; subst. simpl. rewrite Hc.
  destruct r as [|c' r'].
  - simpl. reflexivity.
  - rewrite (IH false (cur ++ [c]) s); [|discriminate|assumption].
    rewrite <- app_assoc. reflexivity.
Qed.

Lemma splitWhiteSpace_words (words : list jsstring) : forall inRun,
  Forall properWord words -> words <> [] ->
  splitWhiteSpace inRun [] (join [SPACE] words) = words.
Proof.
  induction words as [|w ws IH]; [congruence|]. intros inRun HF _.
  inversion HF as [|? ? [Hne Hw] HF']; subst.
  destruct ws as [|w' ws].
  - simpl. rewrite <- (app_nil_r w) at 1.
    rewrite splitWhiteSpace_word; auto.
  - rewrite join_cons2, splitWhiteSpace_word; auto.
    simpl. f_equal. apply IH; [assumption|discriminate].
Qed.

(** X19. The title [processFile] gives to an imported file is the file
    name without its last extension: either the name is the title followed
    by a dot and a non-empty extension free of dots and slashes, or the
    title is the whole name and the name ends in no such extension. *)
Theorem processFile_title (file : File) (found : FileContents)
        (t content : jsstring) :
  processFile file found = inr (t, content) ->
  (exists ext, ext <> [] /\ Forall (fun c => c <> 46 /\ c <> 47) ext /\
               file_name file = t ++ 46 :: ext) \/
  (t = file_name file /\
   forall stem ext, file_name file = stem ++ 46 :: ext ->
     ext = [] \/ Exists (fun c => c = 46 \/ c = 47) ext).
Proof.
  unfold processFile.
  match goal with
  | |- match ?a with _ => _ end = _ -> _ => destruct a as [c|m]
  end; [|discriminate].
  intros H. injection H as <- _.
  destruct (stripExtension_spec (file_name file)) as [H|[H1 H2]].
  - left. exact H.
  - right. split; [exact H1|exact H2].
Qed.

(** X20. When [processFile] throws, because the type of the file is not
    supported or because the reader fails, the message names the file
    after a fixed prefix, and [handleAddDocument] stops there: it makes no
    embedding call, leaves the documents, the chunks, the graph and the
    stores as they were, whatever was typed in the form, and sets the
    message as the error. *)
Theorem handleAddDocument_file_failure (st : AppState)
        (formTitle formContent : jsstring) (file : File)
        (found : FileContents) (e : Error)
        (uuid : jsstring) (now : Z) (log : Log) :
  processFile file found = inl e ->
  (exists m, e = utf16 "خطا در خواندن فایل " ++ file_name file ++ utf16 ": " ++ m) /\
  exists st',
    handleAddDocument st (fileInput formTitle formContent file found) uuid now log
    = (Returned st', log) /\
    documents st' = documents st /\ chunks st' = chunks st /\
    graphData st' = graphData st /\
    db_documents st' = db_documents st /\ db_chunks st' = db_chunks st /\
    app_error st' = Some e /\ isLoading st' = false.
Proof.
  intros H. split.
  - revert H. unfold processFile.
    match goal with
    | |- match ?a with _ => _ end = _ -> _ => destruct a as [c|m]
    end; [discriminate|].
    intros H. injection H as <-. eexists. reflexivity.
  - unfold handleAddDocument, readInput, fileInput. cbn [input_file].
    rewrite H. eexists. split; [reflexivity|]. cbn. auto 10.
Qed.

(** X21. The text [processFile] returns for a PDF document is made of
    words separated by single spaces: it has no white space at either end,
    none but the space, and no two spaces in a row. Splitting it at white
    space, as [chunkText] does, gives these words back; and a document
    without any word is refused by [handleAddDocument] as an empty one. *)
Theorem processFile_pdf_words (file : File) (found : FileContents)
        (pages : list (list jsstring)) :
  file_type file = utf16 "application/pdf" ->
  asPdf found = Loaded pages ->
  exists words,
    Forall properWord words /\
    processFile file found
    = inr (stripExtension (file_name file), join [SPACE] words) /\
    (words <> [] -> splitWhiteSpace false [] (join [SPACE] words) = words) /\
    (words = [] ->
     forall formTitle formContent,
       readInput (fileInput formTitle formContent file found)
       = inl (utf16 "محتوای سند خالی است.")).
Proof.
  intros Ht Hp.
  destruct (collapse_words
              (fold_left (fun fullText items =>
                            fullText ++ join [SPACE] items ++ [10; 10]) pages [])
              false)
    as (lead & trail & words & HF & Heq & _ & Htr).
  exists words.
  assert (Hrun : processFile file found
                 = inr (stripExtension (file_name file), join [SPACE] words)).
  { unfold processFile, readPdfFile. rewrite Ht, jseqb_refl, Hp, Heq.
    rewrite trim_words; auto. }
  split; [exact HF|]. split; [exact Hrun|]. split.
  - intros Hne. apply splitWhiteSpace_words; assumption.
  - intros -> formTitle formContent.
    unfold readInput, fileInput. cbn [input_file]. rewrite Hrun. reflexivity.
Qed.

(** ** Sources of an answer *)

Lemma mapGet_none {V} (k : jsstring) (m : list (jsstring * V)) :
  mapGet k m = None -> ~ In k (map fst m).
Proof.
  induction m as [|e r IH]; simpl; [prop|].
  destruct (jseqb (fst e) k) eqn:E; [discriminate|].
  intros H [Hk|Hk]; [|exact (IH H Hk)].
  rewrite Hk, jseqb_refl in E. discriminate.
Qed.

Lemma mapGet_some {V} (k : jsstring) (m : list (jsstring * V)) (v : V) :
  mapGet k m = Some v -> In (k, v) m.
Proof.
  induction m as [|e r IH]; simpl; [discriminate|].
  destruct (jseqb (fst e) k) eqn:E.
  - intros H. injection H as <-. apply jseqb_eq in E. left.
    destruct e; simpl in *; congruence.
  - auto.
Qed.

Lemma mapSet_keys {V} (k : jsstring) (v : V) (m : list (jsstring * V)) :
  map fst (mapSet k v m)
  = match mapGet k m with
    | Some _ => map fst m
    | None => map fst m ++ [k]
    end.
Proof.
  induction m as [|e r IH]; simpl; [reflexivity|].
  destruct (jseqb (fst e) k) eqn:E; simpl.
  - apply jseqb_eq in E. congruence.
  - rewrite IH. destruct (mapGet k r); reflexivity.
Qed.

Lemma mapSet_entries {V} (k : jsstring) (v : V) (m : list (jsstring * V))
      (k' : jsstring) (v' : V) :
  NoDup (map fst m) ->
  In (k', v') (mapSet k v m) ->
  (k' = k /\ v' = v) \/ (k' <> k /\ In (k', v') m).
Proof.
  induction m as [|e r IH]; simpl; intros Hnd.
  - intros [H|[]]. injection H as <- <-. auto.
  - inversion Hnd as [|? ? Hn Hnd']; subst.
    destruct (jseqb (fst e) k) eqn:E.
    + apply jseqb_eq in E. intros [H|H].
      * injection H as <- <-. auto.
      * right. split; [|auto]. intros ->. apply Hn. rewrite E.
        apply (in_map fst) in H. exact H.
    + intros [H|H].
      * right. split; [|auto]. intros ->. subst e. simpl in E.
        rewrite jseqb_refl in E. discriminate.
      * destruct (IH Hnd' H) as [?|[? ?]]; auto.
Qed.

Lemma filter_snoc {A} (p : A -> bool) (l : list A) (x : A) :
  filter p (l ++ [x]) = filter p l ++ (if p x then [x] else []).
Proof. rewrite filter_app. reflexivity. Qed.

(** What the map of [getUniqueContexts] holds once the contexts [done]
    have been grouped. *)
Lemma groupByDoc_spec (contexts : list RetrievalContext) :
  let grouped := groupByDoc contexts in
  NoDup (map fst grouped) /\
  (forall k items, In (k, items) grouped ->
     items <> [] /\
     items = filter (fun c => jseqb (ctx_docId c) k) contexts) /\
  (forall c, In c contexts -> In (ctx_docId c) (map fst grouped)).
Proof.
  unfold groupByDoc.
  set (step := fun grouped ctx =>
                 mapSet (ctx_docId ctx)
                   (match mapGet (ctx_docId ctx) grouped with
                    | Some items => items
                    | None => []
                    end ++ [ctx]) grouped).
  assert (G : forall todo done g,
    NoDup (map fst g) /\
    (forall k items, In (k, items) g ->
       items <> [] /\ items = filter (fun c => jseqb (ctx_docId c) k) done) /\
    (forall c, In c done -> In (ctx_docId c) (map fst g)) ->
    let g' := fold_left step todo g in
    NoDup (map fst g') /\
    (forall k items, In (k, items) g' ->
       items <> [] /\
       items = filter (fun c => jseqb (ctx_docId c) k) (done ++ todo)) /\
    (forall c, In c (done ++ todo) -> In (ctx_docId c) (map fst g'))).
  { induction todo as [|ctx todo IH]; intros done g (Hnd & Hit & Hk).
    - simpl. rewrite app_nil_r. auto.
    - simpl.
      replace (done ++ ctx :: todo) with ((done ++ [ctx]) ++ todo)
        by (rewrite <- app_assoc; reflexivity).
      apply IH. unfold step.
      assert (Hkeys := mapSet_keys (ctx_docId ctx)
                 (match mapGet (ctx_docId ctx) g with
                  | Some items => items
                  | None => []
                  end ++ [ctx]) g).
      split; [|split].
      + rewrite Hkeys. destruct (mapGet (ctx_docId ctx) g) eqn:E; [exact Hnd|].
        apply mapGet_none in E. apply NoDup_app; repeat split; auto.
        * constructor; [intros []|constructor].
        * intros x Hx [<-|[]]. exact (E Hx).
      + intros k items Hin.
        apply mapSet_entries in Hin; [|exact Hnd].
        destruct Hin as [[-> ->]|[Hne Hin]].
        * split; [destruct (mapGet (ctx_docId ctx) g); intros H;
                  apply app_eq_nil in H; destruct H; discriminate|].
          rewrite filter_snoc, jseqb_refl. f_equal.
          destruct (mapGet (ctx_docId ctx) g) eqn:E.
          -- apply mapGet_some in E. apply Hit in E. prop.
          -- apply mapGet_none in E. symmetry.
             destruct (filter (fun c => jseqb (ctx_docId c) (ctx_docId ctx)) done)
               as [|c l] eqn:F; [reflexivity|].
             exfalso. assert (Hc : In c (c :: l)) by (left; reflexivity).
             rewrite <- F in Hc. apply filter_In in Hc. destruct Hc as [Hc Hj].
             apply jseqb_eq in Hj. apply E. rewrite <- Hj. auto.
        * destruct (Hit k items Hin) as [H1 H2]. split; [exact H1|].
          rewrite filter_snoc, jseqb_neq, app_nil_r; auto.
      + intros c Hc. rewrite Hkeys. apply in_app_or in Hc.
        destruct Hc as [Hc|[<-|[]]].
        * destruct (mapGet (ctx_docId ctx) g); [auto|].
          apply in_or_app. left. auto.
        * destruct (mapGet (ctx_docId ctx) g) eqn:E.
          -- apply mapGet_some in E. apply (in_map fst) in E. exact E.
          -- apply in_or_app. right. left. reflexivity. }
  cbv zeta. apply (G contexts [] []). simpl.
  split; [constructor|]. split; intros; contradiction.
Qed.

Lemma leb_self (x : float) : (0.25 <? x)%float = true -> (x <=? x)%float = true.
Proof.
  intros H. destruct (x <? x)%float eqn:E.
  - apply ltb_leb. exact E.
  - apply not_ltb_leb; assumption.
Qed.

Lemma fold_better (r : list RetrievalContext) : forall acc,
  (0.25 <? score acc)%float = true ->
  Forall (fun c => (0.25 <? score c)%float = true) r ->
  let b := fold_left better r acc in
  (0.25 <? score b)%float = true /\
  (score acc <=? score b)%float = true /\
  forall c, In c r -> (score c <=? score b)%float = true.
Proof.
  induction r as [|y r IH]; intros acc Ha Hr; simpl.
  - split; [exact Ha|]. split; [apply leb_self; exact Ha|]. intros c [].
  - inversion Hr as [|? ? Hy Hr']; subst.
    assert (Hb : (0.25 <? score (better acc y))%float = true).
    { unfold better. destruct (score y <? score acc)%float; assumption. }
    destruct (IH (better acc y) Hb Hr') as (H1 & H2 & H3).
    split; [exact H1|].
    assert (Hacc : (score acc <=? score (better acc y))%float = true).
    { unfold better. destruct (score y <? score acc)%float eqn:E.
      - apply leb_self. exact Ha.
      - apply not_ltb_leb; assumption. }
    assert (Hyb : (score y <=? score (better acc y))%float = true).
    { unfold better. destruct (score y <? score acc)%float eqn:E.
      - apply ltb_leb. exact E.
      - apply leb_self. exact Hy. }
    split.
    + apply (score_leb_trans _ (score (better acc y))); assumption.
    + intros c [<-|Hc]; [|auto].
      apply (score_leb_trans _ (score (better acc y))); assumption.
Qed.

Lemma fold_better_in (r : list RetrievalContext) : forall acc,
  In (fold_left better r acc) (acc :: r).
Proof.
  induction r as [|y r IH]; intros acc; simpl; [auto|].
  destruct (IH (better acc y)) as [H|H]; [|auto].
  rewrite <- H. unfold better. destruct (score y <? score acc)%float; auto.
Qed.

Lemma bestOfEach_spec (entries : list (jsstring * list RetrievalContext)) :
  Forall (fun e => snd e <> []) entries ->
  exists us,
    bestOfEach entries = Some us /\
    Forall2 (fun e u => reduce better (snd e) = Some (bestItem u) /\
                        chunkCount u = List.length (snd e)) entries us.
Proof.
  induction entries as [|e r IH]; intros HF.
  - exists []. split; [reflexivity|constructor].
  - inversion HF as [|? ? He Hr]; subst.
    destruct (IH Hr) as (us & Hus & H2). simpl. rewrite Hus.
    destruct (snd e) as [|x items] eqn:E; [congruence|]. simpl.
    eexists. split; [reflexivity|]. constructor; [|exact H2].
    rewrite E. simpl. auto.
Qed.

Lemma Forall2_right {A B} (R : A -> B -> Prop) (l : list A) (l' : list B) (y : B) :
  Forall2 R l l' -> In y l' -> exists x, In x l /\ R x y.
Proof.
  induction 1 as [|a b l l' Hab _ IH]; intros Hin; [contradiction|].
  destruct Hin as [<-|Hin].
  - exists a. split; [left; reflexivity|exact Hab].
  - destruct (IH Hin) as (x & Hx & Hr). exists x. split; [right; exact Hx|exact Hr].
Qed.

Lemma Forall2_left {A B} (R : A -> B -> Prop) (l : list A) (l' : list B) (x : A) :
  Forall2 R l l' -> In x l -> exists y, In y l' /\ R x y.
Proof.
  induction 1 as [|a b l l' Hab _ IH]; intros Hin; [contradiction|].
  destruct Hin as [<-|Hin].
  - exists b. split; [left; reflexivity|exact Hab].
  - destruct (IH Hin) as (y & Hy & Hr). exists y. split; [right; exact Hy|exact Hr].
Qed.

Lemma reduce_better_key (k : jsstring) (contexts : list RetrievalContext)
      (b : RetrievalContext) :
  reduce better (filter (fun c => jseqb (ctx_docId c) k) contexts) = Some b ->
  In b contexts /\ ctx_docId b = k.
Proof.
  destruct (filter (fun c => jseqb (ctx_docId c) k) contexts) as [|x r] eqn:F;
    [discriminate|].
  simpl. intros H. injection H as <-.
  pose proof (fold_better_in r x) as Hin. rewrite <- F in Hin.
  apply filter_In in Hin. destruct Hin as [H1 H2]. apply jseqb_eq in H2. auto.
Qed.

(** X22. [getUniqueContexts] never throws and returns one entry per
    document among the contexts: the entries have pairwise distinct
    document ids, every context has the document id of one of them, every
    entry is a context of the list, and its [chunkCount] is the number of
    contexts of its document. When the scores are above 0.25, as
    [retrieveContext] returns them, no context of the document scores more
    than the entry shown. *)
Theorem getUniqueContexts_groups (contexts : list RetrievalContext) :
  exists us,
    getUniqueContexts (Some contexts) = Some us /\
    NoDup (map (fun u => ctx_docId (bestItem u)) us) /\
    (forall c, In c contexts ->
       exists u, In u us /\ ctx_docId (bestItem u) = ctx_docId c) /\
    (forall u, In u us ->
       In (bestItem u) contexts /\
       chunkCount u
       = List.length (filter (fun c => jseqb (ctx_docId c) (ctx_docId (bestItem u)))
                             contexts) /\
       (Forall (fun c => (0.25 <? score c)%float = true) contexts ->
        forall c, In c contexts -> ctx_docId c = ctx_docId (bestItem u) ->
                  (score c <=? score (bestItem u))%float = true)).
Proof.
  destruct (groupByDoc_spec contexts) as (Hnd & Hit & Hk).
  destruct (bestOfEach_spec (groupByDoc contexts)) as (us & Hus & H2).
  { apply Forall_forall. intros [k items] Hin. apply (Hit k items Hin). }
  assert (Hkey : Forall2 (fun e u => fst e = ctx_docId (bestItem u))
                         (groupByDoc contexts) us).
  { clear Hus. revert H2.
    assert (Hall : forall e, In e (groupByDoc contexts) -> In e (groupByDoc contexts))
      by auto.
    revert Hall. generalize (groupByDoc contexts) at 1 3 4.
    intros l Hall H2. induction H2 as [|e u l us' [Hr _] _ IH]; constructor.
    - destruct e as [k items]. simpl in *.
      destruct (Hit k items (Hall _ (or_introl eq_refl))) as [_ ->].
      apply reduce_better_key in Hr. symmetry. prop.
    - apply IH. intros e' He'. apply Hall. right. exact He'. }
  assert (Hmap : map fst (groupByDoc contexts)
                 = map (fun u => ctx_docId (bestItem u)) us).
  { clear -Hkey. induction Hkey; simpl; congruence. }
  exists us. split; [exact Hus|]. split; [rewrite <- Hmap; exact Hnd|]. split.
  - intros c Hc. specialize (Hk c Hc). rewrite Hmap in Hk.
    apply in_map_iff in Hk. destruct Hk as (u & Hu & Hin). eauto.
  - intros u Hu.
    destruct (Forall2_right _ _ _ _ H2 Hu) as ([k items] & He & Hr & Hc).
    simpl in Hr, Hc. destruct (Hit k items He) as [Hne ->].
    pose proof (reduce_better_key _ _ _ Hr) as [Hin Hkb].
    split; [exact Hin|]. rewrite Hkb. split; [exact Hc|].
    intros Hpos c Hcin Hcd.
    destruct (filter (fun c => jseqb (ctx_docId c) k) contexts) as [|x r] eqn:F;
      [congruence|].
    simpl in Hr. injection Hr as Hb.
    assert (HF : Forall (fun c => (0.25 <? score c)%float = true) (x :: r)).
    { apply Forall_forall. intros y Hy. rewrite <- F in Hy.
      apply filter_In in Hy. rewrite Forall_forall in Hpos. apply Hpos. prop. }
    apply Forall_cons_iff in HF. destruct HF as [Hx Hr'].
    destruct (fold_better r x Hx Hr') as (_ & H3 & H4).
    assert (Hcf : In c (x :: r)).
    { rewrite <- F. apply filter_In. split; [exact Hcin|].
      apply jseqb_eq. exact Hcd. }
    rewrite <- Hb. destruct Hcf as [<-|Hcf]; auto.
Qed.

(** ** Inference roadmap *)

Lemma hasNode_true (id : jsstring) (ns : list RoadmapNode) :
  hasNode id ns = true -> In id (map rm_id ns).
Proof.
  unfold hasNode. destruct (find _ ns) as [n|] eqn:E; [|discriminate].
  intros _. apply find_some in E. destruct E as [Hin Heq].
  apply jseqb_eq in Heq. rewrite <- Heq. apply in_map. exact Hin.
Qed.

Lemma hasNode_false (id : jsstring) (ns : list RoadmapNode) :
  hasNode id ns = false -> ~ In id (map rm_id ns).
Proof.
  unfold hasNode. destruct (find _ ns) as [n|] eqn:E; [discriminate|].
  intros _ Hin. apply in_map_iff in Hin. destruct Hin as (n & Hid & Hin).
  pose proof (find_none _ _ E n Hin) as Hn. cbv beta in Hn.
  rewrite Hid, jseqb_refl in Hn. discriminate.
Qed.

Lemma NoDup_snoc {A} (l : list A) (x : A) :
  NoDup l -> ~ In x l -> NoDup (l ++ [x]).
Proof.
  intros Hl Hx. apply NoDup_app; repeat split; auto.
  - constructor; [intros []|constructor].
  - intros y Hy [<-|[]]. exact (Hx Hy).
Qed.

Lemma addRoadmapEntities_effect (cid : jsstring) (ents : list jsstring) :
  forall g,
  let g' := fold_left (addRoadmapEntity cid) ents g in
  (exists extra,
     rm_nodes g' = rm_nodes g ++ extra /\
     Forall (fun n => rm_type n = entity /\ In (rm_label n) ents /\
                      rm_id n = utf16 "ent_" ++ rm_label n) extra) /\
  (NoDup (roadmapIds g) -> NoDup (roadmapIds g')) /\
  (forall e, In e ents -> In (utf16 "ent_" ++ e) (roadmapIds g')) /\
  rm_links g'
  = rm_links g ++ map (fun e => {| source := cid; target := utf16 "ent_" ++ e;
                                   link_type := mentions; weight := None |})
                      ents.
Proof.
  induction ents as [|e ents IH]; intros g.
  - simpl. split; [exists []; rewrite app_nil_r; auto|].
    split; [auto|]. split; [intros e []|]. rewrite app_nil_r. reflexivity.
  - cbn [fold_left]. cbv zeta.
    destruct (IH (addRoadmapEntity cid g e)) as ((extra & Hn & Hx) & Hnd & Hin & Hl).
    assert (Hstep : exists x,
              rm_nodes (addRoadmapEntity cid g e) = rm_nodes g ++ x /\
              Forall (fun n => rm_type n = entity /\ rm_label n = e /\
                               rm_id n = utf16 "ent_" ++ rm_label n) x /\
              (NoDup (roadmapIds g) ->
               NoDup (roadmapIds (addRoadmapEntity cid g e))) /\
              In (utf16 "ent_" ++ e) (roadmapIds (addRoadmapEntity cid g e))).
    { unfold addRoadmapEntity, roadmapIds. cbn [rm_nodes].
      destruct (hasNode (utf16 "ent_" ++ e) (rm_nodes g)) eqn:E.
      - exists []. rewrite app_nil_r. split; [reflexivity|].
        split; [constructor|]. split; [auto|]. apply hasNode_true. exact E.
      - exists [roadmapEntityNode e]. split; [reflexivity|]. split.
        + constructor; [|constructor]. cbn. auto.
        + rewrite map_app. cbn [map rm_id]. split.
          * intros H. apply NoDup_snoc; [exact H|]. apply hasNode_false. exact E.
          * apply in_or_app. right. left. reflexivity. }
    destruct Hstep as (x & Hx1 & Hx2 & Hx3 & Hx4).
    split; [|split; [|split]].
    + exists (x ++ extra). rewrite Hn, Hx1, app_assoc. split; [reflexivity|].
      apply Forall_app. split.
      * eapply Forall_impl; [|exact Hx2]. cbv beta. intros n (H1 & H2 & H3).
        split; [exact H1|]. split; [left; auto|exact H3].
      * eapply Forall_impl; [|exact Hx]. cbv beta. intros n (H1 & H2 & H3).
        split; [exact H1|]. split; [right; exact H2|exact H3].
    + auto.
    + intros e' [<-|He'].
      * unfold roadmapIds in *. rewrite Hn, map_app. apply in_or_app. left.
        exact Hx4.
      * auto.
    + rewrite Hl. unfold addRoadmapEntity at 1. cbn [rm_links map].
      rewrite <- app_assoc. reflexivity.
Qed.

Lemma existsb_jseqb (id : jsstring) (l : list jsstring) :
  existsb (jseqb id) l = true <-> In id l.
Proof.
  rewrite existsb_exists. split.
  - intros (x & Hx & He). apply jseqb_eq in He. congruence.
  - intros H. exists id. split; [exact H|apply jseqb_refl].
Qed.

Lemma addContext_effect (st : Roadmap * list jsstring) (idx : nat)
      (ctx : RetrievalContext) :
  let qid := utf16 "query_root" in
  let st' := addContext qid st (idx, ctx) in
  let ids := roadmapIds (fst st) in
  exists x1 x2 x3 l1,
    rm_nodes (fst st') = rm_nodes (fst st) ++ x1 ++ x2 ++ x3 /\
    ((x1 = [] /\ In (chunkId ctx) ids /\ l1 = []) \/
     (x1 = [roadmapChunkNode idx ctx] /\
      ~ In (chunkId ctx) ids /\
      l1 = [{| source := qid; target := chunkId ctx; link_type := similar_to;
               weight := Some (score ctx) |}])) /\
    ((x2 = [] /\ In (ctx_docId ctx) (snd st) /\ snd st' = snd st) \/
     (x2 = [roadmapDocNode ctx] /\
      ~ In (ctx_docId ctx) (snd st) /\ snd st' = snd st ++ [ctx_docId ctx])) /\
    Forall (fun n => rm_type n = entity /\
                     In (rm_label n) (relatedEntities ctx) /\
                     rm_id n = utf16 "ent_" ++ rm_label n) x3 /\
    (NoDup (ids ++ map rm_id x1 ++ map rm_id x2) ->
     NoDup (roadmapIds (fst st'))) /\
    (forall e, In e (relatedEntities ctx) ->
               In (utf16 "ent_" ++ e) (roadmapIds (fst st'))) /\
    rm_links (fst st')
    = rm_links (fst st) ++ l1
      ++ [{| source := chunkId ctx; target := ctx_docId ctx;
             link_type := contains; weight := None |}]
      ++ map (fun e => {| source := chunkId ctx; target := utf16 "ent_" ++ e;
                          link_type := mentions; weight := None |})
             (relatedEntities ctx).
Proof.
  destruct st as [g added]. cbv zeta. unfold addContext. cbn [fst snd].
  match goal with
  | |- context [fold_left (addRoadmapEntity ?c) ?ents ?g2] =>
    destruct (addRoadmapEntities_effect c ents g2)
      as ((x3 & Hn & Hx3) & Hnd & Hin & Hl)
  end.
  rewrite Hn, Hl. clear Hn Hl. cbn [rm_nodes rm_links].
  destruct (hasNode (chunkId ctx) (rm_nodes g)) eqn:E1;
    destruct (existsb (jseqb (ctx_docId ctx)) added) eqn:E2;
    cbn [rm_nodes rm_links] in *.
  - apply hasNode_true in E1. apply existsb_jseqb in E2.
    exists [], [], x3, []. split; [reflexivity|].
    split; [left; auto|]. split; [left; auto|]. split; [exact Hx3|].
    split; [|split; [exact Hin|rewrite <- !app_assoc; reflexivity]].
    intros H. apply Hnd. unfold roadmapIds in *. cbn [rm_nodes].
    simpl in H. rewrite app_nil_r in H. exact H.
  - apply hasNode_true in E1.
    assert (E2' : ~ In (ctx_docId ctx) added).
    { intros H. apply existsb_jseqb in H. congruence. }
    exists [], [roadmapDocNode ctx], x3, [].
    split; [rewrite <- app_assoc; reflexivity|].
    split; [left; auto|]. split; [right; auto|]. split; [exact Hx3|].
    split; [|split; [exact Hin|rewrite <- !app_assoc; reflexivity]].
    intros H. apply Hnd. unfold roadmapIds in *. cbn [rm_nodes].
    rewrite map_app. exact H.
  - apply hasNode_false in E1. apply existsb_jseqb in E2.
    exists [roadmapChunkNode idx ctx], [], x3,
      [{| source := utf16 "query_root"; target := chunkId ctx;
          link_type := similar_to; weight := Some (score ctx) |}].
    split; [rewrite <- !app_assoc; reflexivity|].
    split; [right; auto|]. split; [left; auto|]. split; [exact Hx3|].
    split; [|split; [exact Hin|rewrite <- !app_assoc; reflexivity]].
    intros H. apply Hnd. unfold roadmapIds in *. cbn [rm_nodes].
    rewrite map_app. simpl in H. exact H.
  - apply hasNode_false in E1.
    assert (E2' : ~ In (ctx_docId ctx) added).
    { intros H. apply existsb_jseqb in H. congruence. }
    exists [roadmapChunkNode idx ctx], [roadmapDocNode ctx], x3,
      [{| source := utf16 "query_root"; target := chunkId ctx;
          link_type := similar_to; weight := Some (score ctx) |}].
    split; [rewrite <- !app_assoc; reflexivity|].
    split; [right; auto|]. split; [right; auto|]. split; [exact Hx3|].
    split; [|split; [exact Hin|rewrite <- !app_assoc; reflexivity]].
    intros H. apply Hnd. unfold roadmapIds in *. cbn [rm_nodes].
    rewrite !map_app. rewrite <- app_assoc. exact H.
Qed.

Lemma roadmapOrigin_more (q : jsstring) (done more : list RetrievalContext)
      (n : RoadmapNode) :
  roadmapOrigin q done n -> roadmapOrigin q (done ++ more) n.
Proof.
  unfold roadmapOrigin.
  intros [H|[[H (c & Hc & Hr)]|[[H (c & Hc & Hr)]|[H (c & Hc & Hr)]]]].
  - left. exact H.
  - right. left. split; [exact H|]. exists c. split; [apply in_or_app; auto|exact Hr].
  - right. right. left. split; [exact H|]. exists c.
    split; [apply in_or_app; auto|exact Hr].
  - right. right. right. split; [exact H|]. exists c.
    split; [apply in_or_app; auto|exact Hr].
Qed.

Lemma addContext_inv (q : jsstring) (all done : list RetrievalContext)
      (st : Roadmap * list jsstring) (idx : nat) (ctx : RetrievalContext) :
  In ctx all -> (forall c, In c done -> In c all) ->
  roadmapInv q all done st ->
  roadmapInv q all (done ++ [ctx]) (addContext (utf16 "query_root") st (idx, ctx)).
Proof.
  intros Hctx Hdone (Iq & Il & Ic & Io & Ia & Ind).
  destruct (addContext_effect st idx ctx)
    as (x1 & x2 & x3 & l1 & Hn & H1 & H2 & H3 & Hnd & Hent & Hl).
  set (st' := addContext (utf16 "query_root") st (idx, ctx)) in *.
  assert (Hids : roadmapIds (fst st')
                 = roadmapIds (fst st) ++ map rm_id x1 ++ map rm_id x2
                   ++ map rm_id x3).
  { unfold roadmapIds. rewrite Hn, !map_app. reflexivity. }
  assert (mono : forall id, In id (roadmapIds (fst st)) ->
                            In id (roadmapIds (fst st'))).
  { intros id H. rewrite Hids. apply in_or_app. auto. }
  assert (chunk_in : In (chunkId ctx) (roadmapIds (fst st'))).
  { destruct H1 as [(_ & H & _)|(-> & _ & _)]; [auto|].
    rewrite Hids. apply in_or_app. right. left. reflexivity. }
  assert (doc_in : In (ctx_docId ctx) (roadmapIds (fst st'))).
  { destruct H2 as [(_ & H & _)|(-> & _ & _)]; [auto|].
    rewrite Hids. apply in_or_app. right. apply in_or_app. right.
    left. reflexivity. }
  assert (added_mono : forall d, In d (snd st) -> In d (snd st')).
  { intros d Hd. destruct H2 as [(_ & _ & ->)|(_ & _ & ->)]; [auto|].
    apply in_or_app. auto. }
  unfold roadmapInv. cbv zeta.
  split; [auto|]. split; [|split; [|split; [|split]]].
  - intros l Hin. rewrite Hl in Hin.
    apply in_app_or in Hin. destruct Hin as [Hin|Hin].
    { destruct (Il l Hin). auto. }
    apply in_app_or in Hin. destruct Hin as [Hin|Hin].
    { destruct H1 as [(_ & _ & ->)|(_ & _ & ->)]; [contradiction|].
      destruct Hin as [<-|[]]. cbn [source target]. auto. }
    destruct Hin as [<-|Hin]; [cbn [source target]; auto|].
    apply in_map_iff in Hin. destruct Hin as (e & <- & He).
    cbn [source target]. auto.
  - intros c Hc. apply in_app_or in Hc. destruct Hc as [Hc|[<-|[]]].
    + destruct (Ic c Hc) as (A & B & C). auto.
    + auto.
  - rewrite Hn. apply Forall_app. split; [|apply Forall_app; split;
                                            [|apply Forall_app; split]].
    + eapply Forall_impl; [|exact Io]. cbv beta. intros n [Ho Hd].
      split; [apply roadmapOrigin_more; exact Ho|auto].
    + destruct H1 as [(-> & _)|(-> & _)]; constructor; [|constructor].
      split; [|discriminate]. right. left. split; [reflexivity|].
      exists ctx. split; [apply in_or_app; right; left; reflexivity|].
      split; reflexivity.
    + destruct H2 as [(-> & _)|(-> & _ & Hs)]; constructor; [|constructor].
      split.
      * right. right. left. split; [reflexivity|].
        exists ctx. split; [apply in_or_app; right; left; reflexivity|].
        split; reflexivity.
      * intros _. rewrite Hs. apply in_or_app. right. left. reflexivity.
    + eapply Forall_impl; [|exact H3]. cbv beta. intros n (T & L & I).
      split; [|rewrite T; discriminate].
      right. right. right. split; [exact T|].
      exists ctx. split; [apply in_or_app; right; left; reflexivity|].
      split; assumption.
  - intros d Hd. destruct H2 as [(_ & _ & Hs)|(_ & _ & Hs)]; rewrite Hs in Hd.
    + auto.
    + apply in_app_or in Hd. destruct Hd as [Hd|[<-|[]]]; auto.
  - intros Hap. apply Hnd. specialize (Ind Hap).
    assert (N1 : NoDup (roadmapIds (fst st) ++ map rm_id x1)).
    { destruct H1 as [(-> & _)|(-> & Hn1 & _)].
      - simpl. rewrite app_nil_r. exact Ind.
      - apply NoDup_snoc; assumption. }
    rewrite app_assoc.
    destruct H2 as [(-> & _)|(-> & Hn2 & _)].
    + simpl. rewrite app_nil_r. exact N1.
    + apply NoDup_snoc; [exact N1|]. cbn [rm_id roadmapDocNode].
      intros Hin. apply in_app_or in Hin. destruct Hin as [Hin|Hin].
      * unfold roadmapIds in Hin. apply in_map_iff in Hin.
        destruct Hin as (n & Hid & Hin).
        rewrite Forall_forall in Io. destruct (Io n Hin) as [Ho Hd].
        destruct (Hap ctx ctx Hctx Hctx) as (A & _).
        destruct Ho as [(_ & Hq & _)|[[_ (c & Hc & Hr & _)]|
                       [[T _]|[_ (c & Hc & Hr & Hi)]]]].
        -- congruence.
        -- destruct (Hap ctx c Hctx (Hdone c Hc)) as (_ & B & _). congruence.
        -- apply Hn2. rewrite <- Hid. auto.
        -- destruct (Hap ctx c Hctx (Hdone c Hc)) as (_ & _ & C).
           apply (C _ Hr). congruence.
      * destruct H1 as [(-> & _)|(-> & _)]; [contradiction|].
        destruct Hin as [Hin|[]]. cbn in Hin.
        destruct (Hap ctx ctx Hctx Hctx) as (_ & B & _). congruence.
Qed.

Lemma roadmap_fold_inv (q : jsstring) (all : list RetrievalContext) :
  forall todo done st k,
    (forall c, In c done \/ In c todo -> In c all) ->
    roadmapInv q all done st ->
    roadmapInv q all (done ++ todo)
      (fold_left (addContext (utf16 "query_root"))
                 (combine (seq k (List.length todo)) todo) st).
Proof.
  induction todo as [|ctx todo IH]; intros done st k Hall Hinv.
  - simpl. rewrite app_nil_r. exact Hinv.
  - cbn [List.length seq combine fold_left].
    replace (done ++ ctx :: todo) with ((done ++ [ctx]) ++ todo)
      by (rewrite <- app_assoc; reflexivity).
    apply IH.
    + intros c [Hc|Hc]; apply Hall.
      * apply in_app_or in Hc. destruct Hc as [Hc|[<-|[]]]; [auto|].
        right. left. reflexivity.
      * right. right. exact Hc.
    + apply addContext_inv; auto. apply Hall. right. left. reflexivity.
Qed.

Lemma roadmap_inv (q : jsstring) (contexts : list RetrievalContext) :
  q <> [] ->
  exists g added,
    roadmap (Some q) (Some contexts) = Some g /\
    roadmapInv q contexts contexts (g, added).
Proof.
  intros Hq. destruct q as [|c q]; [congruence|].
  unfold roadmap. cbv zeta.
  match goal with
  | |- context [fold_left ?f ?items ?st0] =>
    pose proof (roadmap_fold_inv (c :: q) contexts contexts [] st0 0) as H;
    destruct (fold_left f items st0) as [g added] eqn:E
  end.
  exists g, added. split; [reflexivity|].
  apply H.
  - intros x [[]|Hx]. exact Hx.
  - unfold roadmapInv, roadmapIds. cbn [fst snd rm_nodes rm_links map rm_id].
    split; [left; reflexivity|]. split; [intros l []|].
    split; [intros x []|]. split.
    + constructor; [|constructor]. split; [|discriminate].
      left. cbn. auto.
    + split; [intros d []|]. intros _. constructor; [intros []|constructor].
Qed.

Lemma slice_In {A} (l : list A) (s e : Z) (x : A) : In x (slice l s e) -> In x l.
Proof.
  unfold slice. intros H.
  match type of H with
  | In _ (firstn ?n (skipn ?k _)) =>
    rewrite <- (firstn_skipn k l); apply in_or_app; right;
    rewrite <- (firstn_skipn n (skipn k l)); apply in_or_app; left; exact H
  end.
Qed.

Lemma retrieveContext_chunks (q : jsstring) (cs : list TextChunk)
      (config : AppSettings) (docs : list Document) (log log' : Log)
      (ctxs : list RetrievalContext) (ctx : RetrievalContext) :
  retrieveContext q cs config docs log = (Returned ctxs, log') ->
  In ctx ctxs ->
  exists c, In c cs /\ chunkId ctx = chunk_id c /\ ctx_docId ctx = docId c.
Proof.
  unfold retrieveContext.
  destruct (isEmpty q || (List.length cs =? 0)%nat).
  - intros H. injection H as <- _. contradiction.
  - unfold bind, fetchEmbedding.
    destruct (fetchEmbeddingOutcome (List.length log) q config) as [queryVec|e|];
      try discriminate.
    unfold ret. intros H Hin. injection H as <- _.
    apply in_map_iff in Hin. destruct Hin as (item & <- & Hin).
    apply slice_In in Hin.
    apply (Permutation_in _ (Permutation_sym (sortBy_perm byScore _))) in Hin.
    apply filter_In in Hin. destruct Hin as [Hin _].
    apply in_map_iff in Hin. destruct Hin as (c & <- & Hc).
    exists c. auto.
Qed.

(** X23. For a non-empty query the roadmap is built, and it is closed:
    every link joins two of its nodes, whatever the ids of the contexts.
    Every context has a node for its chunk, one for its document and one
    for each of its entities; and every node is the query node, the chunk
    or the document of a context, or an entity of a context. *)
Theorem roadmap_links_closed (q : jsstring) (contexts : list RetrievalContext) :
  q <> [] ->
  exists g,
    roadmap (Some q) (Some contexts) = Some g /\
    (forall l, In l (rm_links g) ->
       In (source l) (roadmapIds g) /\ In (target l) (roadmapIds g)) /\
    (forall c, In c contexts ->
       In (chunkId c) (roadmapIds g) /\ In (ctx_docId c) (roadmapIds g) /\
       forall e, In e (relatedEntities c) ->
                 In (utf16 "ent_" ++ e) (roadmapIds g)) /\
    Forall (roadmapOrigin q contexts) (rm_nodes g).
Proof.
  intros Hq. destruct (roadmap_inv q contexts Hq) as (g & added & Hg & Hinv).
  destruct Hinv as (_ & Il & Ic & Io & _).
  exists g. split; [exact Hg|]. split; [exact Il|]. split; [exact Ic|].
  eapply Forall_impl; [|exact Io]. cbv beta. prop.
Qed.

(** X24. When no document id among the contexts is the id of the query
    node, of a chunk or of an entity of the contexts, no two nodes of the
    roadmap share an id. *)
Theorem roadmap_distinct_ids (q : jsstring) (contexts : list RetrievalContext) :
  q <> [] -> docIdsApart contexts ->
  exists g,
    roadmap (Some q) (Some contexts) = Some g /\ NoDup (roadmapIds g).
Proof.
  intros Hq Hap. destruct (roadmap_inv q contexts Hq) as (g & added & Hg & Hinv).
  destruct Hinv as (_ & _ & _ & _ & _ & Ind).
  exists g. split; [exact Hg|]. exact (Ind Hap).
Qed.

(** X25. The nodes of the roadmap of a retrieval can be opened. When every
    chunk in memory belongs to a listed document, and the roadmap is built
    from the contexts [retrieveContext] returned over the chunks and
    documents in memory, [handleViewDocument], called with the id and the
    type of a node, sets a view of that type for every chunk, document and
    entity node; on the query node it sets nothing. *)
Theorem roadmap_nodes_can_be_viewed (st : AppState) (q : jsstring)
        (log log' : Log) (ctxs : list RetrievalContext) (g : Roadmap)
        (n : RoadmapNode) :
  (forall c, In c (chunks st) -> In (docId c) (map doc_id (documents st))) ->
  retrieveContext q (chunks st) (settings st) (documents st) log
  = (Returned ctxs, log') ->
  roadmap (Some q) (Some ctxs) = Some g ->
  In n (rm_nodes g) ->
  match rm_type n with
  | query => handleViewDocument st (rm_id n) query = None
  | t => exists view,
           handleViewDocument st (rm_id n) t = Some view /\ view_type view = t
  end.
Proof.
  intros Hown Hret Hg Hn.
  assert (Hq : q <> []) by (intros ->; discriminate).
  destruct (roadmap_inv q ctxs Hq) as (g' & added & Hg' & Hinv).
  rewrite Hg in Hg'. injection Hg' as <-.
  destruct Hinv as (_ & _ & _ & Io & _).
  rewrite Forall_forall in Io. destruct (Io n Hn) as [Ho _].
  destruct Ho as [(T & _)|[[T (ctx & Hc & Hid & _)]|
                 [[T (ctx & Hc & Hid & _)]|[T _]]]]; rewrite T.
  - reflexivity.
  - destruct (retrieveContext_chunks _ _ _ _ _ _ _ _ Hret Hc) as (c & Hin & H1 & _).
    destruct (find_present (fun x => jseqb (chunk_id x) (rm_id n)) (chunks st) c Hin)
      as (c' & Hf & _).
    { apply jseqb_eq. congruence. }
    unfold handleViewDocument. rewrite Hf. eexists. split; reflexivity.
  - destruct (retrieveContext_chunks _ _ _ _ _ _ _ _ Hret Hc) as (c & Hin & _ & H2).
    pose proof (Hown c Hin) as Hd. apply in_map_iff in Hd.
    destruct Hd as (d & Hd & Hdin).
    destruct (find_present (fun x => jseqb (doc_id x) (rm_id n)) (documents st) d Hdin)
      as (d' & Hf & _).
    { apply jseqb_eq. congruence. }
    unfold handleViewDocument. rewrite Hf. eexists. split; reflexivity.
  - unfold handleViewDocument. eexists. split; reflexivity.
Qed.

(** ** Chat completion *)

Section ChatProperties.

Variable locationOrigin : jsstring.
Variable chatEndpoint : Request -> outcome Response.








(** X26. [callLLM] lets no raw error out: whatever fails inside, the
    message thrown is either the connection message naming the provider
    or the failure's own message after a fixed prefix. A missing key of
    the provider [openai] or [openrouter] is reported in the second form,
    whatever the endpoint would answer. *)
Theorem callLLM_errors (messages : list ChatMessage) (settings : AppSettings) :
  (forall e,
     callLLM locationOrigin chatEndpoint messages settings = Thrown e ->
     e = utf16 "خطای اتصال به مدل " ++ providerName (provider settings)
         ++ utf16 ". لطفا CORS و آدرس سرور را در تنظیمات بررسی کنید."
     \/ exists m, e = utf16 "خطا در هوش مصنوعی: " ++ m) /\
  (provider settings = LLM_openai -> openaiKey settings = [] ->
   callLLM locationOrigin chatEndpoint messages settings
   = Thrown (utf16 "خطا در هوش مصنوعی: " ++ utf16 "کلید OpenAI وارد نشده است")) /\
  (provider settings = LLM_openrouter -> openrouterKey settings = [] ->
   callLLM locationOrigin chatEndpoint messages settings
   = Thrown (utf16 "خطا در هوش مصنوعی: " ++ utf16 "کلید OpenRouter وارد نشده است")).
Proof.
  split; [|split].
  - intros e. unfold callLLM.
    destruct (exchange locationOrigin chatEndpoint messages settings)
      as [c|m|]; try discriminate.
    destruct (negb (isEmpty m) && includes m (utf16 "Failed to fetch"));
      intros H; injection H as <-; [left; reflexivity|right; exists m; reflexivity].
  - intros Hp Hk. unfold callLLM, exchange, chatRequest. rewrite Hp, Hk.
    reflexivity.
  - intros Hp Hk. unfold callLLM, exchange, chatRequest. rewrite Hp, Hk.
    reflexivity.
Qed.


End ChatProperties.

(** ** Reloading the knowledge base *)






End Engine.

(** ** The theorems at work on the examples *)

Lemma retrieveContext_ordering_witness :
  exists ctxs log',
    retrieveContext asciiLowerCase (constantEndpoint unitX) (utf16 "alpha")
      rankedChunks (sampleSettings 2) [sampleDoc "d1" "alpha beta"] []
    = (Returned ctxs, log') /\
    List.length ctxs = 2%nat /\
    descending (map score ctxs) /\
    (0 <= 2 -> Z.of_nat (List.length ctxs) <= 2) /\
    Forall (fun c => (0.25 <? score c)%float = true /\
                     (score c <=? 0.25)%float = false) ctxs.
Proof.
  eexists. eexists. split; [vm_compute; reflexivity|].
  split; [reflexivity|].
  eapply (retrieveContext_ordering asciiLowerCase (constantEndpoint unitX)
            (utf16 "alpha") rankedChunks (sampleSettings 2)
            [sampleDoc "d1" "alpha beta"] []).
  vm_compute. reflexivity.
Defined.

(** Two chunks with the same score are both returned, one after the other;
    and a negative [topK] drops items from the end instead of bounding the
    length. *)
Lemma retrieveContext_ordering_counterexample :
  (exists ctxs log',
     retrieveContext asciiLowerCase (constantEndpoint unitX) (utf16 "alpha")
       tiedChunks (sampleSettings 5) [] []
     = (Returned ctxs, log') /\
     ~ strictlyDescending (map score ctxs)) /\
  (exists ctxs log',
     retrieveContext asciiLowerCase (constantEndpoint unitX) (utf16 "alpha")
       rankedChunks (sampleSettings (-1)) [] []
     = (Returned ctxs, log') /\
     ~ Z.of_nat (List.length ctxs) <= -1).
Proof.
  split.
  - eexists. eexists. split; [vm_compute; reflexivity|].
    simpl. intros H. inversion H as [|? ? _ Hd]; subst.
    inversion Hd as [|? ? Hlt]; subst. vm_compute in Hlt. discriminate.
  - eexists. eexists. split; [vm_compute; reflexivity|].
    simpl. lia.
Qed.

Lemma retrieveContext_empty_witness :
  retrieveContext asciiLowerCase (failingAfter 0 unitX) [] tiedChunks
    (sampleSettings 5) [] []
  = (Returned [], []) /\
  retrieveContext asciiLowerCase (failingAfter 0 unitX) (utf16 "alpha") []
    (sampleSettings 5) [] []
  = (Returned [], []).
Proof.
  split.
  - apply (retrieveContext_empty asciiLowerCase (failingAfter 0 unitX)).
    left. reflexivity.
  - apply (retrieveContext_empty asciiLowerCase (failingAfter 0 unitX)).
    right. reflexivity.
Defined.

Lemma cosineSimilarity_zero_fallback_witness :
  cosineSimilarity (Some [1; 2]%float) None = 0%float /\
  cosineSimilarity (Some [1; 2]%float) (Some [1]%float) = 0%float /\
  cosineSimilarity (Some [1; 2]%float) (Some [0; 0]%float) = 0%float.
Proof.
  split; [|split]; apply cosineSimilarity_zero_fallback.
  - right. left. reflexivity.
  - right. right. exists [1; 2]%float, [1]%float.
    split; [reflexivity|]. split; [reflexivity|]. left. simpl. lia.
  - right. right. exists [1; 2]%float, [0; 0]%float.
    split; [reflexivity|]. split; [reflexivity|]. right. right. reflexivity.
Defined.

Lemma chunkText_terminates_witness :
  exists chunks,
    chunkText (utf16 "a b c d e f") 4 1 = Some chunks /\
    forall fuel,
      Z.of_nat (List.length (splitWhiteSpace false [] (utf16 "a b c d e f")))
        <= (Z.of_nat fuel - 1) * (4 - 1) ->
      chunkTextFuel fuel (utf16 "a b c d e f") 4 1 = Some chunks.
Proof. apply (chunkText_terminates (utf16 "a b c d e f") 4 1). lia. Defined.

(** The second window of the example is not among the chunks. *)
Lemma chunkText_example_counterexample :
  chunkText (utf16 "a b c d e f") 4 1
  <> Some [utf16 "a b c d"; utf16 "d e f"].
Proof. vm_compute. discriminate. Qed.

Lemma tokenize_keeps_zeros_witness :
  tokenize asciiLowerCase (utf16 "1,000") = [utf16 "000"].
Proof. apply (tokenize_keeps_zeros asciiLowerCase). reflexivity. Defined.

Lemma embedding_failure_aborts_indexing_witness :
  let d := newDocument (utf16 "d", utf16 "a b c d e f g h i j k l m") (utf16 "id") 7 in
  let run := processDocument (failingAfter 2 unitX) d (sampleSettings 5) [] in
  List.length (snd run) = 3%nat /\
  (exists e t,
     fst run = Thrown e /\
     last (snd run) {| call_text := []; call_outcome := Diverged |}
     = {| call_text := t; call_outcome := Thrown e |}) /\
  exists st',
    handleAddDocument asciiLowerCase (failingAfter 2 unitX) emptyState
      {| input_title := Some (utf16 "d");
         input_content := Some (utf16 "a b c d e f g h i j k l m");
         input_file := None |} (utf16 "id") 7 []
    = (Returned st', snd run) /\
    In (withStatus d error) (documents st') /\
    (forall x, In x (documents st') -> doc_id x = doc_id d ->
               status x = Some error) /\
    chunks st' = [] /\ db_documents st' = [] /\ db_chunks st' = [].
Proof.
  intros d run. split; [reflexivity|].
  destruct (embedding_failure_aborts_indexing asciiLowerCase
              (failingAfter 2 unitX) d (sampleSettings 5) [] (snd run) (fst run))
    as [H1 H2].
  - apply surjective_pairing.
  - exists {| call_text := utf16 "d e f g";
              call_outcome := Thrown (utf16 "Failed to fetch") |}.
    split; [vm_compute; auto | exists (utf16 "Failed to fetch"); reflexivity].
  - split; [exact H1|].
    apply (H2 emptyState _ (utf16 "id") 7 (utf16 "d", utf16 "a b c d e f g h i j k l m"));
      reflexivity.
Defined.

Lemma rebuildGraphFromChunks_well_formed_witness :
  wellFormedGraph
    (rebuildGraphFromChunks asciiLowerCase smallCorpusDocs smallCorpusChunks) /\
  List.length (nodes (rebuildGraphFromChunks asciiLowerCase smallCorpusDocs
                        smallCorpusChunks)) = 5%nat.
Proof.
  split; [|reflexivity].
  apply (rebuildGraphFromChunks_well_formed asciiLowerCase).
  - vm_compute. repeat constructor; simpl; intuition discriminate.
  - intros c c' e Hc Hc' He.
    assert (Hp : firstn 4 (chunk_id c) = utf16 "d_ch").
    { destruct Hc as [<-|[<-|[]]]; reflexivity. }
    intros E. rewrite E in Hp. discriminate.
  - intros c [<-|[<-|[]]]; left; reflexivity.
Defined.

(** A chunk whose document is not listed, a chunk that bears the id of a
    document, and a chunk that bears the id of an entity node: each breaks
    the graph, though the document ids are pairwise distinct and so are the
    chunk ids. *)
Lemma rebuildGraphFromChunks_well_formed_counterexample :
  (let docs := [] in
   let cs := [sampleChunk "c" "gone" "" None] in
   NoDup (map doc_id docs) /\ NoDup (map chunk_id cs) /\
   ~ wellFormedGraph (rebuildGraphFromChunks asciiLowerCase docs cs)) /\
  (let docs := [sampleDoc "x" ""] in
   let cs := [sampleChunk "x" "x" "" None] in
   NoDup (map doc_id docs) /\ NoDup (map chunk_id cs) /\
   ~ wellFormedGraph (rebuildGraphFromChunks asciiLowerCase docs cs)) /\
  (let docs := [sampleDoc "d" ""] in
   let cs := [sampleChunk "c" "d" "foo" None; sampleChunk "ent_foo" "d" "" None] in
   NoDup (map doc_id docs) /\ NoDup (map chunk_id cs) /\
   ~ wellFormedGraph (rebuildGraphFromChunks asciiLowerCase docs cs)).
Proof.
  split; [|split]; intros docs cs.
  - split; [constructor|]. split; [repeat constructor; simpl; tauto|].
    intros [_ HL].
    destruct (HL {| source := utf16 "gone"; target := utf16 "c";
                    link_type := contains; weight := None |}) as [H _].
    + left. reflexivity.
    + vm_compute in H. intuition discriminate.
  - split; [repeat constructor; simpl; tauto|].
    split; [repeat constructor; simpl; tauto|].
    intros [HN _]. vm_compute in HN.
    inversion HN as [|? ? Hx _]; subst. apply Hx. left. reflexivity.
  - split; [repeat constructor; simpl; tauto|].
    split; [vm_compute; repeat constructor; simpl; intuition discriminate|].
    intros [HN _]. vm_compute in HN.
    inversion HN as [|? ? _ HN1]; subst.
    inversion HN1 as [|? ? _ HN2]; subst.
    inversion HN2 as [|? ? Hx _]; subst. apply Hx. left. reflexivity.
Qed.

(** ** The further properties at work on the examples *)

Lemma tokenize_token_shape_witness :
  In (utf16 "alpha") (tokenize asciiLowerCase (utf16 "Alpha beta")) /\
  2 < jslength (utf16 "alpha") /\
  has PERSIAN_STOP_WORDS (utf16 "alpha") = false /\
  Forall (fun c => isWhiteSpace c = false /\ isPunctuation c = false /\
                   isZeroWidth c = false) (utf16 "alpha").
Proof.
  assert (H : In (utf16 "alpha") (tokenize asciiLowerCase (utf16 "Alpha beta"))).
  { vm_compute. left. reflexivity. }
  split; [exact H|].
  exact (tokenize_token_shape asciiLowerCase (utf16 "Alpha beta") (utf16 "alpha") H).
Defined.

Lemma tokenize_drops_nonzero_numerals_witness :
  In (utf16 "000") (tokenize asciiLowerCase (utf16 "1,000")) /\
  forallb (Z.eqb 48) (utf16 "000") = true.
Proof.
  assert (H : In (utf16 "000") (tokenize asciiLowerCase (utf16 "1,000"))).
  { vm_compute. left. reflexivity. }
  split; [exact H|].
  apply (tokenize_drops_nonzero_numerals asciiLowerCase (utf16 "1,000")
           (utf16 "000") H).
  vm_compute. reflexivity.
Defined.

Lemma chunkText_windows_witness :
  exists n,
    (1 <= n)%nat /\
    chunkText (utf16 "a b c d e f") 4 1
    = Some (filter (fun c => 5 <? jslength c)
              (map (window (splitWhiteSpace false [] (utf16 "a b c d e f")) 4 (4 - 1))
                   (seq 0 n))) /\
    forall j, (j < List.length (splitWhiteSpace false [] (utf16 "a b c d e f")))%nat ->
      exists k, (k < n)%nat /\
                Z.of_nat k * (4 - 1) <= Z.of_nat j < Z.of_nat k * (4 - 1) + 4.
Proof. apply (chunkText_windows (utf16 "a b c d e f") 4 1). lia. Defined.

Lemma chunkText_diverges_witness :
  (forall fuel, chunkTextFuel fuel (utf16 "a b c d e f") 2 2 = None) /\
  chunkText (utf16 "a b c d e f") 2 2 = None.
Proof.
  destruct (chunkText_diverges (constantEndpoint unitX) (utf16 "a b c d e f") 2 2)
    as (H1 & H2 & _).
  - lia.
  - vm_compute. reflexivity.
  - split; assumption.
Defined.

Lemma processDocument_indexes_every_chunk_witness :
  let d := sampleDoc "d1" "alpha beta gamma delta epsilon zeta" in
  let config := sampleSettings 5 in
  exists texts vs v0,
    chunkText (content d) (chunkSize (ragConfig config))
              (chunkOverlap (ragConfig config)) = Some texts /\
    List.length vs = List.length texts /\
    processDocument (constantEndpoint unitX) d config []
    = (Returned (chunkRecords d 0 texts vs),
       [] ++ {| call_text := utf16 "test"; call_outcome := Returned v0 |}
             :: returnedCalls texts vs).
Proof.
  intros d config.
  apply (processDocument_indexes_every_chunk (constantEndpoint unitX) d config []).
  - simpl. lia.
  - intros n t. eexists. reflexivity.
Defined.

Lemma processDocument_distinct_ids_witness :
  exists cs log',
    processDocument (constantEndpoint unitX)
      (sampleDoc "d1" "alpha beta gamma delta epsilon zeta") (sampleSettings 5) []
    = (Returned cs, log') /\
    List.length cs = 2%nat /\
    NoDup (map chunk_id cs) /\
    Forall (fun c => docId c = doc_id (sampleDoc "d1" "alpha beta gamma delta epsilon zeta"))
           cs.
Proof.
  eexists. eexists. split; [vm_compute; reflexivity|].
  split; [reflexivity|].
  eapply (processDocument_distinct_ids (constantEndpoint unitX)
            (sampleDoc "d1" "alpha beta gamma delta epsilon zeta")
            (sampleSettings 5) []).
  vm_compute. reflexivity.
Defined.

Lemma missing_key_aborts_witness :
  exists msg,
    processDocument (constantEndpoint unitX) (sampleDoc "d1" "alpha beta")
      keylessSettings []
    = (Thrown msg,
       [] ++ [{| call_text := utf16 "test"; call_outcome := Thrown msg |}]) /\
    retrieveContext asciiLowerCase (constantEndpoint unitX) (utf16 "alpha")
      tiedChunks keylessSettings [] []
    = (Thrown msg,
       [] ++ [{| call_text := utf16 "alpha"; call_outcome := Thrown msg |}]).
Proof.
  destruct (missing_key_aborts asciiLowerCase (constantEndpoint unitX) keylessSettings)
    as [H1 H2].
  - left. split; reflexivity.
  - eexists. split; [apply H1|apply H2; discriminate].
Defined.

Lemma retrieveContext_single_call_witness :
  snd (retrieveContext asciiLowerCase (failingAfter 0 unitX) (utf16 "alpha")
         tiedChunks (sampleSettings 5) [] [])
  = [] ++ [{| call_text := utf16 "alpha";
              call_outcome := Thrown (utf16 "Failed to fetch") |}] /\
  fst (retrieveContext asciiLowerCase (failingAfter 0 unitX) (utf16 "alpha")
         tiedChunks (sampleSettings 5) [] [])
  = Thrown (utf16 "Failed to fetch").
Proof.
  apply (retrieveContext_single_call asciiLowerCase (failingAfter 0 unitX)
           (utf16 "alpha") tiedChunks (sampleSettings 5) [] []); discriminate.
Defined.

Lemma retrieveContext_provenance_witness :
  exists ctxs log',
    retrieveContext asciiLowerCase (constantEndpoint unitX) (utf16 "alpha")
      rankedChunks (sampleSettings 2) [sampleDoc "d1" "alpha beta"] []
    = (Returned ctxs, log') /\
    List.length ctxs = 2%nat /\
    Forall (fun ctx => exists c, In c rankedChunks /\ chunkId ctx = chunk_id c /\
                                 docTitle ctx = utf16 "d1") ctxs.
Proof.
  eexists. eexists. split; [vm_compute; reflexivity|].
  split; [reflexivity|].
  apply Forall_forall. intros ctx Hin.
  destruct (retrieveContext_provenance asciiLowerCase (constantEndpoint unitX)
              (utf16 "alpha") rankedChunks (sampleSettings 2)
              [sampleDoc "d1" "alpha beta"] [] _ _ ctx
              ltac:(vm_compute; reflexivity) Hin)
    as (c & v & qv & Hc & _ & _ & Hid & Hd & _ & _ & _ & Ht).
  exists c. split; [exact Hc|]. split; [exact Hid|].
  rewrite Ht.
  destruct Hc as [<-|[<-|[<-|[<-|[<-|[]]]]]]; reflexivity.
Defined.

Lemma retrieveContext_top_k_witness :
  exists ctxs log' (top rest : list (TextChunk * float)),
    retrieveContext asciiLowerCase (constantEndpoint unitX) (utf16 "alpha")
      rankedChunks (sampleSettings 2) [] []
    = (Returned ctxs, log') /\
    ctxs = map (toContext asciiLowerCase []) top /\
    List.length top = 2%nat /\
    forall x y, In x rest -> In y top -> (snd x <=? snd y)%float = true.
Proof.
  destruct (retrieveContext_top_k asciiLowerCase (constantEndpoint unitX)
              (utf16 "alpha") rankedChunks (sampleSettings 2) [] []
              (snd (retrieveContext asciiLowerCase (constantEndpoint unitX)
                      (utf16 "alpha") rankedChunks (sampleSettings 2) [] []))
              (match fst (retrieveContext asciiLowerCase (constantEndpoint unitX)
                            (utf16 "alpha") rankedChunks (sampleSettings 2) [] [])
               with Returned l => l | _ => [] end))
    as (qv & top & rest & Hq & _ & Hc & Hl & Hr).
  - discriminate.
  - discriminate.
  - simpl. lia.
  - vm_compute. reflexivity.
  - eexists. eexists. exists top, rest.
    split; [vm_compute; reflexivity|].
    split; [rewrite <- Hc; vm_compute; reflexivity|].
    split; [|exact Hr].
    rewrite Hl. injection Hq as <-. vm_compute. reflexivity.
Defined.

Lemma extractEntities_most_frequent_witness :
  In (utf16 "omega")
     (tokenize asciiLowerCase (utf16 "alpha beta gamma delta epsilon omega")) /\
  ~ In (utf16 "omega")
       (extractEntities asciiLowerCase (utf16 "alpha beta gamma delta epsilon omega")) /\
  List.length (extractEntities asciiLowerCase
                 (utf16 "alpha beta gamma delta epsilon omega")) = 5%nat.
Proof.
  assert (H1 : In (utf16 "omega")
                  (tokenize asciiLowerCase
                     (utf16 "alpha beta gamma delta epsilon omega"))).
  { vm_compute. auto 10. }
  assert (H2 : ~ In (utf16 "omega")
                    (extractEntities asciiLowerCase
                       (utf16 "alpha beta gamma delta epsilon omega"))).
  { intros H. vm_compute in H.
    repeat (destruct H as [H|H]; [discriminate|]). exact H. }
  split; [exact H1|]. split; [exact H2|].
  apply (extractEntities_most_frequent asciiLowerCase
           (utf16 "alpha beta gamma delta epsilon omega") (utf16 "omega") H1 H2).
Defined.

Lemma handleAddDocument_rejects_blank_witness :
  exists st',
    handleAddDocument asciiLowerCase (failingAfter 0 unitX) oneDocState
      {| input_title := Some (utf16 "notes");
         input_content := Some (utf16 "   ");
         input_file := None |} (utf16 "id") 7 []
    = (Returned st', []) /\
    documents st' = documents oneDocState /\
    app_error st' = Some (utf16 "محتوای سند خالی است.").
Proof.
  destruct (handleAddDocument_rejects_blank asciiLowerCase (failingAfter 0 unitX)
              oneDocState
              {| input_title := Some (utf16 "notes");
                 input_content := Some (utf16 "   ");
                 input_file := None |} (utf16 "id") 7 [])
    as (st' & H1 & H2 & _ & _ & _ & _ & H3 & _).
  - reflexivity.
  - vm_compute. repeat constructor.
  - exists st'. auto.
Defined.


Lemma handleAddDocument_keeps_corpus_witness :
  exists st' log',
    handleAddDocument asciiLowerCase (constantEndpoint unitX) emptyState
      {| input_title := Some (utf16 "d");
         input_content := Some (utf16 "a b c d e f g h i j k l m");
         input_file := None |} (utf16 "id") 7 []
    = (Returned st', log') /\
    List.length (chunks st') = 4%nat /\
    corpusOk (documents st') (chunks st').
Proof.
  eexists. eexists. split; [vm_compute; reflexivity|].
  split; [reflexivity|].
  eapply (handleAddDocument_keeps_corpus asciiLowerCase (constantEndpoint unitX)
            emptyState _
            {| input_title := Some (utf16 "d");
               input_content := Some (utf16 "a b c d e f g h i j k l m");
               input_file := None |} (utf16 "id") 7 []).
  - split; [constructor|]. split; intros c [].
  - constructor.
  - vm_compute. reflexivity.
Defined.

Lemma handleUpdateDocument_keeps_old_version_witness :
  exists st' log',
    handleUpdateDocument asciiLowerCase (constantEndpoint unitX) oneDocState
      (sampleDoc "d1" "alpha beta gamma delta epsilon") None (utf16 "id2") 7 []
    = (Returned st', log') /\
    In (sampleDoc "d1" "alpha beta gamma delta") (documents st') /\
    (forall d, In d (db_documents st') ->
               doc_id d <> doc_id (sampleDoc "d1" "alpha beta gamma delta epsilon")).
Proof.
  eexists. eexists. split; [vm_compute; reflexivity|].
  destruct (handleUpdateDocument_keeps_old_version asciiLowerCase
              (constantEndpoint unitX) oneDocState _
              (sampleDoc "d1" "alpha beta gamma delta epsilon") (utf16 "id2") 7 [] _
              ltac:(vm_compute; discriminate) ltac:(vm_compute; reflexivity))
    as (H1 & _ & H3 & _).
  split; [|exact H3].
  apply H1; [left; reflexivity|vm_compute; discriminate].
Defined.

Lemma graph_nodes_can_be_viewed_witness :
  exists view,
    handleViewDocument oneDocState
      (node_id (chunkNode (sampleChunk "d1_chk_1" "d1" "gamma delta" (Some unitX))))
      (node_type (chunkNode (sampleChunk "d1_chk_1" "d1" "gamma delta" (Some unitX))))
    = Some view /\
    view_type view
    = node_type (chunkNode (sampleChunk "d1_chk_1" "d1" "gamma delta" (Some unitX))).
Proof.
  destruct (graph_nodes_can_be_viewed asciiLowerCase oneDocState
              (chunkNode (sampleChunk "d1_chk_1" "d1" "gamma delta" (Some unitX))))
    as (view & H1 & H2 & _).
  - vm_compute. auto 10.
  - exists view. auto.
Defined.

Lemma processFile_title_witness :
  processFile textFile sampleContents
  = inr (utf16 "report.final", utf16 "hello world") /\
  ((exists ext, ext <> [] /\ Forall (fun c => c <> 46 /\ c <> 47) ext /\
                file_name textFile = utf16 "report.final" ++ 46 :: ext) \/
   (utf16 "report.final" = file_name textFile /\
    forall stem ext, file_name textFile = stem ++ 46 :: ext ->
      ext = [] \/ Exists (fun c => c = 46 \/ c = 47) ext)).
Proof.
  assert (H : processFile textFile sampleContents
              = inr (utf16 "report.final", utf16 "hello world")).
  { vm_compute. reflexivity. }
  split; [exact H|].
  exact (processFile_title textFile sampleContents _ _ H).
Defined.

Lemma handleAddDocument_file_failure_witness :
  exists e st',
    processFile imageFile sampleContents = inl e /\
    handleAddDocument asciiLowerCase (failingAfter 0 unitX) oneDocState
      (fileInput (utf16 "scan") (utf16 "typed text") imageFile sampleContents)
      (utf16 "id") 7 []
    = (Returned st', []) /\
    documents st' = documents oneDocState /\ app_error st' = Some e.
Proof.
  eexists.
  destruct (handleAddDocument_file_failure asciiLowerCase (failingAfter 0 unitX)
              oneDocState (utf16 "scan") (utf16 "typed text") imageFile
              sampleContents _ (utf16 "id") 7 [] ltac:(vm_compute; reflexivity))
    as (_ & st' & H1 & H2 & _ & _ & _ & _ & H3 & _).
  exists st'. split; [vm_compute; reflexivity|]. auto.
Defined.

Lemma processFile_pdf_words_witness :
  exists words,
    Forall properWord words /\
    processFile pdfFile sampleContents
    = inr (stripExtension (file_name pdfFile), join [SPACE] words) /\
    processFile pdfFile sampleContents
    = inr (utf16 "paper", utf16 "Hello world again").
Proof.
  destruct (processFile_pdf_words pdfFile sampleContents
              [[utf16 "Hello "; utf16 "world"]; [utf16 "again"]]
              eq_refl eq_refl)
    as (words & H1 & H2 & _).
  exists words. split; [exact H1|]. split; [exact H2|].
  vm_compute. reflexivity.
Defined.

Lemma roadmap_links_closed_witness :
  exists g,
    roadmap (Some (utf16 "alpha")) (Some sampleContexts) = Some g /\
    List.length (rm_nodes g) = 7%nat /\
    List.length (rm_links g) = 8%nat /\
    forall l, In l (rm_links g) ->
      In (source l) (roadmapIds g) /\ In (target l) (roadmapIds g).
Proof.
  destruct (roadmap_links_closed (utf16 "alpha") sampleContexts)
    as (g & H1 & H2 & _); [discriminate|].
  exists g. split; [exact H1|].
  assert (E : Some g = roadmap (Some (utf16 "alpha")) (Some sampleContexts))
    by (symmetry; exact H1).
  vm_compute in E. injection E as ->.
  split; [reflexivity|]. split; [reflexivity|]. exact H2.
Defined.

Lemma docIdsApart_sampleContexts : docIdsApart sampleContexts.
Proof.
  intros c c' Hc Hc'.
  assert (Hd : ctx_docId c = utf16 "d1").
  { destruct Hc as [<-|[<-|[]]]; reflexivity. }
  rewrite Hd. split; [vm_compute; discriminate|]. split.
  - destruct Hc' as [<-|[<-|[]]]; vm_compute; discriminate.
  - intros e He.
    destruct Hc' as [<-|[<-|[]]]; destruct He as [<-|[<-|[]]];
      vm_compute; discriminate.
Defined.

Lemma roadmap_distinct_ids_witness :
  exists g,
    roadmap (Some (utf16 "alpha")) (Some sampleContexts) = Some g /\
    NoDup (roadmapIds g).
Proof.
  apply (roadmap_distinct_ids (utf16 "alpha") sampleContexts).
  - discriminate.
  - exact docIdsApart_sampleContexts.
Defined.

Lemma roadmap_nodes_can_be_viewed_witness :
  exists ctxs log' g n,
    retrieveContext asciiLowerCase (constantEndpoint unitX) (utf16 "alpha")
      (chunks oneDocState) (settings oneDocState) (documents oneDocState) []
    = (Returned ctxs, log') /\
    roadmap (Some (utf16 "alpha")) (Some ctxs) = Some g /\
    In n (rm_nodes g) /\
    rm_type n = doc /\
    exists view,
      handleViewDocument oneDocState (rm_id n) doc = Some view /\
      view_type view = doc.
Proof.
  eexists. eexists. eexists.
  exists {| rm_id := utf16 "d1"; rm_type := doc; rm_label := utf16 "d1";
            rm_val := 25; rm_data := None |}.
  split; [vm_compute; reflexivity|].
  split; [vm_compute; reflexivity|].
  split; [vm_compute; auto 10|].
  split; [reflexivity|].
  refine (roadmap_nodes_can_be_viewed asciiLowerCase (constantEndpoint unitX)
            oneDocState (utf16 "alpha") [] _ _ _
            {| rm_id := utf16 "d1"; rm_type := doc; rm_label := utf16 "d1";
               rm_val := 25; rm_data := None |} _ _ _ _).
  - intros c Hc. vm_compute in Hc. destruct Hc as [<-|[<-|[]]]; left; reflexivity.
  - vm_compute. reflexivity.
  - vm_compute. reflexivity.
  - vm_compute. auto 10.
Defined.


(** A context whose document id is also its chunk id gives two nodes with
    one id: the condition of [roadmap_distinct_ids] cannot be dropped. *)
Lemma roadmap_shared_id_example :
  exists g,
    roadmap (Some (utf16 "alpha"))
      (Some [{| chunkId := utf16 "x"; ctx_docId := utf16 "x";
                docTitle := utf16 "x"; ctx_content := utf16 "alpha";
                score := 0.5%float; relatedEntities := [] |}])
    = Some g /\
    ~ NoDup (roadmapIds g).
Proof.
  eexists. split; [vm_compute; reflexivity|].
  vm_compute. intros H.
  inversion H as [|? ? _ H']; subst.
  inversion H' as [|? ? Hn _]; subst.
  apply Hn. left. reflexivity.
Qed.
